(** * Cost-based optimizer core: column sets, aggregation builder,
      constant inlining and the cost model.

    A shallow embedding of
      - pkg/sql/opt/colset.go            (module [opt]),
      - pkg/sql/opt/optbuilder/groupby.go (module [optbuilder]),
      - pkg/sql/opt/norm/inline.go        (module [norm]),
      - pkg/sql/opt/xform/coster.go       (module [xform]),
    with the properties the specification states about them. *)

From Stdlib Require Import ZArith Bool List Floats Reals Lra Lia.
From stdpp Require Import base option gmap sets list strings.

Set Warnings "-inexact-float".
Set Warnings "-clear-no-such-hyp".

(* ===================================================================== *)
(** * pkg/sql/opt: ColumnID and ColSet                                     *)
(* ===================================================================== *)
Module opt.

(** [type ColumnID int32]: column ids are integers. *)
Abbreviation ColumnID := Z (only parsing).

(** Modelled from the spec: [util.FastIntSet] (pkg/util/fast_int_set.go) is
    not among the sources; the spec describes it as "an unordered,
    deduplicated set of integer column identifiers with fast membership,
    iteration in ascending order, and set-algebra operations".  Its contents
    are a finite set of integers. *)
Record ColSet := MkColSet { set : gset Z }.

(** The zero value [ColSet{}] is the empty set. *)
Definition zero : ColSet := MkColSet ∅.

(** [func MakeColSet(vals ...ColumnID) ColSet] *)
Definition MakeColSet (vals : list ColumnID) : ColSet :=
  MkColSet (list_to_set vals).

(** [func (s *ColSet) Add(col ColumnID)]: returns the receiver afterwards. *)
Definition Add (s : ColSet) (col : ColumnID) : ColSet :=
  MkColSet ({[ col ]} ∪ set s).

(** [func (s *ColSet) Remove(col ColumnID)] *)
Definition Remove (s : ColSet) (col : ColumnID) : ColSet :=
  MkColSet (set s ∖ {[ col ]}).

(** [func (s ColSet) Contains(col ColumnID) bool] *)
Definition Contains (s : ColSet) (col : ColumnID) : bool :=
  bool_decide (col ∈ set s).

(** [func (s ColSet) Empty() bool] *)
Definition Empty (s : ColSet) : bool := bool_decide (set s = ∅).

(** [func (s ColSet) Len() int] *)
Definition Len (s : ColSet) : nat := size (set s).

(** [func (s *ColSet) UnionWith(rhs ColSet)]: the receiver afterwards. *)
Definition UnionWith (s rhs : ColSet) : ColSet := MkColSet (set s ∪ set rhs).

(** [func (s *ColSet) IntersectionWith(rhs ColSet)] *)
Definition IntersectionWith (s rhs : ColSet) : ColSet :=
  MkColSet (set s ∩ set rhs).

(** [func (s *ColSet) DifferenceWith(rhs ColSet)] *)
Definition DifferenceWith (s rhs : ColSet) : ColSet :=
  MkColSet (set s ∖ set rhs).

(** [func (s ColSet) Copy() ColSet], [Union], [Intersection] and
    [Difference] return a new set with these contents. *)
Definition Copy (s : ColSet) : ColSet := s.
Definition Union (s rhs : ColSet) : ColSet := UnionWith (Copy s) rhs.
Definition Intersection (s rhs : ColSet) : ColSet := IntersectionWith (Copy s) rhs.
Definition Difference (s rhs : ColSet) : ColSet := DifferenceWith (Copy s) rhs.

(** ** Set objects and ownership *)

(** Modelled from the spec: the ownership discipline of [util.FastIntSet]
    (not among the sources): "callers must treat every returned set as
    independently owned and must call copy() before mutating a set obtained
    from another owner, since in-place mutators (add, union_with, etc.) are
    destructive".  A set is therefore an object with an identity: the store
    maps the address of each live set to its contents, the in-place methods
    overwrite the receiver's cell, and [Copy] and the methods "returning a
    new set" allocate a fresh cell. *)
Module Obj.

Abbreviation addr := positive (only parsing).
Abbreviation store := (gmap positive ColSet) (only parsing).

(** Contents of the set at [a] (an address never allocated reads as the
    zero value). *)
Definition deref (h : store) (a : addr) : ColSet := default zero (h !! a).

Definition Contains (h : store) (s : addr) (col : ColumnID) : bool :=
  opt.Contains (deref h s) col.

(** In-place mutators: destructive on the receiver's cell. *)
Definition Add (h : store) (s : addr) (col : ColumnID) : store :=
  <[ s := opt.Add (deref h s) col ]> h.

Definition UnionWith (h : store) (s rhs : addr) : store :=
  <[ s := opt.UnionWith (deref h s) (deref h rhs) ]> h.

(** [Copy returns a copy of s which can be modified independently.] *)
Definition Copy (h : store) (s : addr) : addr * store :=
  let r := fresh (dom h) in (r, <[ r := deref h s ]> h).

(** [Union returns the union of s and rhs as a new set.] *)
Definition Union (h : store) (s rhs : addr) : addr * store :=
  let '(r, h1) := Copy h s in (r, UnionWith h1 r rhs).

End Obj.

(* --------------------------------------------------------------------- *)
(** ** Properties of ColSet                                               *)
(* --------------------------------------------------------------------- *)

Lemma Contains_Add (s : ColSet) (c x : ColumnID) :
  Contains (Add s c) x = bool_decide (x = c) || Contains s x.
Proof.
  unfold Contains, Add; simpl.
  rewrite <- bool_decide_or. apply bool_decide_ext. set_solver.
Qed.

Lemma Contains_UnionWith (s rhs : ColSet) (x : ColumnID) :
  Contains (UnionWith s rhs) x = Contains s x || Contains rhs x.
Proof.
  unfold Contains, UnionWith; simpl.
  rewrite <- bool_decide_or. apply bool_decide_ext. set_solver.
Qed.

Lemma Contains_zero (x : ColumnID) : Contains zero x = false.
Proof. unfold Contains, zero; simpl. apply bool_decide_eq_false. set_solver. Qed.

Lemma Copy_fresh (h : Obj.store) (s : Obj.addr) :
  h !! (Obj.Copy h s).1 = None.
Proof.
  unfold Obj.Copy; simpl. apply not_elem_of_dom. apply is_fresh.
Qed.

(** C9. For all sets A and B and every column x, [A.Union(B)] contains x
    exactly when A contains x or B contains x, as values and as objects of
    the store; there the result is a newly allocated set, and the call
    leaves A, B and every other live set unchanged. *)
Theorem Union_Contains_unchanged (h : Obj.store) (A B : Obj.addr) (x : ColumnID) :
  is_Some (h !! A) -> is_Some (h !! B) ->
  (forall a b : ColSet,
     Contains (Union a b) x = Contains a x || Contains b x) /\
  let '(r, h') := Obj.Union h A B in
  Obj.Contains h' r x = Obj.Contains h A x || Obj.Contains h B x
  /\ h !! r = None
  /\ h' !! A = h !! A
  /\ h' !! B = h !! B
  /\ (forall a, is_Some (h !! a) -> h' !! a = h !! a).
Proof.
  intros HA HB.
  split; [intros a b; apply Contains_UnionWith|].
  unfold Obj.Union, Obj.Copy.
  set (r := fresh (dom h)).
  assert (Hfresh : h !! r = None) by (apply not_elem_of_dom, is_fresh).
  clearbody r.
  assert (Hold : forall a, is_Some (h !! a) ->
            Obj.UnionWith (<[r := Obj.deref h A]> h) r B !! a = h !! a).
  { intros a [v Hv]. unfold Obj.UnionWith.
    assert (r <> a) by congruence.
    rewrite !lookup_insert_ne by done. reflexivity. }
  repeat split; auto.
  unfold Obj.Contains, Obj.UnionWith, Obj.deref.
  rewrite !lookup_insert_eq. simpl.
  rewrite Contains_UnionWith. f_equal.
  destruct HB as [v Hv].
  assert (r <> B) by congruence.
  rewrite lookup_insert_ne by done. reflexivity.
Qed.

(** The sets {1,2} and {2,3} at addresses 1 and 2: their union is allocated
    at a third address and both operands keep their contents. *)
Lemma Union_Contains_unchanged_witness :
  let h : Obj.store :=
    <[ 1%positive := MakeColSet [1; 2]%Z ]> (<[ 2%positive := MakeColSet [2; 3]%Z ]> ∅) in
  (forall a b : ColSet,
     Contains (Union a b) 3%Z = Contains a 3%Z || Contains b 3%Z) /\
  let '(r, h') := Obj.Union h 1%positive 2%positive in
  Obj.Contains h' r 3%Z = Obj.Contains h 1%positive 3%Z || Obj.Contains h 2%positive 3%Z
  /\ h !! r = None
  /\ h' !! 1%positive = h !! 1%positive
  /\ h' !! 2%positive = h !! 2%positive
  /\ (forall a, is_Some (h !! a) -> h' !! a = h !! a).
Proof.
  intros h.
  apply (Union_Contains_unchanged h 1%positive 2%positive 3%Z).
  - exists (MakeColSet [1; 2]%Z). reflexivity.
  - exists (MakeColSet [2; 3]%Z). reflexivity.
Defined.

(* --------------------------------------------------------------------- *)
(** ** MakeColSet                                                          *)
(* --------------------------------------------------------------------- *)

(** The loop of [MakeColSet]: [res.Add(v)] for each value, from the zero
    value. *)
Definition addAll (vals : list ColumnID) (res : ColSet) : ColSet :=
  fold_left Add vals res.

Lemma addAll_set (vals : list ColumnID) : forall res,
  set (addAll vals res) = list_to_set vals ∪ set res.
Proof.
  unfold addAll. induction vals as [|v vals IH]; intros res; simpl.
  - set_solver.
  - rewrite IH. simpl. set_solver.
Qed.

Lemma ColSet_eq (s t : ColSet) : set s = set t -> s = t.
Proof. destruct s, t; simpl; intros ->; reflexivity. Qed.

(** X1. [MakeColSet] is its loop of [Add] from the zero value; the
    set it returns contains a column exactly when the column is among the
    values, so neither the order of the values nor a repetition matters;
    it has at most as many columns as there are values, exactly as many
    when the values are distinct, and is empty for no values only. *)
Theorem MakeColSet_values (vals : list ColumnID) :
  MakeColSet vals = addAll vals zero /\
  (forall col, Contains (MakeColSet vals) col = true <-> col ∈ vals) /\
  (forall vals', vals ≡ₚ vals' -> MakeColSet vals' = MakeColSet vals) /\
  (forall col, col ∈ vals -> MakeColSet (col :: vals) = MakeColSet vals) /\
  Len (MakeColSet vals) <= length vals /\
  (NoDup vals -> Len (MakeColSet vals) = length vals) /\
  (Empty (MakeColSet vals) = true <-> vals = []).
Proof.
  split; [|split; [|split; [|split; [|split; [|split]]]]].
  - apply ColSet_eq. rewrite addAll_set. unfold MakeColSet, zero. simpl. set_solver.
  - intros col. unfold Contains, MakeColSet. simpl.
    rewrite bool_decide_eq_true. apply elem_of_list_to_set.
  - intros vals' Hp. apply ColSet_eq. unfold MakeColSet. simpl.
    apply set_eq. intros x. rewrite !elem_of_list_to_set, Hp. reflexivity.
  - intros col Hin. apply ColSet_eq. unfold MakeColSet. simpl.
    apply set_eq. intros x. rewrite elem_of_union, elem_of_singleton,
      !elem_of_list_to_set. split; [intros [->|H]; assumption | auto].
  - unfold Len, MakeColSet. cbn [set].
    induction vals as [|v vals IH].
    + change (size (∅ : gset Z) <= 0). rewrite size_empty. lia.
    + change (size ({[v]} ∪ list_to_set vals : gset Z) <= S (length vals)).
      rewrite size_union_alt, size_singleton.
      assert (size (list_to_set vals ∖ ({[v]} : gset Z))
              <= size (list_to_set vals : gset Z))
        by (apply subseteq_size; set_solver).
      lia.
  - intros Hnd. unfold Len, MakeColSet. simpl. apply size_list_to_set, Hnd.
  - unfold Empty, MakeColSet. simpl. rewrite bool_decide_eq_true.
    destruct vals as [|v vals]; simpl; [tauto|].
    split; [|discriminate]. intros He. exfalso.
    assert (Hv : v ∈ ({[v]} ∪ list_to_set vals : gset Z)) by set_solver.
    rewrite He in Hv. set_solver.
Qed.

End opt.

(* ===================================================================== *)
(** * Panics                                                              *)
(* ===================================================================== *)

(** A Go function either returns or panics with an error; the panic unwinds
    through every caller in these files (none of them recovers). *)
Inductive result (A : Type) : Type :=
| Ok (a : A)
| Panic (msg : string).
Arguments Ok {A} a.
Arguments Panic {A} msg.

#[global] Instance result_ret : MRet result := fun A a => Ok a.
#[global] Instance result_bind : MBind result := fun A B k r =>
  match r with
  | Ok a => k a
  | Panic msg => Panic msg
  end.

Definition is_Ok {A : Type} (r : result A) : bool :=
  match r with Ok _ => true | Panic _ => false end.

(* ===================================================================== *)
(** * pkg/sql/opt/memo: the expression trees the builder and the rules see *)
(* ===================================================================== *)
Module memo.
Import opt.

(** Operators of the scalar expressions other than the leaves below
    (opt/operator.og.go is generated and not among the sources; only the
    operators named in these files are listed, every other one is
    [OtherOp]). *)
Inductive Operator : Type :=
| AndOp | OrOp | NotOp
| EqOp | NeOp | LeOp | LtOp | GeOp | GtOp
| IsOp | IsNotOp | InOp | NotInOp
| PlusOp | MinusOp | MultOp
| TupleOp | FunctionOp | SubqueryOp
| AggDistinctOp | AggFilterOp
| OtherOp (n : nat).

#[global] Instance Operator_eq_dec : EqDecision Operator.
Proof. solve_decision. Defined.

#[local] Unset Elimination Schemes.
(** [opt.Expr]: a node and its children.  [VariableExpr] refers to a column;
    [ConstExpr], [TrueExpr], [FalseExpr] and [NullExpr] are the constant
    value operators. *)
Inductive Expr : Type :=
| VariableExpr (Col : ColumnID)
| ConstExpr (Value : Z)
| TrueExpr
| FalseExpr
| NullExpr
| OpExpr (op : Operator) (children : list Expr).
#[local] Set Elimination Schemes.

(** Induction over expressions that reaches the children of a node. *)
Section Expr_ind.
Variable P : Expr -> Prop.
Hypothesis HV : forall c, P (VariableExpr c).
Hypothesis HC : forall v, P (ConstExpr v).
Hypothesis HT : P TrueExpr.
Hypothesis HF : P FalseExpr.
Hypothesis HN : P NullExpr.
Hypothesis HO : forall op cs, Forall P cs -> P (OpExpr op cs).

Fixpoint Expr_ind' (e : Expr) : P e :=
  match e with
  | VariableExpr c => HV c
  | ConstExpr v => HC v
  | TrueExpr => HT
  | FalseExpr => HF
  | NullExpr => HN
  | OpExpr op cs =>
      HO op cs
        ((fix all (l : list Expr) : Forall P l :=
            match l with
            | [] => @List.Forall_nil Expr P
            | c :: l' => @List.Forall_cons Expr P c l' (Expr_ind' c) (all l')
            end) cs)
  end.
End Expr_ind.

#[global] Instance Expr_eq_dec : EqDecision Expr.
Proof.
  refine (fix go (x y : Expr) {struct x} : Decision (x = y) :=
    match x, y with
    | VariableExpr c, VariableExpr c' => cast_if (decide (c = c'))
    | ConstExpr v, ConstExpr v' => cast_if (decide (v = v'))
    | TrueExpr, TrueExpr => left _
    | FalseExpr, FalseExpr => left _
    | NullExpr, NullExpr => left _
    | OpExpr op cs, OpExpr op' cs' =>
        cast_if_and (decide (op = op'))
          ((fix gos (l l' : list Expr) {struct l} : Decision (l = l') :=
              match l, l' with
              | [], [] => left _
              | a :: l1, b :: l1' => cast_if_and (go a b) (gos l1 l1')
              | _, _ => right _
              end) cs cs')
    | _, _ => right _
    end); abstract congruence.
Defined.

(** [memo.AggregationsItem{Agg, ColPrivate{Col}}] *)
Record AggregationsItem := { Agg : Expr; AggCol : ColumnID }.

(** [memo.ProjectionsItem{Element, ColPrivate{Col}}] *)
Record ProjectionsItem := { Element : Expr; Col : ColumnID }.

(** [memo.FiltersItem{Condition}] *)
Record FiltersItem := { Condition : Expr }.

(** [opt.Ordering] and [physical.OrderingChoice] (props/physical, not among
    the sources): an ordering with a set of optional columns. *)
Definition Ordering := list Z.
Record OrderingChoice := { Columns : Ordering; Optional : ColSet }.

(** [memo.GroupingPrivate{GroupingCols, Ordering}] *)
Record GroupingPrivate := { GroupingCols : ColSet; GOrdering : OrderingChoice }.

(** The relational expressions these files build or inspect.  The factory's
    [Construct...] methods (norm/factory.og.go, generated, not among the
    sources) are represented by the node they are asked to construct. *)
Inductive RelExpr : Type :=
| ProjectExpr (Input : RelExpr) (Projections : list ProjectionsItem) (Passthrough : ColSet)
| ValuesExpr (Rows : list (list Expr)) (Cols : list ColumnID)
| SelectExpr (Input : RelExpr) (Filters : list FiltersItem)
| GroupByExpr (Input : RelExpr) (Aggregations : list AggregationsItem) (private : GroupingPrivate)
| ScalarGroupByExpr (Input : RelExpr) (Aggregations : list AggregationsItem) (private : GroupingPrivate)
| OtherRelExpr (n : nat).

End memo.

(* ===================================================================== *)
(** * pkg/sql/opt/optbuilder/groupby.go                                   *)
(* ===================================================================== *)
Module optbuilder.
Import opt memo.

(** [scopeColumn] (optbuilder/scope_column.go, not among the sources): the
    fields groupby.go reads.  [scalar = None] is the nil scalar of a
    pass-through column. *)
Record scopeColumn := { name : string; id : ColumnID; scalar : option Expr }.

#[global] Instance scopeColumn_eq_dec : EqDecision scopeColumn.
Proof. solve_decision. Defined.

(** [private.Ordering.FromOrderingWithOptCols(ordering, groupingColSet)]
    (props/physical, not among the sources): the ordering with the grouping
    columns as optional columns. *)
Definition FromOrderingWithOptCols (ordering : Ordering) (optCols : ColSet)
  : OrderingChoice :=
  {| Columns := ordering; Optional := optCols |}.

(** The loop of [constructGroupBy]: [aggs] collects one item per column id
    that [colSet] has not seen yet; a nil scalar there is an assertion
    failure. *)
Fixpoint dedupAggCols (aggCols : list scopeColumn)
    (aggs : list AggregationsItem) (colSet : ColSet)
  : result (list AggregationsItem) :=
  match aggCols with
  | [] => Ok aggs
  | c :: rest =>
      if negb (Contains colSet (id c)) then
        match scalar c with
        | None => Panic "variable as aggregation"
        | Some sc =>
            dedupAggCols rest (aggs ++ [{| Agg := sc; AggCol := id c |}])
                         (Add colSet (id c))
        end
      else dedupAggCols rest aggs colSet
  end.

(** [func (b *Builder) constructGroupBy(input, groupingColSet, aggCols,
    ordering) memo.RelExpr] *)
Definition constructGroupBy (input : RelExpr) (groupingColSet : ColSet)
    (aggCols : list scopeColumn) (ordering : Ordering) : result RelExpr :=
  aggs ← dedupAggCols aggCols [] zero;
  let private :=
    {| GroupingCols := groupingColSet;
       GOrdering := FromOrderingWithOptCols ordering groupingColSet |} in
  if Empty groupingColSet then
    Ok (ScalarGroupByExpr input aggs private)
  else
    Ok (GroupByExpr input aggs private).

(** Modelled from the spec: what the two grouping operators emit, which the
    execution engine (not among the sources) implements: "the scalar variant
    always emits exactly one output row, even with zero input rows"; the
    ordinary variant emits one row per distinct grouping key of its input,
    so no row when the input has none.  [keys] are the grouping keys of the
    input rows, one per row. *)
Definition groupingOutputRows (e : RelExpr) (keys : list (list Z)) : option nat :=
  match e with
  | ScalarGroupByExpr _ _ _ => Some 1
  | GroupByExpr _ _ _ => Some (length (remove_dups keys))
  | _ => None
  end.

(** No column whose id is first seen at that position has a nil scalar: the
    condition under which the loop of [constructGroupBy] does not panic. *)
Fixpoint aggColsLegal (aggCols : list scopeColumn) (colSet : ColSet) : bool :=
  match aggCols with
  | [] => true
  | c :: rest =>
      if negb (Contains colSet (id c)) then
        match scalar c with
        | None => false
        | Some _ => aggColsLegal rest (Add colSet (id c))
        end
      else aggColsLegal rest colSet
  end.

Lemma dedupAggCols_Ok (aggCols : list scopeColumn) :
  forall aggs colSet,
    aggColsLegal aggCols colSet = true ->
    exists aggs', dedupAggCols aggCols aggs colSet = Ok aggs'.
Proof.
  induction aggCols as [|c rest IH]; intros aggs colSet H; simpl in *.
  - eauto.
  - destruct (negb (Contains colSet (id c))); [| eauto].
    destruct (scalar c); [eauto | discriminate].
Qed.

Lemma dedupAggCols_Panic (aggCols : list scopeColumn) :
  forall aggs colSet,
    aggColsLegal aggCols colSet = false ->
    dedupAggCols aggCols aggs colSet = Panic "variable as aggregation".
Proof.
  induction aggCols as [|c rest IH]; intros aggs colSet H; simpl in *.
  - discriminate.
  - destruct (negb (Contains colSet (id c))); [| eauto].
    destruct (scalar c); [eauto | reflexivity].
Qed.

(** C1. Every call of [constructGroupBy] either fails the "variable as
    aggregation" assertion (exactly when a column id first seen in aggCols
    has no scalar) or returns a grouping operator over the given input and
    grouping columns, and that operator is the scalar variant
    (ConstructScalarGroupBy) when the grouping column set is empty and the
    ordinary variant (ConstructGroupBy) when it is not; the operator built
    for an empty grouping set emits exactly one row on an input of zero
    rows. *)
Theorem constructGroupBy_variant (input : RelExpr) (groupingColSet : ColSet)
    (aggCols : list scopeColumn) (ordering : Ordering) :
  (aggColsLegal aggCols zero = false /\
   constructGroupBy input groupingColSet aggCols ordering
     = Panic "variable as aggregation")
  \/
  (aggColsLegal aggCols zero = true /\
   exists aggs private,
     GroupingCols private = groupingColSet /\
     ((Empty groupingColSet = true /\
       constructGroupBy input groupingColSet aggCols ordering
         = Ok (ScalarGroupByExpr input aggs private) /\
       groupingOutputRows (ScalarGroupByExpr input aggs private) [] = Some 1)
      \/
      (Empty groupingColSet = false /\
       constructGroupBy input groupingColSet aggCols ordering
         = Ok (GroupByExpr input aggs private)))).
Proof.
  unfold constructGroupBy.
  destruct (aggColsLegal aggCols zero) eqn:Hlegal.
  - right. split; [reflexivity|].
    destruct (dedupAggCols_Ok aggCols [] zero Hlegal) as [aggs Haggs].
    rewrite Haggs. simpl.
    exists aggs, {| GroupingCols := groupingColSet;
                    GOrdering := FromOrderingWithOptCols ordering groupingColSet |}.
    split; [reflexivity|].
    destruct (Empty groupingColSet); [left | right]; repeat split; reflexivity.
  - left. split; [reflexivity|].
    rewrite (dedupAggCols_Panic aggCols [] zero Hlegal). reflexivity.
Qed.

(* --------------------------------------------------------------------- *)
(** ** buildGroupingList / buildGrouping                                   *)
(* --------------------------------------------------------------------- *)
Section Grouping.

(** [tree.Expr], [tree.TypedExpr] and the state of the [Builder] (semantic
    context, factory and metadata): pkg/sql/sem/tree and the rest of
    optbuilder are not among the sources, so the functions of theirs that
    [buildGrouping] calls are parameters of the model. *)
Context {TreeExpr TypedExpr BState : Type}.

(** [tree.SelectExpr{Expr, As}] *)
Record SelectExpr := { SelExpr : TreeExpr; As : string }.

(** [tree.StripParens] *)
Variable StripParens : TreeExpr -> TreeExpr.
(** [colIndex(numOriginalCols, expr, context)]: the zero-based position the
    ordinal refers to, -1 when [expr] is no ordinal; panics on an ordinal
    out of range. *)
Variable colIndex : nat -> TreeExpr -> string -> result Z.
(** [b.expandStarAndResolveType(expr, inScope)]: name resolution and typing
    against the columns visible in [inScope]; panics on a user error. *)
Variable expandStarAndResolveType :
  TreeExpr -> list scopeColumn -> result (list TypedExpr).
(** [flattenTuples] *)
Variable flattenTuples : list TypedExpr -> list TypedExpr.
(** [symbolicExprStr] *)
Variable symbolicExprStr : TypedExpr -> string.
(** The column record [b.addColumn(scope, alias, expr)] appends. *)
Variable newColumn : string -> TypedExpr -> scopeColumn.
(** [b.buildScalar(e, inScope, outScope, col, nil)]: builds [e] into the
    column [col] that was just added to [outScope]; may panic. *)
Variable buildScalar :
  TypedExpr -> list scopeColumn -> scopeColumn -> BState ->
  result (scopeColumn * BState).

(** What [buildGrouping] reads and writes: the builder, [inScope.context],
    [inScope.groupby.groupStrs] and [outScope.cols].  A [*scopeColumn] of
    [groupStrs] points into [outScope.cols]; it is kept as the position of
    the column there. *)
Record groupingState := {
  bst : BState;
  context : string;
  groupStrs : gmap string nat;
  outCols : list scopeColumn
}.

(** Lines 417-439 of [buildGrouping]: the alias and the typed expressions a
    GROUP BY item stands for. *)
Definition groupingExprs (groupBy : TreeExpr) (selects : list SelectExpr)
    (inCols : list scopeColumn) : result (string * list TypedExpr) :=
  let groupBy := StripParens groupBy in
  col ← colIndex (length selects) groupBy "GROUP BY";
  '(groupBy, alias) ←
     (if negb (col =? -1)%Z then
        match selects !! Z.to_nat col with
        | Some sel => Ok (SelExpr sel, As sel)
        | None => Panic "index out of range"
        end
      else Ok (groupBy, ""));
  exprs ← expandStarAndResolveType groupBy inCols;
  Ok (alias, flattenTuples exprs).

(** The loop of [buildGrouping] (lines 442-456). *)
Fixpoint buildGroupingCols (alias : string) (exprs : list TypedExpr)
    (inCols : list scopeColumn) (st : groupingState) : result groupingState :=
  match exprs with
  | [] => Ok st
  | e :: rest =>
      let exprStr := symbolicExprStr e in
      match groupStrs st !! exprStr with
      | Some _ => buildGroupingCols alias rest inCols st
      | None =>
          '(col, b') ← buildScalar e inCols (newColumn alias e) (bst st);
          buildGroupingCols alias rest inCols
            {| bst := b';
               context := context st;
               groupStrs := <[ exprStr := length (outCols st) ]> (groupStrs st);
               outCols := outCols st ++ [col] |}
      end
  end.

(** [func (b *Builder) buildGrouping(groupBy, selects, inScope, outScope)] *)
Definition buildGrouping (groupBy : TreeExpr) (selects : list SelectExpr)
    (inCols : list scopeColumn) (st : groupingState) : result groupingState :=
  let groupBy := StripParens groupBy in
  col ← colIndex (length selects) groupBy "GROUP BY";
  '(groupBy, alias) ←
     (if negb (col =? -1)%Z then
        match selects !! Z.to_nat col with
        | Some sel => Ok (SelExpr sel, As sel)
        | None => Panic "index out of range"
        end
      else Ok (groupBy, ""));
  let st := {| bst := bst st; context := "GROUP BY";
               groupStrs := groupStrs st; outCols := outCols st |} in
  exprs ← expandStarAndResolveType groupBy inCols;
  let exprs := flattenTuples exprs in
  buildGroupingCols alias exprs inCols st.

Fixpoint buildGroupings (groupBy : list TreeExpr) (selects : list SelectExpr)
    (inCols : list scopeColumn) (st : groupingState) : result groupingState :=
  match groupBy with
  | [] => Ok st
  | e :: rest =>
      st' ← buildGrouping e selects inCols st;
      buildGroupings rest selects inCols st'
  end.

(** [func (b *Builder) buildGroupingList(groupBy, selects, inScope,
    outScope)]: [groupStrs] starts out empty. *)
Definition buildGroupingList (groupBy : list TreeExpr) (selects : list SelectExpr)
    (inCols : list scopeColumn) (st : groupingState) : result groupingState :=
  buildGroupings groupBy selects inCols
    {| bst := bst st; context := context st;
       groupStrs := ∅; outCols := outCols st |}.

(** [groupingsLen := len(fromScope.groupby.groupStrs)] in
    [buildGroupingColumns]: the number of grouping columns. *)
Definition groupingsLen (st : groupingState) : nat := size (groupStrs st).

(** *** Deduplication of GROUP BY expressions *)

Definition withContext (c : string) (st : groupingState) : groupingState :=
  {| bst := bst st; context := c; groupStrs := groupStrs st; outCols := outCols st |}.


Lemma buildGrouping_split groupBy selects inCols st :
  buildGrouping groupBy selects inCols st =
  ('(alias, exprs) ← groupingExprs groupBy selects inCols;
   buildGroupingCols alias exprs inCols (withContext "GROUP BY" st)).
Proof.
  unfold buildGrouping, groupingExprs, withContext.
  destruct (colIndex _ _ _) as [col|msg]; simpl; [|reflexivity].
  destruct (negb (col =? -1)%Z); simpl.
  - destruct (selects !! Z.to_nat col) as [sel|]; simpl; [|reflexivity].
    destruct (expandStarAndResolveType _ _); reflexivity.
  - destruct (expandStarAndResolveType _ _); reflexivity.
Qed.









(** *** The grouping columns and their strings *)

(** [groupStrs] and the columns appended to [outScope.cols] since the
    columns [base] correspond one to one: every string points at an
    appended column, different strings at different columns, and every
    appended column has its string. *)
Definition groupingColumns (base : list scopeColumn) (st : groupingState) : Prop :=
  exists new,
    outCols st = base ++ new /\
    length new = size (groupStrs st) /\
    (forall s i, groupStrs st !! s = Some i ->
                 length base <= i < length (outCols st)) /\
    (forall s1 s2 i, groupStrs st !! s1 = Some i -> groupStrs st !! s2 = Some i ->
                     s1 = s2) /\
    (forall i, length base <= i < length (outCols st) ->
               exists s, groupStrs st !! s = Some i).

Lemma buildGroupingCols_columns base alias exprs inCols :
  forall st st',
    groupingColumns base st ->
    buildGroupingCols alias exprs inCols st = Ok st' ->
    groupingColumns base st'.
Proof.
  induction exprs as [|e rest IH]; intros st st' Hinv H; simpl in H.
  - injection H as <-. exact Hinv.
  - destruct (groupStrs st !! symbolicExprStr e) as [i|] eqn:Hi; [eauto|].
    destruct (buildScalar _ _ _ _) as [[col b']|msg]; simpl in H; [|discriminate].
    eapply IH; [|exact H]. clear H IH.
    destruct Hinv as (new & Hcols & Hlen & Hrange & Hinj & Hsurj).
    exists (new ++ [col]). simpl.
    split; [rewrite Hcols, <- app_assoc; reflexivity|].
    split; [rewrite length_app, map_size_insert_None by exact Hi; simpl; lia|].
    rewrite length_app. simpl.
    split; [|split].
    + intros s i. destruct (decide (symbolicExprStr e = s)) as [<-|Hne].
      * rewrite lookup_insert_eq. intros [= <-]. rewrite Hcols, length_app. lia.
      * rewrite lookup_insert_ne by exact Hne. intros Hs.
        specialize (Hrange s i Hs). lia.
    + intros s1 s2 i.
      destruct (decide (symbolicExprStr e = s1)) as [<-|Hne1];
        destruct (decide (symbolicExprStr e = s2)) as [<-|Hne2];
        rewrite ?lookup_insert_eq, ?lookup_insert_ne by assumption.
      * reflexivity.
      * intros [= <-] Hs. specialize (Hrange _ _ Hs). lia.
      * intros Hs [= <-]. specialize (Hrange _ _ Hs). lia.
      * apply Hinj.
    + intros i Hi'.
      destruct (decide (i = length (outCols st))) as [->|Hne].
      * exists (symbolicExprStr e). rewrite lookup_insert_eq. reflexivity.
      * destruct (Hsurj i ltac:(lia)) as [s Hs]. exists s.
        rewrite lookup_insert_ne; [exact Hs|]. intros <-. congruence.
Qed.

Lemma buildGrouping_columns base groupBy selects inCols st st' :
  groupingColumns base st ->
  buildGrouping groupBy selects inCols st = Ok st' ->
  groupingColumns base st'.
Proof.
  intros Hinv. rewrite buildGrouping_split.
  destruct (groupingExprs _ _ _) as [[alias exprs]|msg]; simpl; [|discriminate].
  apply buildGroupingCols_columns. exact Hinv.
Qed.

Lemma buildGroupings_columns base groupBy selects inCols :
  forall st st',
    groupingColumns base st ->
    buildGroupings groupBy selects inCols st = Ok st' ->
    groupingColumns base st'.
Proof.
  induction groupBy as [|g rest IH]; intros st st' Hinv H; simpl in H.
  - injection H as <-. exact Hinv.
  - destruct (buildGrouping g selects inCols st) as [st1|msg] eqn:H1;
      simpl in H; [|discriminate].
    eapply IH; [|exact H]. eapply buildGrouping_columns; eassumption.
Qed.

(** X2. When [buildGroupingList] returns, the columns it has appended
    to [outScope.cols] (the former columns are kept, in front) are the
    grouping columns: there are [len(groupStrs)] of them, every string of
    [groupStrs] points at one of them, no two strings at the same one, and
    each of them is pointed at. *)
Theorem buildGroupingList_columns (groupBy : list TreeExpr)
    (selects : list SelectExpr) (inCols : list scopeColumn)
    (st st' : groupingState) :
  buildGroupingList groupBy selects inCols st = Ok st' ->
  exists new,
    outCols st' = outCols st ++ new /\
    length new = groupingsLen st' /\
    (forall s i, groupStrs st' !! s = Some i ->
                 length (outCols st) <= i < length (outCols st')) /\
    (forall s1 s2 i, groupStrs st' !! s1 = Some i -> groupStrs st' !! s2 = Some i ->
                     s1 = s2) /\
    (forall i, length (outCols st) <= i < length (outCols st') ->
               exists s, groupStrs st' !! s = Some i).
Proof.
  unfold buildGroupingList. intros H.
  apply (buildGroupings_columns (outCols st)) in H; [exact H|].
  exists []. simpl. rewrite app_nil_r, map_size_empty.
  split; [reflexivity|]. split; [reflexivity|].
  split; [intros s i Hs; rewrite lookup_empty in Hs; discriminate|].
  split; [intros s1 s2 i Hs; rewrite lookup_empty in Hs; discriminate|].
  intros i Hi. lia.
Qed.

End Grouping.


(* --------------------------------------------------------------------- *)
(** ** buildAggArg / buildAggregateFunction                                *)
(* --------------------------------------------------------------------- *)

(** [memo.FunctionPrivate]: the fields that identify the function. *)
Record FunctionPrivate := { Name : string; Overload : nat }.

#[global] Instance FunctionPrivate_eq_dec : EqDecision FunctionPrivate.
Proof. solve_decision. Defined.

(** A [*scope] is the address of a scope in the store; a [*scopeColumn] is
    a scope and a position in its [cols]. *)
Abbreviation scopePtr := positive (only parsing).
Abbreviation colPtr := (positive * nat)%type (only parsing).

Section Aggregates.

Context {TypedExpr BState : Type}.

(** [tree.FuncExpr]: the fields [buildAggregateFunction] reads. *)
Record FuncExpr := {
  isDistinct : bool;              (* f.Type == tree.DistinctFuncType *)
  Exprs : list TypedExpr;
  Filter : option TypedExpr
}.

(** [type aggregateInfo struct] *)
Record aggregateInfo := {
  fexpr : FuncExpr;
  def : FunctionPrivate;
  distinct : bool;
  args : list Expr;
  filter : option Expr;
  col : option colPtr;
  colRefs : ColSet
}.

(** A scope: its columns and [groupby.aggs]. *)
Record scope := { cols : list scopeColumn; aggs : list aggregateInfo }.

Abbreviation scopes := (gmap positive scope) (only parsing).

Definition emptyScope : scope := {| cols := []; aggs := [] |}.
Definition at_ (h : scopes) (p : scopePtr) : scope := default emptyScope (h !! p).
Definition setCols (h : scopes) (p : scopePtr) (cs : list scopeColumn) : scopes :=
  <[ p := {| cols := cs; aggs := aggs (at_ h p) |} ]> h.
Definition setAggs (h : scopes) (p : scopePtr) (l : list aggregateInfo) : scopes :=
  <[ p := {| cols := cols (at_ h p); aggs := l |} ]> h.

(** The functions of scope.go, scalar.go and the metadata that the code
    calls (not among the sources). *)
(** [inScope.startAggFunc()]: the temporary scope; panics on a nested
    aggregate. *)
Variable startAggFunc : scopePtr -> scopes -> result scopePtr.
(** [inScope.endAggFunc(colRefs)]: the scopes the aggregate belongs to. *)
Variable endAggFunc : scopePtr -> ColSet -> scopes -> result (scopePtr * scopePtr).
(** The column record [b.addColumn(scope, alias, expr)] appends. *)
Variable newColumn : string -> TypedExpr -> scopeColumn.
(** [b.buildScalar(e, inScope, tempScope, col, &info.colRefs)]: builds [e]
    into [col] and adds the columns it refers to to [colRefs]. *)
Variable buildScalar :
  TypedExpr -> scopePtr -> scopeColumn -> ColSet -> BState ->
  result (scopeColumn * ColSet * BState).
(** [b.factory.Metadata().AddColumn(alias, typ)]: a new column id. *)
Variable AddColumn : string -> BState -> ColumnID * BState.

(** [func (b *Builder) buildAggArg(e, info, tempScope, inScope)
    opt.ScalarExpr], with [info.colRefs] passed through. *)
Definition buildAggArg (e : TypedExpr) (refs : ColSet) (tempScope inScope : scopePtr)
    (b : BState) (h : scopes) : result (Expr * ColSet * BState * scopes) :=
  let before := cols (at_ h tempScope) in
  '(c, refs', b') ← buildScalar e inScope (newColumn "" e) refs b;
  let h' := setCols h tempScope (before ++ [c]) in
  match scalar c with
  | Some sc => Ok (sc, refs', b', h')
  | None => Ok (VariableExpr (id c), refs', b', h')
  end.

(** The loop over [f.Exprs]. *)
Fixpoint buildAggArgs (es : list TypedExpr) (refs : ColSet)
    (tempScope inScope : scopePtr) (b : BState) (h : scopes)
  : result (list Expr * ColSet * BState * scopes) :=
  match es with
  | [] => Ok ([], refs, b, h)
  | e :: rest =>
      '(a, refs1, b1, h1) ← buildAggArg e refs tempScope inScope b h;
      '(l, refs2, b2, h2) ← buildAggArgs rest refs1 tempScope inScope b1 h1;
      Ok (a :: l, refs2, b2, h2)
  end.

(** Modelled from the spec: [aggOutScope.findAggregate(info)] (scope.go, not
    among the sources): "Deduplicate against existing AggregateCallInfo
    entries with identical (definition, args, distinct, filter); if found,
    reuse its output column". *)
Definition sameAggregate (a info : aggregateInfo) : bool :=
  bool_decide (def a = def info) && bool_decide (args a = args info) &&
  eqb (distinct a) (distinct info) && bool_decide (filter a = filter info).

Definition findAggregate (s : scope) (info : aggregateInfo) : option colPtr :=
  match List.find (fun a => sameAggregate a info) (aggs s) with
  | Some a => col a
  | None => None
  end.

(** Modelled from the spec: [b.synthesizeColumn(scope, alias, typ, expr,
    nil)] (scope.go, not among the sources): "a new output column is
    synthesized": a column with a new id and no scalar, appended to the
    scope. *)
Definition synthesizeColumn (p : scopePtr) (alias : string) (b : BState) (h : scopes)
  : colPtr * BState * scopes :=
  let '(colID, b') := AddColumn alias b in
  let cs := cols (at_ h p) in
  ((p, length cs), b',
   setCols h p (cs ++ [{| name := alias; id := colID; scalar := None |}])).

Definition withCol (info : aggregateInfo) (c : option colPtr) : aggregateInfo :=
  {| fexpr := fexpr info; def := def info; distinct := distinct info;
     args := args info; filter := filter info; col := c;
     colRefs := colRefs info |}.

(** What lines 491-520 of [buildAggregateFunction] hand to the rest. *)
Record built := {
  tempScope : scopePtr;
  tempScopeColsBefore : nat;
  info : aggregateInfo;
  aggInScope : scopePtr;
  aggOutScope : scopePtr
}.

(** Lines 491-520: the arguments and the filter are built into the
    temporary scope, then the aggregation scopes are found. *)
Definition buildAggregateArgs (f : FuncExpr) (d : FunctionPrivate)
    (inScope : scopePtr) (b : BState) (h : scopes)
  : result (built * BState * scopes) :=
  tmp ← startAggFunc inScope h;
  let before := length (cols (at_ h tmp)) in
  '(as_, refs, b1, h1) ← buildAggArgs (Exprs f) zero tmp inScope b h;
  '(flt, refs', b2, h2) ←
     match Filter f with
     | Some fe =>
         '(x, r, b', h') ← buildAggArg fe refs tmp inScope b1 h1;
         Ok (Some x, r, b', h')
     | None => Ok (None, refs, b1, h1)
     end;
  '(aggIn, aggOut) ← endAggFunc inScope refs' h2;
  Ok ({| tempScope := tmp; tempScopeColsBefore := before;
         info := {| fexpr := f; def := d; distinct := isDistinct f;
                    args := as_; filter := flt; col := None; colRefs := refs' |};
         aggInScope := aggIn; aggOutScope := aggOut |}, b2, h2).

(** Lines 522-546: reuse the aggregate or add it. *)
Definition finishAggregate (x : built) (b : BState) (h : scopes)
  : aggregateInfo * BState * scopes :=
  match findAggregate (at_ h (aggOutScope x)) (info x) with
  | None =>
      let '(c, b1, h1) := synthesizeColumn (aggOutScope x) (Name (def (info x))) b h in
      let h2 :=
        if negb (bool_decide (aggInScope x = tempScope x)) then
          let moved := drop (tempScopeColsBefore x) (cols (at_ h1 (tempScope x))) in
          let h' := setCols h1 (aggInScope x) (cols (at_ h1 (aggInScope x)) ++ moved) in
          setCols h' (tempScope x)
                  (take (tempScopeColsBefore x) (cols (at_ h' (tempScope x))))
        else h1 in
      let info' := withCol (info x) (Some c) in
      (info', b1, setAggs h2 (aggOutScope x) (aggs (at_ h2 (aggOutScope x)) ++ [info']))
  | Some c =>
      (withCol (info x) (Some c), b,
       setCols h (tempScope x)
               (take (tempScopeColsBefore x) (cols (at_ h (tempScope x)))))
  end.

(** [func (b *Builder) buildAggregateFunction(f, def, inScope)
    *aggregateInfo] *)
Definition buildAggregateFunction (f : FuncExpr) (d : FunctionPrivate)
    (inScope : scopePtr) (b : BState) (h : scopes)
  : result (aggregateInfo * BState * scopes) :=
  '(x, b1, h1) ← buildAggregateArgs f d inScope b h;
  Ok (finishAggregate x b1 h1).

(** *** Reuse of aggregates *)

(** The two calls have identical definition, arguments, distinct flag and
    filter. *)
Definition identical (a i : aggregateInfo) : Prop :=
  def a = def i /\ args a = args i /\ distinct a = distinct i /\ filter a = filter i.

Lemma sameAggregate_identical a i : sameAggregate a i = true <-> identical a i.
Proof.
  unfold sameAggregate, identical.
  rewrite !andb_true_iff, !bool_decide_eq_true, eqb_true_iff. tauto.
Qed.

Lemma at_setCols_eq h p cs :
  at_ (setCols h p cs) p = {| cols := cs; aggs := aggs (at_ h p) |}.
Proof. unfold at_, setCols. rewrite lookup_insert_eq. reflexivity. Qed.

Lemma at_setCols_ne h p q cs : p <> q -> at_ (setCols h p cs) q = at_ h q.
Proof. intros. unfold at_, setCols. rewrite lookup_insert_ne by done. reflexivity. Qed.

Lemma at_setAggs_eq h p l :
  at_ (setAggs h p l) p = {| cols := cols (at_ h p); aggs := l |}.
Proof. unfold at_, setAggs. rewrite lookup_insert_eq. reflexivity. Qed.

Lemma at_setAggs_ne h p q l : p <> q -> at_ (setAggs h p l) q = at_ h q.
Proof. intros. unfold at_, setAggs. rewrite lookup_insert_ne by done. reflexivity. Qed.

Lemma aggs_setCols h p q cs : aggs (at_ (setCols h p cs) q) = aggs (at_ h q).
Proof.
  destruct (decide (p = q)) as [->|Hne].
  - rewrite at_setCols_eq. reflexivity.
  - rewrite at_setCols_ne by done. reflexivity.
Qed.

(** Building an argument appends one column to the temporary scope and
    touches nothing else. *)
Lemma buildAggArg_scopes e refs tmp inScope b h a refs' b' h' :
  buildAggArg e refs tmp inScope b h = Ok (a, refs', b', h') ->
  (exists c, cols (at_ h' tmp) = cols (at_ h tmp) ++ [c]) /\
  (forall p, aggs (at_ h' p) = aggs (at_ h p)) /\
  (forall p, p <> tmp -> at_ h' p = at_ h p).
Proof.
  unfold buildAggArg.
  destruct (buildScalar _ _ _ _ _) as [[[c r1] b1]|msg]; simpl; [|discriminate].
  intros H.
  assert (Hh : h' = setCols h tmp (cols (at_ h tmp) ++ [c]))
    by (destruct (scalar c); injection H; auto).
  subst h'. split; [|split].
  - exists c. rewrite at_setCols_eq. reflexivity.
  - intros p. apply aggs_setCols.
  - intros p Hp. apply at_setCols_ne. congruence.
Qed.

Lemma buildAggArgs_scopes es :
  forall refs tmp inScope b h l refs' b' h',
    buildAggArgs es refs tmp inScope b h = Ok (l, refs', b', h') ->
    (exists cs, cols (at_ h' tmp) = cols (at_ h tmp) ++ cs) /\
    (forall p, aggs (at_ h' p) = aggs (at_ h p)) /\
    (forall p, p <> tmp -> at_ h' p = at_ h p).
Proof.
  induction es as [|e rest IH]; intros refs tmp inScope b h l refs' b' h' H;
    simpl in H.
  - injection H as <- <- <- <-. split; [exists []; rewrite app_nil_r|]; auto.
  - destruct (buildAggArg e refs tmp inScope b h) as [[[[a r1] b1] h1]|msg] eqn:H1;
      simpl in H; [|discriminate].
    destruct (buildAggArgs rest r1 tmp inScope b1 h1) as [[[[l2 r2] b2] h2]|msg] eqn:H2;
      simpl in H; [|discriminate].
    injection H as <- <- <- <-.
    destruct (buildAggArg_scopes _ _ _ _ _ _ _ _ _ _ H1) as ([c Hc] & Ha1 & Ho1).
    destruct (IH _ _ _ _ _ _ _ _ _ H2) as ([cs Hcs] & Ha2 & Ho2).
    split; [|split].
    + exists (c :: cs). rewrite Hcs, Hc, <- app_assoc. reflexivity.
    + intros p. rewrite Ha2, Ha1. reflexivity.
    + intros p Hp. rewrite Ho2, Ho1 by done. reflexivity.
Qed.

(** After lines 491-520 the temporary scope holds its former columns
    followed by the ones built for the arguments and the filter; nothing
    else has changed. *)
Lemma buildAggregateArgs_scopes f d inScope b h x b1 h1 :
  buildAggregateArgs f d inScope b h = Ok (x, b1, h1) ->
  tempScopeColsBefore x = length (cols (at_ h (tempScope x))) /\
  (exists cs, cols (at_ h1 (tempScope x)) = cols (at_ h (tempScope x)) ++ cs) /\
  (forall p, aggs (at_ h1 p) = aggs (at_ h p)) /\
  (forall p, p <> tempScope x -> at_ h1 p = at_ h p) /\
  def (info x) = d /\ distinct (info x) = isDistinct f.
Proof.
  unfold buildAggregateArgs.
  destruct (startAggFunc inScope h) as [tmp|msg]; simpl; [|discriminate].
  destruct (buildAggArgs (Exprs f) zero tmp inScope b h)
    as [[[[as_ r1] b2] h2]|msg] eqn:H1; simpl; [|discriminate].
  destruct (buildAggArgs_scopes _ _ _ _ _ _ _ _ _ _ H1) as ([cs Hcs] & Ha & Ho).
  destruct (Filter f) as [fe|]; simpl.
  - destruct (buildAggArg fe r1 tmp inScope b2 h2)
      as [[[[fx r2] b3] h3]|msg] eqn:H2; simpl; [|discriminate].
    destruct (buildAggArg_scopes _ _ _ _ _ _ _ _ _ _ H2) as ([c Hc] & Ha' & Ho').
    destruct (endAggFunc inScope r2 h3) as [[aggIn aggOut]|msg]; simpl; [|discriminate].
    intros H. injection H as <- <- <-. simpl.
    repeat split; auto.
    + exists (cs ++ [c]). rewrite Hc, Hcs, <- app_assoc. reflexivity.
    + intros p. rewrite Ha', Ha. reflexivity.
    + intros p Hp. rewrite Ho', Ho by done. reflexivity.
  - destruct (endAggFunc inScope r1 h2) as [[aggIn aggOut]|msg]; simpl; [|discriminate].
    intros H. injection H as <- <- <-. simpl.
    repeat split; eauto.
Qed.

Lemma find_Exists_identical (l : list aggregateInfo) i :
  Exists (fun a => identical a i) l ->
  exists a, List.find (fun a => sameAggregate a i) l = Some a /\
            a ∈ l /\ identical a i.
Proof.
  intros HE. destruct (List.find (fun a => sameAggregate a i) l) as [a|] eqn:Hf.
  - apply List.find_some in Hf as [Hin Hs]. exists a. split; [reflexivity|].
    split; [apply list_elem_of_In; exact Hin | apply sameAggregate_identical, Hs].
  - exfalso. apply Exists_exists in HE as (a & Hin & Hid).
    apply list_elem_of_In in Hin.
    pose proof (List.find_none _ _ Hf a Hin) as Hn. simpl in Hn.
    apply sameAggregate_identical in Hid. congruence.
Qed.

Lemma find_Forall_not_identical (l : list aggregateInfo) i :
  Forall (fun a => ~ identical a i) l ->
  List.find (fun a => sameAggregate a i) l = None.
Proof.
  induction 1 as [|a l Ha _ IH]; simpl; [reflexivity|].
  destruct (sameAggregate a i) eqn:Hs; [|exact IH].
  exfalso. apply Ha, sameAggregate_identical, Hs.
Qed.

Lemma finishAggregate_found x b h a c :
  List.find (fun a => sameAggregate a (info x)) (aggs (at_ h (aggOutScope x))) = Some a ->
  col a = Some c ->
  finishAggregate x b h =
  (withCol (info x) (Some c), b,
   setCols h (tempScope x) (take (tempScopeColsBefore x) (cols (at_ h (tempScope x))))).
Proof.
  intros Hf Hc. unfold finishAggregate, findAggregate. rewrite Hf, Hc. reflexivity.
Qed.

Lemma finishAggregate_new x b h :
  List.find (fun a => sameAggregate a (info x)) (aggs (at_ h (aggOutScope x))) = None ->
  exists i' b' h',
    finishAggregate x b h = (i', b', h') /\
    i' = withCol (info x) (Some (aggOutScope x, length (cols (at_ h (aggOutScope x))))) /\
    aggs (at_ h' (aggOutScope x)) = aggs (at_ h (aggOutScope x)) ++ [i'] /\
    (forall p, p <> aggOutScope x -> aggs (at_ h' p) = aggs (at_ h p)) /\
    (aggOutScope x <> tempScope x ->
     cols (at_ h' (aggOutScope x)) !! length (cols (at_ h (aggOutScope x))) =
       Some {| name := Name (def (info x));
               id := (AddColumn (Name (def (info x))) b).1;
               scalar := None |}).
Proof.
  intros Hf. unfold finishAggregate, findAggregate. rewrite Hf.
  unfold synthesizeColumn.
  destruct (AddColumn (Name (def (info x))) b) as [colID b1] eqn:Hadd. simpl.
  set (out := aggOutScope x). set (tmp := tempScope x). set (ain := aggInScope x).
  set (c0 := cols (at_ h out)).
  set (new := {| name := Name (def (info x)); id := colID; scalar := None |}).
  set (h1 := setCols h out (c0 ++ [new])).
  assert (H1 : cols (at_ h1 out) = c0 ++ [new])
    by (unfold h1; rewrite at_setCols_eq; reflexivity).
  assert (Ha1 : forall p, aggs (at_ h1 p) = aggs (at_ h p))
    by (intros p; unfold h1; apply aggs_setCols).
  destruct (bool_decide (ain = tmp)) eqn:Hat; simpl.
  - eexists _, _, _. split; [reflexivity|]. split; [reflexivity|].
    split; [|split].
    + rewrite at_setAggs_eq. simpl. rewrite Ha1. reflexivity.
    + intros p Hp. rewrite at_setAggs_ne by done. apply Ha1.
    + intros Hne. rewrite at_setAggs_eq. simpl. rewrite H1.
      rewrite lookup_app_r by lia. rewrite Nat.sub_diag. reflexivity.
  - set (h2 := setCols (setCols h1 ain _) tmp _).
    assert (Ha2 : forall p, aggs (at_ h2 p) = aggs (at_ h p))
      by (intros p; unfold h2; rewrite !aggs_setCols; apply Ha1).
    eexists _, _, _. split; [reflexivity|]. split; [reflexivity|].
    split; [|split].
    + rewrite at_setAggs_eq. simpl. rewrite Ha2. reflexivity.
    + intros p Hp. rewrite at_setAggs_ne by done. apply Ha2.
    + intros Hne. rewrite at_setAggs_eq. simpl.
      assert (Hgoal : exists rest, cols (at_ h2 out) = (c0 ++ [new]) ++ rest).
      { unfold h2. rewrite at_setCols_ne by (fold tmp out; congruence).
        destruct (decide (ain = out)) as [->|Hio].
        - rewrite at_setCols_eq. simpl. rewrite H1. eauto.
        - rewrite at_setCols_ne by done. exists []. rewrite app_nil_r. exact H1. }
      destruct Hgoal as [rest ->].
      rewrite <- app_assoc. rewrite lookup_app_r by lia.
      rewrite Nat.sub_diag. reflexivity.
Qed.

(** C3. Once the arguments (and the filter) of an aggregate call are built,
    [buildAggregateFunction] looks the call up among the aggregates of the
    grouping scope it belongs to.  If that scope already holds an entry with
    identical definition, arguments, distinct flag and filter, the entry's
    output column is reused, the columns added to the temporary scope are
    dropped again and no scope's aggregate list changes: every scope is as
    it was before the call.  Otherwise a new output column is synthesized
    in the grouping scope and the call is appended to its aggregate list. *)
Theorem buildAggregateFunction_dedup (f : FuncExpr) (d : FunctionPrivate)
    (inScope : scopePtr) (b : BState) (h : scopes) (x : built) (b1 : BState)
    (h1 : scopes) :
  buildAggregateArgs f d inScope b h = Ok (x, b1, h1) ->
  Forall (fun a => is_Some (col a)) (aggs (at_ h (aggOutScope x))) ->
  exists i' b' h',
    buildAggregateFunction f d inScope b h = Ok (i', b', h') /\
    identical i' (info x) /\
    (Exists (fun a => identical a (info x)) (aggs (at_ h (aggOutScope x))) ->
       (exists a, a ∈ aggs (at_ h (aggOutScope x)) /\ identical a i' /\
                  is_Some (col a) /\ col i' = col a) /\
       b' = b1 /\
       (forall p, at_ h' p = at_ h p)) /\
    (Forall (fun a => ~ identical a (info x)) (aggs (at_ h (aggOutScope x))) ->
       col i' = Some (aggOutScope x, length (cols (at_ h1 (aggOutScope x)))) /\
       aggs (at_ h' (aggOutScope x)) = aggs (at_ h (aggOutScope x)) ++ [i'] /\
       (forall p, p <> aggOutScope x -> aggs (at_ h' p) = aggs (at_ h p)) /\
       (aggOutScope x <> tempScope x ->
        cols (at_ h' (aggOutScope x)) !! length (cols (at_ h1 (aggOutScope x))) =
          Some {| name := Name d; id := (AddColumn (Name d) b1).1; scalar := None |})).
Proof.
  intros Hargs Hcols.
  destruct (buildAggregateArgs_scopes _ _ _ _ _ _ _ _ Hargs)
    as (Hbefore & [cs Hcs] & Haggs & Hother & Hdef & _).
  unfold buildAggregateFunction. rewrite Hargs. simpl.
  rewrite <- (Haggs (aggOutScope x)) in *.
  destruct (List.find (fun a => sameAggregate a (info x))
              (aggs (at_ h1 (aggOutScope x)))) as [a|] eqn:Hfind.
  - (* an identical aggregate is recorded *)
    pose proof Hfind as Hfind'.
    apply List.find_some in Hfind' as [Hin Hsame].
    apply list_elem_of_In in Hin. apply sameAggregate_identical in Hsame.
    destruct (proj1 (Forall_forall _ _) Hcols a Hin) as [c Hc].
    rewrite (finishAggregate_found x b1 h1 a c Hfind Hc).
    eexists _, _, _. split; [reflexivity|].
    split; [unfold identical; simpl; auto|]. split.
    + intros _. split; [|split; [reflexivity|]].
      * exists a. repeat split; try apply Hsame; eauto.
      * intros p. destruct (decide (p = tempScope x)) as [->|Hp].
        -- rewrite at_setCols_eq, Hcs, Hbefore, take_app_length, Haggs.
           destruct (at_ h (tempScope x)); reflexivity.
        -- rewrite at_setCols_ne by done. apply Hother, Hp.
    + intros Hnone. exfalso.
      apply (proj1 (Forall_forall _ _) Hnone a Hin). exact Hsame.
  - (* no identical aggregate *)
    destruct (finishAggregate_new x b1 h1 Hfind)
      as (i' & b' & h' & Hrun & Hi & Hnewaggs & Holdaggs & Hcol).
    rewrite Hrun. exists i', b', h'. split; [reflexivity|].
    split; [subst i'; unfold identical; simpl; auto|]. split.
    + intros HE. exfalso.
      destruct (find_Exists_identical _ _ HE) as (a & Hf & _). congruence.
    + intros _. split; [subst i'; reflexivity|].
      split; [exact Hnewaggs|]. split.
      * intros p Hp. rewrite (Holdaggs p Hp). apply Haggs.
      * intros Hne. rewrite (Hcol Hne), Hdef. reflexivity.
Qed.

(** *** The columns of the arguments *)

(** One column of the temporary scope per argument. *)
Lemma buildAggArgs_length es :
  forall refs tmp inScope b h l refs' b' h',
    buildAggArgs es refs tmp inScope b h = Ok (l, refs', b', h') ->
    length l = length es /\
    exists cs, cols (at_ h' tmp) = cols (at_ h tmp) ++ cs /\ length cs = length es.
Proof.
  induction es as [|e rest IH]; intros refs tmp inScope b h l refs' b' h' H;
    simpl in H.
  - injection H as <- <- <- <-. split; [reflexivity|].
    exists []. rewrite app_nil_r. auto.
  - destruct (buildAggArg e refs tmp inScope b h) as [[[[a r1] b1] h1]|msg] eqn:H1;
      simpl in H; [|discriminate].
    destruct (buildAggArgs rest r1 tmp inScope b1 h1) as [[[[l2 r2] b2] h2]|msg] eqn:H2;
      simpl in H; [|discriminate].
    injection H as <- <- <- <-.
    destruct (buildAggArg_scopes _ _ _ _ _ _ _ _ _ _ H1) as ([c Hc] & _ & _).
    destruct (IH _ _ _ _ _ _ _ _ _ H2) as (Hl & cs & Hcs & Hlen).
    split; [simpl; lia|].
    exists (c :: cs). rewrite Hcs, Hc, <- app_assoc. simpl. auto.
Qed.

(** The number of columns [buildAggregateFunction] builds for a call: one
    per argument and one for the filter. *)
Definition argColumns (f : FuncExpr) : nat :=
  length (Exprs f) + match Filter f with Some _ => 1 | None => 0 end.

Lemma buildAggregateArgs_length f d inScope b h x b1 h1 :
  buildAggregateArgs f d inScope b h = Ok (x, b1, h1) ->
  length (args (info x)) = length (Exprs f) /\
  (is_Some (filter (info x)) <-> is_Some (Filter f)) /\
  exists cs,
    cols (at_ h1 (tempScope x)) = cols (at_ h (tempScope x)) ++ cs /\
    length cs = argColumns f.
Proof.
  unfold buildAggregateArgs, argColumns.
  destruct (startAggFunc inScope h) as [tmp|msg]; simpl; [|discriminate].
  destruct (buildAggArgs (Exprs f) zero tmp inScope b h)
    as [[[[as_ r1] b2] h2]|msg] eqn:H1; simpl; [|discriminate].
  destruct (buildAggArgs_length _ _ _ _ _ _ _ _ _ _ H1) as (Hl & cs & Hcs & Hlen).
  destruct (Filter f) as [fe|]; simpl.
  - destruct (buildAggArg fe r1 tmp inScope b2 h2)
      as [[[[fx r2] b3] h3]|msg] eqn:H2; simpl; [|discriminate].
    destruct (buildAggArg_scopes _ _ _ _ _ _ _ _ _ _ H2) as ([c Hc] & _ & _).
    destruct (endAggFunc inScope r2 h3) as [[aggIn aggOut]|msg]; simpl; [|discriminate].
    intros H. injection H as <- <- <-. simpl.
    split; [exact Hl|]. split; [split; eauto|].
    exists (cs ++ [c]). rewrite Hc, Hcs, <- app_assoc, length_app. simpl.
    split; [reflexivity | lia].
  - destruct (endAggFunc inScope r1 h2) as [[aggIn aggOut]|msg]; simpl; [|discriminate].
    intros H. injection H as <- <- <-. simpl.
    split; [exact Hl|]. split; [split; intros [? ?]; discriminate|].
    exists cs. split; [exact Hcs | lia].
Qed.

Lemma cols_setAggs h p q l : cols (at_ (setAggs h p l) q) = cols (at_ h q).
Proof.
  destruct (decide (p = q)) as [->|Hne].
  - rewrite at_setAggs_eq. reflexivity.
  - rewrite at_setAggs_ne by done. reflexivity.
Qed.

(** X3. For an aggregate that is not yet recorded (with aggOutScope a
    scope other than the temporary scope and aggInScope),
    [buildAggregateFunction] leaves the columns it built for the call, one
    per argument and one for the filter, at the end of aggInScope, in the
    order they were built; the temporary scope, when it is another scope,
    has its former columns again; the built call has one argument per
    argument expression and a filter exactly when the call has one. *)
Theorem buildAggregateFunction_moves_args (f : FuncExpr) (d : FunctionPrivate)
    (inScope : scopePtr) (b : BState) (h : scopes) (x : built) (b1 : BState)
    (h1 : scopes) :
  buildAggregateArgs f d inScope b h = Ok (x, b1, h1) ->
  Forall (fun a => ~ identical a (info x)) (aggs (at_ h (aggOutScope x))) ->
  aggOutScope x <> tempScope x ->
  aggOutScope x <> aggInScope x ->
  exists i' b' h' cs,
    buildAggregateFunction f d inScope b h = Ok (i', b', h') /\
    length (args i') = length (Exprs f) /\
    (is_Some (filter i') <-> is_Some (Filter f)) /\
    cols (at_ h1 (tempScope x)) = cols (at_ h (tempScope x)) ++ cs /\
    length cs = argColumns f /\
    cols (at_ h' (aggInScope x)) = cols (at_ h (aggInScope x)) ++ cs /\
    (aggInScope x <> tempScope x ->
     cols (at_ h' (tempScope x)) = cols (at_ h (tempScope x))) /\
    (forall p, p <> aggInScope x -> p <> tempScope x -> p <> aggOutScope x ->
               cols (at_ h' p) = cols (at_ h p)).
Proof.
  intros Hargs Hnone Hot Hoi.
  destruct (buildAggregateArgs_scopes _ _ _ _ _ _ _ _ Hargs)
    as (Hbefore & _ & Haggs & Hother & _ & _).
  destruct (buildAggregateArgs_length _ _ _ _ _ _ _ _ Hargs)
    as (Hl & Hflt & cs & Hcs & Hlen).
  unfold buildAggregateFunction. rewrite Hargs. simpl.
  rewrite <- (Haggs (aggOutScope x)) in Hnone.
  unfold finishAggregate, findAggregate.
  rewrite (find_Forall_not_identical _ _ Hnone).
  unfold synthesizeColumn.
  destruct (AddColumn (Name (def (info x))) b1) as [colID b2]. simpl.
  set (out := aggOutScope x) in *. set (tmp := tempScope x) in *.
  set (ain := aggInScope x) in *.
  set (new := {| name := Name (def (info x)); id := colID; scalar := None |}).
  set (hs := setCols h1 out (cols (at_ h1 out) ++ [new])).
  assert (Hs : forall p, p <> out -> at_ hs p = at_ h1 p)
    by (intros p Hp; unfold hs; apply at_setCols_ne; congruence).
  destruct (bool_decide (ain = tmp)) eqn:Hat; simpl.
  - apply bool_decide_eq_true in Hat.
    eexists _, _, _, cs. split; [reflexivity|]. simpl.
    split; [exact Hl|]. split; [exact Hflt|]. split; [exact Hcs|].
    split; [exact Hlen|]. rewrite !cols_setAggs.
    split; [|split].
    + rewrite Hat, Hs by congruence. exact Hcs.
    + intros Hne. contradiction.
    + intros p Hp1 Hp2 Hp3. rewrite cols_setAggs, Hs, Hother by assumption.
      reflexivity.
  - apply bool_decide_eq_false in Hat.
    eexists _, _, _, cs. split; [reflexivity|]. simpl.
    split; [exact Hl|]. split; [exact Hflt|]. split; [exact Hcs|].
    split; [exact Hlen|]. rewrite !cols_setAggs.
    assert (Hmoved : drop (tempScopeColsBefore x) (cols (at_ hs tmp)) = cs).
    { rewrite Hs, Hcs, Hbefore by congruence. apply drop_app_length. }
    rewrite Hmoved.
    split; [|split].
    + rewrite at_setCols_ne, at_setCols_eq by congruence. simpl.
      rewrite Hs, Hother by congruence. reflexivity.
    + intros _. rewrite at_setCols_eq. simpl.
      rewrite at_setCols_ne, Hs, Hcs, Hbefore by congruence.
      apply take_app_length.
    + intros p Hp1 Hp2 Hp3.
      rewrite cols_setAggs, !at_setCols_ne, Hs, Hother by congruence. reflexivity.
Qed.

(** *** The arguments buildAggregation gives an aggregate *)

(** Lines 282-306 of [buildAggregation]: the arguments of one aggregate,
    taken from the head of [argCols], and the rest of [argCols].  An index
    or a slice bound past the end of [argCols] is a run-time panic. *)
Definition aggregateArgs (agg : aggregateInfo) (argCols : list scopeColumn)
  : result (list Expr * list scopeColumn) :=
  if (0 <? length (args agg))%nat then
    match argCols with
    | [] => Panic "index out of range"
    | c :: argCols =>
        let arg0 := VariableExpr (id c) in
        let arg0 := if distinct agg then OpExpr AggDistinctOp [arg0] else arg0 in
        let constArgs := drop 1 (args agg) in
        if (length argCols <? length constArgs)%nat then
          Panic "slice bounds out of range"
        else
          let argCols := drop (length constArgs) argCols in
          match filter agg with
          | Some _ =>
              match argCols with
              | [] => Panic "index out of range"
              | cf :: argCols =>
                  Ok (OpExpr AggFilterOp [arg0; VariableExpr (id cf)] :: constArgs,
                      argCols)
              end
          | None => Ok (arg0 :: constArgs, argCols)
          end
    end
  else Ok ([], argCols).

(** The number of columns [aggregateArgs] takes from [argCols]. *)
Definition argCount (agg : aggregateInfo) : nat :=
  match args agg with
  | [] => 0
  | _ => length (args agg) + match filter agg with Some _ => 1 | None => 0 end
  end.

(** The first argument [aggregateArgs] builds from the columns [c] of the
    first argument and [cf] of the filter. *)
Definition firstArg (agg : aggregateInfo) (c : scopeColumn) (cf : option scopeColumn)
  : Expr :=
  let arg0 := VariableExpr (id c) in
  let arg0 := if distinct agg then OpExpr AggDistinctOp [arg0] else arg0 in
  match cf with
  | Some cf => OpExpr AggFilterOp [arg0; VariableExpr (id cf)]
  | None => arg0
  end.

Lemma drop_cons_inv {A : Type} (l : list A) : forall n x rest,
  drop n l = x :: rest -> drop (S n) l = rest /\ l !! n = Some x.
Proof.
  induction l as [|a l IH]; intros [|n] x rest H; simpl in *; try discriminate.
  - injection H as <- <-. rewrite drop_0. auto.
  - apply IH, H.
Qed.

Lemma aggregateArgs_spec agg argCols :
  (length argCols < argCount agg ->
   is_Ok (aggregateArgs agg argCols) = false) /\
  (argCount agg <= length argCols ->
   exists args',
     aggregateArgs agg argCols = Ok (args', drop (argCount agg) argCols) /\
     length args' = length (args agg) /\
     drop 1 args' = drop 1 (args agg) /\
     (args agg <> [] ->
      exists c, argCols !! 0 = Some c /\
        args' !! 0 =
          Some (firstArg agg c
                  match filter agg with
                  | Some _ => argCols !! length (args agg)
                  | None => None
                  end))).
Proof.
  unfold aggregateArgs, argCount.
  destruct (args agg) as [|a0 consts] eqn:Hargs; simpl.
  - split; [lia|]. intros _. exists []. rewrite drop_0. repeat split. congruence.
  - rewrite drop_0.
    destruct argCols as [|c argCols]; simpl.
    + split; [reflexivity | lia].
    + destruct (Nat.ltb_spec (length argCols) (length consts)) as [Hlt|Hge].
      * split; [reflexivity|]. destruct (filter agg); lia.
      * destruct (filter agg) as [flt|] eqn:Hflt.
        -- destruct (drop (length consts) argCols) as [|cf rest] eqn:Hdrop.
           ++ split; [reflexivity|]. intros Hle. exfalso.
              apply (f_equal length) in Hdrop. rewrite length_drop in Hdrop.
              simpl in Hdrop. lia.
           ++ split.
              ** intros Hlt. exfalso.
                 apply (f_equal length) in Hdrop. rewrite length_drop in Hdrop.
                 simpl in Hdrop. lia.
              ** intros _. apply drop_cons_inv in Hdrop as [Hrest Hcf].
                 eexists. split.
                 --- f_equal. f_equal.
                     replace (length consts + 1) with (S (length consts)) by lia.
                     symmetry. exact Hrest.
                 --- simpl. split; [reflexivity|]. split; [reflexivity|].
                     intros _. exists c. split; [reflexivity|].
                     unfold firstArg. rewrite Hcf. reflexivity.
        -- split; [intros Hlt; lia|]. intros _. eexists. split.
           ++ rewrite Nat.add_0_r. reflexivity.
           ++ simpl. split; [reflexivity|]. split; [reflexivity|].
              intros _. exists c. split; reflexivity.
Qed.

(** X4. [buildAggregation] takes back from the argument columns what
    [buildAggregateFunction] put there for a call with at least one
    argument: given the columns built for the call, followed by any others,
    the loop body takes exactly these, builds one argument per argument
    expression, the first one a reference to the first column (wrapped in
    AggDistinct for a DISTINCT call and in AggFilter, with a reference to
    the last column, when there is a filter) and the others the built
    arguments themselves, and leaves the other columns.  For a call without
    arguments it takes no column, whether there is a filter or not. *)
Theorem aggregateArgs_takes_built (f : FuncExpr) (d : FunctionPrivate)
    (inScope : scopePtr) (b : BState) (h : scopes) (x : built) (b1 : BState)
    (h1 : scopes) (cs others : list scopeColumn) :
  buildAggregateArgs f d inScope b h = Ok (x, b1, h1) ->
  cols (at_ h1 (tempScope x)) = cols (at_ h (tempScope x)) ++ cs ->
  (Exprs f = [] ->
   aggregateArgs (info x) (cs ++ others) = Ok ([], cs ++ others)) /\
  (Exprs f <> [] ->
   exists args' c,
     aggregateArgs (info x) (cs ++ others) = Ok (args', others) /\
     length args' = length (Exprs f) /\
     drop 1 args' = drop 1 (args (info x)) /\
     cs !! 0 = Some c /\
     args' !! 0 =
       Some (firstArg (info x) c
               match Filter f with
               | Some _ => last cs
               | None => None
               end)).
Proof.
  intros Hargs Hcols.
  destruct (buildAggregateArgs_length _ _ _ _ _ _ _ _ Hargs)
    as (Hl & Hflt & cs' & Hcs' & Hlen).
  assert (cs' = cs) by (rewrite Hcols in Hcs'; apply app_inv_head in Hcs'; auto).
  subst cs'. unfold argColumns in Hlen.
  split.
  - intros He. rewrite He in Hl. unfold aggregateArgs. rewrite Hl. reflexivity.
  - intros He.
    assert (Hne : args (info x) <> [])
      by (intros H0; rewrite H0 in Hl; destruct (Exprs f); [congruence | discriminate]).
    assert (Hcount : argCount (info x) = length cs).
    { unfold argCount. destruct (args (info x)) as [|a0 l] eqn:Ha; [congruence|].
      rewrite Hl, Hlen.
      destruct (Filter f), (filter (info x)); try reflexivity;
        destruct Hflt as [H1 H2]; exfalso;
        [destruct (H2 ltac:(eauto)); discriminate
        | destruct (H1 ltac:(eauto)); discriminate]. }
    destruct (aggregateArgs_spec (info x) (cs ++ others)) as (_ & Hok).
    destruct Hok as (args' & Hrun & Hlen' & Hrest & Hfirst);
      [rewrite Hcount, length_app; lia|].
    destruct (Hfirst Hne) as (c & Hc & Ha0).
    exists args', c.
    rewrite Hcount, drop_app_length in Hrun.
    split; [exact Hrun|]. split; [congruence|]. split; [exact Hrest|].
    assert (Hcs0 : cs !! 0 = Some c).
    { destruct cs as [|c0 cs0]; [|simpl in *; congruence].
      simpl in Hlen. destruct (Exprs f); [congruence | discriminate]. }
    split; [exact Hcs0|]. rewrite Ha0. f_equal. f_equal.
    destruct (Filter f) as [fe|], (filter (info x)) as [flt|]; try reflexivity.
    + rewrite Hl. replace (length (Exprs f)) with (length cs - 1) by lia.
      rewrite lookup_app_l by (rewrite Hlen; lia).
      rewrite last_lookup. f_equal. lia.
    + destruct Hflt as [_ H2]. destruct (H2 ltac:(eauto)); discriminate.
    + destruct Hflt as [H1 _]. destruct (H1 ltac:(eauto)); discriminate.
Qed.

End Aggregates.

(** *** SELECT sum(x), sum(x) FROM t GROUP BY y

    Scope 1 is the FROM scope with the columns x (id 1) and y (id 2), scope
    2 is aggInScope (also the temporary scope) and scope 3 is aggOutScope.
    Typed expressions are column names, the builder state is the next
    column id of the metadata, and building the bare column reference [x]
    turns the argument column into x itself (no scalar). *)
Module SumExample.

Definition startAggFunc (inScope : scopePtr) (h : gmap positive (@scope string))
  : result scopePtr := Ok 2%positive.
Definition endAggFunc (inScope : scopePtr) (refs : ColSet)
    (h : gmap positive (@scope string)) : result (scopePtr * scopePtr) :=
  Ok (2%positive, 3%positive).
Definition newColumn (alias : string) (e : string) : scopeColumn :=
  {| name := alias; id := 0; scalar := None |}.
Definition buildScalar (e : string) (inScope : scopePtr) (c : scopeColumn)
    (refs : ColSet) (b : Z) : result (scopeColumn * ColSet * Z) :=
  Ok ({| name := e; id := 1; scalar := None |}, Add refs 1, b).
Definition AddColumn (alias : string) (b : Z) : ColumnID * Z := (b, (b + 1)%Z).

Definition sum_x : @FuncExpr string :=
  {| isDistinct := false; Exprs := ["x"]; Filter := None |}.
Definition sum_def : FunctionPrivate := {| Name := "sum"; Overload := 0 |}.

Definition h0 : gmap positive (@scope string) :=
  <[ 1%positive := {| cols := [ {| name := "x"; id := 1; scalar := None |};
                               {| name := "y"; id := 2; scalar := None |} ];
                     aggs := [] |} ]>
  (<[ 2%positive := emptyScope ]> (<[ 3%positive := emptyScope ]> ∅)).

Definition run := buildAggregateFunction startAggFunc endAggFunc newColumn
                    buildScalar AddColumn sum_x sum_def 1%positive.

(** The first sum(x). *)
Definition i1 : @aggregateInfo string :=
  {| fexpr := sum_x; def := sum_def; distinct := false;
     args := [VariableExpr 1]; filter := None;
     col := Some (3%positive, 0); colRefs := Add zero 1 |}.
Definition h1 : gmap positive (@scope string) :=
  <[ 3%positive := {| cols := [ {| name := "sum"; id := 3; scalar := None |} ];
                     aggs := [i1] |} ]>
  (<[ 2%positive := {| cols := [ {| name := "x"; id := 1; scalar := None |} ];
                      aggs := [] |} ]> h0).

Lemma first_sum : run 3%Z h0 = Ok (i1, 4%Z, h1).
Proof. vm_compute. reflexivity. Qed.

End SumExample.

(** The second sum(x) of SELECT sum(x), sum(x) FROM t GROUP BY y finds the
    first one: it gets the same output column, the aggregate list keeps its
    single entry and no scope changes. *)
Lemma buildAggregateFunction_dedup_witness :
  exists i2 b2 h2,
    SumExample.run 4%Z SumExample.h1 = Ok (i2, b2, h2) /\
    col i2 = col SumExample.i1 /\
    length (aggs (at_ h2 3%positive)) = 1 /\
    (forall p, at_ h2 p = at_ SumExample.h1 p).
Proof.
  edestruct (buildAggregateFunction_dedup SumExample.startAggFunc
               SumExample.endAggFunc SumExample.newColumn SumExample.buildScalar
               SumExample.AddColumn SumExample.sum_x SumExample.sum_def
               1%positive 4%Z SumExample.h1)
    as (i2 & b2 & h2 & Hrun & _ & Hfound & _).
  - vm_compute. reflexivity.
  - vm_compute. repeat constructor. eexists. reflexivity.
  - exists i2, b2, h2. split; [exact Hrun|].
    destruct Hfound as ((a & Ha & _ & _ & Hcol) & _ & Hsame).
    + apply Exists_cons_hd. vm_compute. repeat split; reflexivity.
    + split; [|split; [|exact Hsame]].
      * rewrite Hcol. vm_compute in Ha.
        apply list_elem_of_singleton in Ha. subst a. reflexivity.
      * rewrite Hsame. reflexivity.
Defined.

(** GROUP BY a, b, a over a scope that holds one column already: two
    grouping columns are appended, behind it. *)
Lemma buildGroupingList_columns_witness :
  let newCol := fun (alias : string) (e : string) =>
                  {| name := alias; id := 0; scalar := None |} in
  let build := fun (e : string) (inCols : list scopeColumn)
                   (col : scopeColumn) (next : Z) =>
                  Ok ({| name := e; id := next; scalar := None |}, (next + 1)%Z) in
  let run := buildGroupingList (fun e => e) (fun _ _ _ => Ok (-1)%Z)
               (fun e _ => Ok [e]) (fun es => es) (fun e => e) newCol build in
  let arg := {| name := "x"; id := 1; scalar := None |} in
  let st0 := {| bst := 2%Z; context := ""; groupStrs := ∅; outCols := [arg] |} in
  exists st' new,
    run ["a"; "b"; "a"] [] [] st0 = Ok st' /\
    outCols st' = [arg] ++ new /\
    length new = groupingsLen st' /\
    List.map name new = ["a"; "b"].
Proof.
  intros newCol build run arg st0.
  destruct (buildGroupingList_columns (fun e => e) (fun _ _ _ => Ok (-1)%Z)
              (fun e _ => Ok [e]) (fun es => es) (fun e => e) newCol build
              ["a"; "b"; "a"] [] [] st0 _ eq_refl) as (new & Hcols & Hlen & _).
  eexists _, new. split; [reflexivity|]. split; [exact Hcols|].
  split; [exact Hlen|].
  simpl in Hcols. injection Hcols as <-. reflexivity.
Defined.

(* --------------------------------------------------------------------- *)
(** ** The aggregations constructGroupBy hands to the factory               *)
(* --------------------------------------------------------------------- *)

(** The aggregation was taken from the first column of [aggCols] with its
    column id. *)
Definition fromFirst (aggCols : list scopeColumn) (item : AggregationsItem) : Prop :=
  exists c,
    List.find (fun c => bool_decide (id c = AggCol item)) aggCols = Some c /\
    scalar c = Some (Agg item).

Lemma dedupAggCols_spec (aggCols : list scopeColumn) :
  forall aggs colSet aggs',
    dedupAggCols aggCols aggs colSet = Ok aggs' ->
    exists new,
      aggs' = aggs ++ new /\
      NoDup (List.map AggCol new) /\
      (forall col, col ∈ List.map AggCol new <->
                   col ∈ List.map id aggCols /\ Contains colSet col = false) /\
      Forall (fromFirst aggCols) new /\
      length new <= length aggCols.
Proof.
  induction aggCols as [|c rest IH]; intros aggs colSet aggs' H; simpl in H.
  - injection H as <-. exists []. rewrite app_nil_r. split; [reflexivity|].
    split; [constructor|]. split; [|split; [constructor | reflexivity]].
    intros col. simpl. split; [intros Hin | intros [Hin _]]; inversion Hin.
  - destruct (Contains colSet (id c)) eqn:Hc; simpl in H.
    + destruct (IH _ _ _ H) as (new & -> & Hnd & Hmem & Hfirst & Hlen).
      exists new. split; [reflexivity|]. split; [exact Hnd|].
      split; [|split; [|simpl; lia]].
      * intros col. rewrite Hmem. simpl. rewrite elem_of_cons. split.
        -- intros [Hin Hnot]. auto.
        -- intros [[->|Hin] Hnot]; [congruence | auto].
      * apply Forall_forall. intros item Hin.
        destruct (proj1 (Forall_forall _ _) Hfirst item Hin) as (c' & Hf & Hs).
        exists c'. split; [|exact Hs]. simpl.
        rewrite bool_decide_eq_false_2; [exact Hf|].
        intros Heq.
        assert (Hcol : AggCol item ∈ List.map AggCol new)
          by (apply list_elem_of_In, List.in_map, list_elem_of_In, Hin).
        apply Hmem in Hcol as [_ Hnot]. congruence.
    + destruct (scalar c) as [sc|] eqn:Hsc; [|discriminate].
      destruct (IH _ _ _ H) as (new & -> & Hnd & Hmem & Hfirst & Hlen).
      exists ({| Agg := sc; AggCol := id c |} :: new).
      rewrite <- app_assoc. split; [reflexivity|].
      assert (Hnew : forall col, col ∈ List.map AggCol new -> col <> id c).
      { intros col Hin ->. apply Hmem in Hin as [_ Hnot].
        rewrite Contains_Add, bool_decide_eq_true_2 in Hnot by reflexivity.
        discriminate. }
      split; [|split; [|split; [|simpl; lia]]].
      * simpl. apply NoDup_cons. split; [|exact Hnd].
        intros Hin. exact (Hnew _ Hin eq_refl).
      * intros col. simpl. rewrite !elem_of_cons, Hmem, Contains_Add.
        destruct (decide (col = id c)) as [->|Hne].
        -- rewrite Hc. intuition.
        -- rewrite bool_decide_eq_false_2 by exact Hne. simpl. intuition.
      * constructor.
        -- exists c. simpl. rewrite bool_decide_eq_true_2 by reflexivity. auto.
        -- apply Forall_forall. intros item Hin.
           destruct (proj1 (Forall_forall _ _) Hfirst item Hin) as (c' & Hf & Hs).
           exists c'. split; [|exact Hs]. simpl.
           rewrite bool_decide_eq_false_2; [exact Hf|].
           intros Heq. apply (Hnew (AggCol item)); [|congruence].
           apply list_elem_of_In, List.in_map, list_elem_of_In, Hin.
Qed.

(** X5. The aggregations of the operator [constructGroupBy] returns
    have pairwise distinct output columns, which are exactly the column ids
    that occur in [aggCols]; each is the scalar of the first column of
    [aggCols] with that id, so later columns with the same id are dropped
    and there are no more aggregations than columns. *)
Theorem constructGroupBy_aggregations (input : RelExpr) (groupingColSet : ColSet)
    (aggCols : list scopeColumn) (ordering : Ordering) (e : RelExpr) :
  constructGroupBy input groupingColSet aggCols ordering = Ok e ->
  exists aggs private,
    (e = ScalarGroupByExpr input aggs private \/ e = GroupByExpr input aggs private) /\
    NoDup (List.map AggCol aggs) /\
    (forall col, col ∈ List.map AggCol aggs <-> col ∈ List.map id aggCols) /\
    Forall (fromFirst aggCols) aggs /\
    length aggs <= length aggCols.
Proof.
  unfold constructGroupBy.
  destruct (dedupAggCols aggCols [] zero) as [aggs|msg] eqn:Hrun; simpl;
    [|discriminate].
  destruct (dedupAggCols_spec _ _ _ _ Hrun) as (new & Heq & Hnd & Hmem & Hfirst & Hlen).
  simpl in Heq. subst new. intros He.
  exists aggs, {| GroupingCols := groupingColSet;
                  GOrdering := FromOrderingWithOptCols ordering groupingColSet |}.
  split; [destruct (Empty groupingColSet); injection He as <-; auto|].
  split; [exact Hnd|]. split; [|split; assumption].
  intros col. rewrite Hmem, Contains_zero. intuition.
Qed.

(** sum(x) AS column 3 twice and count(y) AS column 4, grouped by column 2:
    two aggregations, for the columns 3 and 4. *)
Lemma constructGroupBy_aggregations_witness :
  let sum := {| name := "sum"; id := 3;
                scalar := Some (OpExpr FunctionOp [VariableExpr 1]) |} in
  let count := {| name := "count"; id := 4;
                  scalar := Some (OpExpr FunctionOp [VariableExpr 2]) |} in
  exists aggs private,
    constructGroupBy (OtherRelExpr 0) (MakeColSet [2%Z]) [sum; count; sum] []
      = Ok (GroupByExpr (OtherRelExpr 0) aggs private) /\
    List.map AggCol aggs = [3%Z; 4%Z].
Proof.
  intros sum count.
  destruct (constructGroupBy_aggregations (OtherRelExpr 0) (MakeColSet [2%Z])
              [sum; count; sum] [] _ eq_refl) as (aggs & private & He & _).
  destruct He as [He|He]; [discriminate|]. injection He as <- <-.
  eexists _, _. split; reflexivity.
Defined.

(** *** SELECT min(v * 2) FROM kv GROUP BY k + 3

    Scope 1 is the FROM scope with the columns k (id 1) and v (id 2), scope
    2 the temporary scope of the aggregate, scope 4 aggInScope, which holds
    the grouping column k + 3 (id 3) already, and scope 3 aggOutScope. *)
Module MinExample.

Definition startAggFunc (inScope : scopePtr) (h : gmap positive (@scope string))
  : result scopePtr := Ok 2%positive.
Definition endAggFunc (inScope : scopePtr) (refs : ColSet)
    (h : gmap positive (@scope string)) : result (scopePtr * scopePtr) :=
  Ok (4%positive, 3%positive).
Definition newColumn (alias : string) (e : string) : scopeColumn :=
  {| name := alias; id := 0; scalar := None |}.
(** Building v * 2 synthesizes a column with the next column id. *)
Definition buildScalar (e : string) (inScope : scopePtr) (c : scopeColumn)
    (refs : ColSet) (b : Z) : result (scopeColumn * ColSet * Z) :=
  Ok ({| name := e; id := b;
         scalar := Some (OpExpr MultOp [VariableExpr 2; ConstExpr 2]) |},
      Add refs 2, (b + 1)%Z).
Definition AddColumn (alias : string) (b : Z) : ColumnID * Z := (b, (b + 1)%Z).

Definition min_v2 : @FuncExpr string :=
  {| isDistinct := false; Exprs := ["v * 2"]; Filter := None |}.
Definition min_def : FunctionPrivate := {| Name := "min"; Overload := 0 |}.

Definition h0 : gmap positive (@scope string) :=
  <[ 1%positive := {| cols := [ {| name := "k"; id := 1; scalar := None |};
                               {| name := "v"; id := 2; scalar := None |} ];
                     aggs := [] |} ]>
  (<[ 2%positive := emptyScope ]>
   (<[ 3%positive := emptyScope ]>
    (<[ 4%positive :=
          {| cols := [ {| name := "k + 3"; id := 3;
                          scalar := Some (OpExpr PlusOp [VariableExpr 1; ConstExpr 3]) |} ];
             aggs := [] |} ]> ∅))).

End MinExample.

(** The column of v * 2 ends up in aggInScope behind the grouping column,
    and the temporary scope is empty again. *)
Lemma buildAggregateFunction_moves_args_witness :
  exists i' b' h' c,
    buildAggregateFunction MinExample.startAggFunc MinExample.endAggFunc
      MinExample.newColumn MinExample.buildScalar MinExample.AddColumn
      MinExample.min_v2 MinExample.min_def 1%positive 4%Z MinExample.h0
      = Ok (i', b', h') /\
    cols (at_ h' 4%positive) = cols (at_ MinExample.h0 4%positive) ++ [c] /\
    name c = "v * 2" /\
    cols (at_ h' 2%positive) = [].
Proof.
  edestruct (buildAggregateFunction_moves_args MinExample.startAggFunc
               MinExample.endAggFunc MinExample.newColumn MinExample.buildScalar
               MinExample.AddColumn MinExample.min_v2 MinExample.min_def
               1%positive 4%Z MinExample.h0)
    as (i' & b' & h' & cs & Hrun & _ & _ & Hcs & _ & Hin & Htmp & _).
  - vm_compute. reflexivity.
  - vm_compute. constructor.
  - vm_compute. discriminate.
  - vm_compute. discriminate.
  - simpl in Hcs, Hin, Htmp.
    exists i', b', h', {| name := "v * 2"; id := 4;
                          scalar := Some (OpExpr MultOp [VariableExpr 2; ConstExpr 2]) |}.
    split; [exact Hrun|].
    assert (Hc : cs = [ {| name := "v * 2"; id := 4;
                           scalar := Some (OpExpr MultOp [VariableExpr 2; ConstExpr 2]) |} ]).
    { vm_compute in Hcs. symmetry. exact Hcs. }
    subst cs. split; [exact Hin|]. split; [reflexivity|].
    rewrite Htmp by discriminate. reflexivity.
Defined.

(** Later, [buildAggregation] finds the column of v * 2 (id 4) at the head
    of the argument columns, takes it as the argument of min, and leaves
    the grouping column. *)
Lemma aggregateArgs_takes_built_witness :
  let arg := {| name := "v * 2"; id := 4;
                scalar := Some (OpExpr MultOp [VariableExpr 2; ConstExpr 2]) |} in
  let grouping := {| name := "k + 3"; id := 3;
                     scalar := Some (OpExpr PlusOp [VariableExpr 1; ConstExpr 3]) |} in
  exists x b1 h1,
    buildAggregateArgs MinExample.startAggFunc MinExample.endAggFunc
      MinExample.newColumn MinExample.buildScalar
      MinExample.min_v2 MinExample.min_def 1%positive 4%Z MinExample.h0
      = Ok (x, b1, h1) /\
    aggregateArgs (info x) [arg; grouping] = Ok ([VariableExpr 4], [grouping]).
Proof.
  intros arg grouping.
  destruct (buildAggregateArgs MinExample.startAggFunc MinExample.endAggFunc
              MinExample.newColumn MinExample.buildScalar
              MinExample.min_v2 MinExample.min_def 1%positive 4%Z MinExample.h0)
    as [[[x b1] h1]|msg] eqn:Hargs; [|vm_compute in Hargs; discriminate].
  exists x, b1, h1. split; [reflexivity|].
  destruct (aggregateArgs_takes_built MinExample.startAggFunc MinExample.endAggFunc
              MinExample.newColumn MinExample.buildScalar
              MinExample.min_v2 MinExample.min_def 1%positive 4%Z MinExample.h0
              x b1 h1 [arg] [grouping] Hargs)
    as (_ & Htakes).
  - vm_compute in Hargs. injection Hargs as <- <- <-. vm_compute. reflexivity.
  - destruct Htakes as (args' & c & Hrun & _ & _ & _ & _); [discriminate|].
    change ([arg] ++ [grouping]) with [arg; grouping] in Hrun.
    rewrite Hrun. f_equal. f_equal.
    vm_compute in Hargs. injection Hargs as <- <- <-.
    vm_compute in Hrun. injection Hrun as <-. reflexivity.
Defined.

(* --------------------------------------------------------------------- *)
(** ** constructAggregate, constructWindowFn and the loop of buildAggregation *)
(* --------------------------------------------------------------------- *)

(** The aggregate and window operators (opt/operator.og.go, generated, not
    among the sources), by number among the operators that the enumeration
    leaves to [OtherOp]. *)
Definition ArrayAggOp : Operator := OtherOp 1.
Definition AvgOp : Operator := OtherOp 2.
Definition BoolAndOp : Operator := OtherOp 3.
Definition BoolOrOp : Operator := OtherOp 4.
Definition ConcatAggOp : Operator := OtherOp 5.
Definition CountOp : Operator := OtherOp 6.
Definition CountRowsOp : Operator := OtherOp 7.
Definition MaxOp : Operator := OtherOp 8.
Definition MinOp : Operator := OtherOp 9.
Definition SumIntOp : Operator := OtherOp 10.
Definition SumOp : Operator := OtherOp 11.
Definition SqrDiffOp : Operator := OtherOp 12.
Definition VarianceOp : Operator := OtherOp 13.
Definition StdDevOp : Operator := OtherOp 14.
Definition XorAggOp : Operator := OtherOp 15.
Definition JsonAggOp : Operator := OtherOp 16.
Definition JsonbAggOp : Operator := OtherOp 17.
Definition StringAggOp : Operator := OtherOp 18.
Definition RankOp : Operator := OtherOp 19.
Definition RowNumberOp : Operator := OtherOp 20.
Definition DenseRankOp : Operator := OtherOp 21.
Definition PercentRankOp : Operator := OtherOp 22.
Definition CumeDistOp : Operator := OtherOp 23.
Definition NtileOp : Operator := OtherOp 24.
Definition LagOp : Operator := OtherOp 25.
Definition LeadOp : Operator := OtherOp 26.
Definition FirstValueOp : Operator := OtherOp 27.
Definition LastValueOp : Operator := OtherOp 28.
Definition NthValueOp : Operator := OtherOp 29.

(** [args[i]]: a run-time panic past the end of the slice. *)
Definition argAt (args : list Expr) (i : nat) : result Expr :=
  match args !! i with
  | Some a => Ok a
  | None => Panic "index out of range"
  end.

(** [b.factory.ConstructX()], [ConstructX(args[0])], [ConstructX(args[0],
    args[1])] and [ConstructX(args[0], args[1], args[2])], represented by
    the node they are asked to construct, like the other methods of the
    factory. *)
Definition construct0 (op : Operator) : result Expr := Ok (OpExpr op []).
Definition construct1 (op : Operator) (args : list Expr) : result Expr :=
  a0 ← argAt args 0; Ok (OpExpr op [a0]).
Definition construct2 (op : Operator) (args : list Expr) : result Expr :=
  a0 ← argAt args 0; a1 ← argAt args 1; Ok (OpExpr op [a0; a1]).
Definition construct3 (op : Operator) (args : list Expr) : result Expr :=
  a0 ← argAt args 0; a1 ← argAt args 1; a2 ← argAt args 2;
  Ok (OpExpr op [a0; a1; a2]).

Section Construct.

(** [memo.CanExtractConstDatum] (memo/constraint_builder.go, not among the
    sources). *)
Variable CanExtractConstDatum : Expr -> bool.

(** [func (b *Builder) constructAggregate(name, args) opt.ScalarExpr] *)
Definition constructAggregate (name : string) (args : list Expr) : result Expr :=
  if String.eqb name "array_agg" then construct1 ArrayAggOp args
  else if String.eqb name "avg" then construct1 AvgOp args
  else if String.eqb name "bool_and" then construct1 BoolAndOp args
  else if String.eqb name "bool_or" then construct1 BoolOrOp args
  else if String.eqb name "concat_agg" then construct1 ConcatAggOp args
  else if String.eqb name "count" then construct1 CountOp args
  else if String.eqb name "count_rows" then construct0 CountRowsOp
  else if String.eqb name "max" then construct1 MaxOp args
  else if String.eqb name "min" then construct1 MinOp args
  else if String.eqb name "sum_int" then construct1 SumIntOp args
  else if String.eqb name "sum" then construct1 SumOp args
  else if String.eqb name "sqrdiff" then construct1 SqrDiffOp args
  else if String.eqb name "variance" then construct1 VarianceOp args
  else if String.eqb name "stddev" then construct1 StdDevOp args
  else if String.eqb name "xor_agg" then construct1 XorAggOp args
  else if String.eqb name "json_agg" then construct1 JsonAggOp args
  else if String.eqb name "jsonb_agg" then construct1 JsonbAggOp args
  else if String.eqb name "string_agg" then
    a1 ← argAt args 1;
    if negb (CanExtractConstDatum a1) then
      Panic "aggregate functions with multiple non-constant expressions are not supported"
    else construct2 StringAggOp args
  else Panic ("unhandled aggregate: " ++ name).

(** [func (b *Builder) constructWindowFn(name, args) opt.ScalarExpr] *)
Definition constructWindowFn (name : string) (args : list Expr) : result Expr :=
  if String.eqb name "rank" then construct0 RankOp
  else if String.eqb name "row_number" then construct0 RowNumberOp
  else if String.eqb name "dense_rank" then construct0 DenseRankOp
  else if String.eqb name "percent_rank" then construct0 PercentRankOp
  else if String.eqb name "cume_dist" then construct0 CumeDistOp
  else if String.eqb name "ntile" then construct1 NtileOp args
  else if String.eqb name "lag" then construct3 LagOp args
  else if String.eqb name "lead" then construct3 LeadOp args
  else if String.eqb name "first_value" then construct1 FirstValueOp args
  else if String.eqb name "last_value" then construct1 LastValueOp args
  else if String.eqb name "nth_value" then construct2 NthValueOp args
  else if String.eqb name "string_agg" then construct2 StringAggOp args
  else constructAggregate name args.

(** The names of the switch of [constructAggregate]. *)
Definition aggregateNames : list string :=
  [ "array_agg"; "avg"; "bool_and"; "bool_or"; "concat_agg"; "count";
    "count_rows"; "max"; "min"; "sum_int"; "sum"; "sqrdiff"; "variance";
    "stddev"; "xor_agg"; "json_agg"; "jsonb_agg"; "string_agg" ].

(** The names [constructWindowFn] handles itself. *)
Definition windowNames : list string :=
  [ "rank"; "row_number"; "dense_rank"; "percent_rank"; "cume_dist"; "ntile";
    "lag"; "lead"; "first_value"; "last_value"; "nth_value" ].

(** The node holds the first [n] arguments. *)
Definition holdsArgs (e : Expr) (args : list Expr) (n : nat) : Prop :=
  exists op, e = OpExpr op (take n args) /\ n <= length args.

Lemma construct1_holds op args e :
  construct1 op args = Ok e -> holdsArgs e args 1.
Proof.
  unfold construct1, argAt. destruct args as [|a0 l]; simpl; [discriminate|].
  intros [= <-]. exists op. split; [reflexivity | simpl; lia].
Qed.

Lemma construct2_holds op args e :
  construct2 op args = Ok e -> holdsArgs e args 2.
Proof.
  unfold construct2, argAt. destruct args as [|a0 [|a1 l]]; simpl; try discriminate.
  intros [= <-]. exists op. split; [reflexivity | simpl; lia].
Qed.

Ltac by_name name :=
  repeat match goal with
         | |- context [String.eqb name ?s] =>
             destruct (String.eqb_spec name s) as [->|?]
         end.

Lemma constructAggregate_unhandled name args :
  name ∉ aggregateNames ->
  constructAggregate name args = Panic ("unhandled aggregate: " ++ name).
Proof.
  intros Hnot. unfold constructAggregate.
  by_name name; try reflexivity;
    exfalso; apply Hnot; unfold aggregateNames;
    repeat (first [apply list_elem_of_here | apply list_elem_of_further]).
Qed.

Lemma constructAggregate_holds name args e :
  constructAggregate name args = Ok e ->
  name ∈ aggregateNames /\
  holdsArgs e args (if String.eqb name "count_rows" then 0
                    else if String.eqb name "string_agg" then 2 else 1).
Proof.
  intros Hrun.
  split.
  - destruct (decide (name ∈ aggregateNames)) as [Hin|Hnot]; [exact Hin|].
    rewrite (constructAggregate_unhandled _ _ Hnot) in Hrun. discriminate.
  - revert Hrun. unfold constructAggregate.
    by_name name; simpl; try (apply construct1_holds); try discriminate.
    + intros [= <-]. exists CountRowsOp. split; [reflexivity | lia].
    + destruct (argAt args 1) as [a1|]; simpl; [|discriminate].
      destruct (CanExtractConstDatum a1); simpl; [|discriminate].
      apply construct2_holds.
Qed.

(** X6. A call [constructAggregate] builds, [constructWindowFn] builds
    alike.  [constructAggregate] returns for the eighteen names of its
    switch only, with "unhandled aggregate" for every other name; the node
    it returns holds the arguments it was given as they are: none for
    count_rows, the first two for string_agg (whose second argument must
    be a constant) and the first one otherwise. *)
Theorem constructAggregate_constructWindowFn (name : string) (args : list Expr) :
  (forall e, constructAggregate name args = Ok e ->
     constructWindowFn name args = Ok e /\
     name ∈ aggregateNames /\
     holdsArgs e args (if String.eqb name "count_rows" then 0
                       else if String.eqb name "string_agg" then 2 else 1)) /\
  (name ∉ aggregateNames ->
     constructAggregate name args = Panic ("unhandled aggregate: " ++ name)) /\
  (name ∉ windowNames -> name <> "string_agg" ->
     constructWindowFn name args = constructAggregate name args).
Proof.
  split; [|split].
  - intros e Hrun. split; [|apply constructAggregate_holds, Hrun].
    unfold constructWindowFn.
    by_name name; try exact Hrun; try (vm_compute in Hrun; discriminate).
    revert Hrun. unfold constructAggregate. simpl.
    destruct (argAt args 1) as [a1|]; simpl; [|discriminate].
    destruct (CanExtractConstDatum a1); simpl; [auto | discriminate].
  - apply constructAggregate_unhandled.
  - intros Hnot Hne. unfold constructWindowFn.
    by_name name; try reflexivity; try contradiction;
      exfalso; apply Hnot; unfold windowNames;
      repeat (first [apply list_elem_of_here | apply list_elem_of_further]).
Qed.

End Construct.

Section Aggregation.

Context {TypedExpr : Type}.
Variable CanExtractConstDatum : Expr -> bool.

(** [func (a aggregateInfo) isOrderingSensitive() bool] *)
Definition isOrderingSensitive (a : @aggregateInfo TypedExpr) : bool :=
  let n := Name (def a) in
  String.eqb n "array_agg" || String.eqb n "concat_agg" ||
  String.eqb n "string_agg" || String.eqb n "json_agg" || String.eqb n "jsonb_agg".

(** [b.subquery.outerCols.UnionWith(agg.colRefs.Difference(fromCols))],
    when there is a subquery. *)
Definition addOuterCols (outerCols : option ColSet) (agg : @aggregateInfo TypedExpr)
    (fromCols : ColSet) : option ColSet :=
  match outerCols with
  | Some oc => Some (UnionWith oc (Difference (colRefs agg) fromCols))
  | None => None
  end.

(** The loop of [buildAggregation] over [aggInfos] (lines 281-324):
    [aggCols] from position [i] on, [argCols], [haveOrderingSensitiveAgg]
    and the outer columns of the subquery, before and after.  The call of
    [constructAggregate] comes before the store into [aggCols[i]]. *)
Fixpoint buildAggregations (aggInfos : list (@aggregateInfo TypedExpr))
    (aggCols argCols : list scopeColumn) (haveOrderingSensitiveAgg : bool)
    (outerCols : option ColSet) (fromCols : ColSet)
  : result (list scopeColumn * list scopeColumn * bool * option ColSet) :=
  match aggInfos with
  | [] => Ok (aggCols, argCols, haveOrderingSensitiveAgg, outerCols)
  | agg :: rest =>
      '(args, argCols) ← aggregateArgs agg argCols;
      e ← constructAggregate CanExtractConstDatum (Name (def agg)) args;
      match aggCols with
      | [] => Panic "index out of range"
      | c :: aggCols =>
          let c := {| name := name c; id := id c; scalar := Some e |} in
          let haveOrderingSensitiveAgg :=
            if isOrderingSensitive agg then true else haveOrderingSensitiveAgg in
          let outerCols := addOuterCols outerCols agg fromCols in
          '(aggCols, argCols, sensitive, outerCols) ←
             buildAggregations rest aggCols argCols haveOrderingSensitiveAgg
                               outerCols fromCols;
          Ok (c :: aggCols, argCols, sensitive, outerCols)
      end
  end.

(** The column holds the aggregate built for the call from as many
    arguments as the call has. *)
Definition holdsAggregate (agg : @aggregateInfo TypedExpr) (c : scopeColumn) : Prop :=
  exists args' e,
    scalar c = Some e /\
    constructAggregate CanExtractConstDatum (Name (def agg)) args' = Ok e /\
    length args' = length (args agg).

(** The outer columns gained: the columns the aggregates refer to that are
    not columns of the FROM scope. *)
Definition outerColsGained (before after : option ColSet)
    (aggInfos : list (@aggregateInfo TypedExpr)) (fromCols : ColSet) : Prop :=
  match before, after with
  | None, None => True
  | Some oc, Some oc' =>
      forall col, Contains oc' col = true <->
        Contains oc col = true \/
        Exists (fun agg => Contains (colRefs agg) col = true /\
                           Contains fromCols col = false) aggInfos
  | _, _ => False
  end.

(** X7. When the loop of [buildAggregation] returns, there were at
    least as many aggregate columns as aggregates; the columns keep their
    names and ids; the first ones, one per aggregate and in the order of
    the aggregates, hold the aggregates built for the calls, the others are
    untouched; the argument columns taken are those at the front, as many
    as the aggregates take together; the loop has seen an ordering
    sensitive aggregate exactly when there is one (or the flag was set);
    and the outer columns of the subquery, when there is one, have gained
    the columns the aggregates refer to outside the FROM scope. *)
Theorem buildAggregations_spec (aggInfos : list (@aggregateInfo TypedExpr)) :
  forall (aggCols argCols : list scopeColumn) (sensitive : bool)
         (outerCols : option ColSet) (fromCols : ColSet)
         (built left : list scopeColumn) (sensitive' : bool)
         (outerCols' : option ColSet),
  buildAggregations aggInfos aggCols argCols sensitive outerCols fromCols
    = Ok (built, left, sensitive', outerCols') ->
  length aggInfos <= length aggCols /\
  List.map name built = List.map name aggCols /\
  List.map id built = List.map id aggCols /\
  Forall2 holdsAggregate aggInfos (take (length aggInfos) built) /\
  drop (length aggInfos) built = drop (length aggInfos) aggCols /\
  sum_list (List.map argCount aggInfos) <= length argCols /\
  left = drop (sum_list (List.map argCount aggInfos)) argCols /\
  sensitive' = sensitive || existsb isOrderingSensitive aggInfos /\
  outerColsGained outerCols outerCols' aggInfos fromCols.
Proof.
  induction aggInfos as [|agg rest IH];
    intros aggCols argCols sensitive outerCols fromCols built left sensitive'
           outerCols' H; simpl in H.
  - injection H as <- <- <- <-. simpl. rewrite orb_false_r, !drop_0.
    repeat split; try lia; try constructor.
    destruct outerCols as [oc|]; simpl; [|exact I].
    intros col. rewrite Exists_nil. tauto.
  - destruct (aggregateArgs agg argCols) as [[args' argCols1]|msg] eqn:Hargs;
      simpl in H; [|discriminate].
    destruct (constructAggregate CanExtractConstDatum (Name (def agg)) args')
      as [e|msg] eqn:He; simpl in H; [|discriminate].
    destruct aggCols as [|c aggCols]; [discriminate|].
    destruct (buildAggregations rest aggCols argCols1 _ _ fromCols)
      as [[[[built1 left1] s1] oc1]|msg] eqn:Hrest; simpl in H; [|discriminate].
    injection H as <- <- <- <-.
    destruct (IH _ _ _ _ _ _ _ _ _ Hrest)
      as (Hlen & Hname & Hid & Hall & Hdrop & Hsum & Hleft & Hsens & Houter).
    destruct (aggregateArgs_spec agg argCols) as (Hfail & Hok).
    assert (Hcount : argCount agg <= length argCols).
    { destruct (Nat.le_gt_cases (argCount agg) (length argCols)) as [Hle|Hgt];
        [exact Hle|]. rewrite Hargs in Hfail. specialize (Hfail Hgt). discriminate. }
    destruct (Hok Hcount) as (args'' & Hrun & Hlen' & _).
    rewrite Hargs in Hrun. injection Hrun as <- ->.
    rewrite length_drop in Hsum. simpl.
    split; [lia|]. split; [rewrite Hname; reflexivity|].
    split; [rewrite Hid; reflexivity|].
    split; [constructor; [exists args', e; auto | exact Hall]|].
    split; [exact Hdrop|]. split; [lia|].
    split; [rewrite Hleft, drop_drop; reflexivity|].
    split.
    + rewrite Hsens. destruct (isOrderingSensitive agg), sensitive; reflexivity.
    + unfold outerColsGained, addOuterCols in *.
      destruct outerCols as [oc|], oc1 as [oc'|]; try exact Houter.
      intros col. rewrite Houter, Exists_cons, Contains_UnionWith, orb_true_iff.
      unfold Difference, DifferenceWith, Copy, Contains. simpl.
      rewrite !bool_decide_eq_true, bool_decide_eq_false, elem_of_difference.
      tauto.
Qed.

End Aggregation.

(** SELECT min(v * 2), count_rows() over the argument column of v * 2
    (id 4) and the grouping column k + 3 (id 3): min takes the argument
    column, count_rows takes none, and the grouping column is left. *)
Lemma buildAggregations_spec_witness :
  let arg := {| name := "v * 2"; id := 4;
                scalar := Some (OpExpr MultOp [VariableExpr 2; ConstExpr 2]) |} in
  let grouping := {| name := "k + 3"; id := 3;
                     scalar := Some (OpExpr PlusOp [VariableExpr 1; ConstExpr 3]) |} in
  let agg := fun (n : string) (args : list Expr) =>
    {| fexpr := {| isDistinct := false; Exprs := ([] : list string); Filter := None |};
       def := {| Name := n; Overload := 0 |}; distinct := false;
       args := args; filter := None; col := None; colRefs := zero |} in
  let out := fun (n : string) (i : Z) => {| name := n; id := i; scalar := None |} in
  exists built,
    buildAggregations (fun _ => true)
      [agg "min" [OpExpr MultOp [VariableExpr 2; ConstExpr 2]]; agg "count_rows" []]
      [out "min" 5%Z; out "count_rows" 6%Z] [arg; grouping] false None zero
    = Ok (built, [grouping], false, None) /\
    List.map id built = [5; 6]%Z /\
    List.map scalar built =
      [Some (OpExpr MinOp [VariableExpr 4]); Some (OpExpr CountRowsOp [])].
Proof.
  intros arg grouping agg out.
  destruct (buildAggregations (fun _ => true)
      [agg "min" [OpExpr MultOp [VariableExpr 2; ConstExpr 2]]; agg "count_rows" []]
      [out "min" 5%Z; out "count_rows" 6%Z] [arg; grouping] false None zero)
    as [[[[built left] s] oc]|msg] eqn:Hrun; [|vm_compute in Hrun; discriminate].
  pose proof (buildAggregations_spec _ _ _ _ _ _ _ _ _ _ _ Hrun) as (_ & _ & Hid & _).
  vm_compute in Hrun. injection Hrun as <- <- <- <-.
  eexists. split; [reflexivity|]. split; [exact Hid | reflexivity].
Defined.

End optbuilder.

(* ===================================================================== *)
(** * pkg/sql/opt/norm/inline.go                                          *)
(* ===================================================================== *)
Module norm.
Import opt memo.

(** [opt.IsConstValueOp] (opt/operator.go, not among the sources; the
    comment of [FindInlinableConstants] lists the operators): ConstOp,
    TrueOp, FalseOp or NullOp. *)
Definition IsConstValueOp (e : Expr) : bool :=
  match e with
  | ConstExpr _ | TrueExpr | FalseExpr | NullExpr => true
  | _ => false
  end.

(** [func (c *CustomFuncs) FindInlinableConstants(input) opt.ColSet].  The
    single row of a Values operator is read along the column list; for a
    constant past the end of the list, where [values.Cols[i]] is a run-time
    panic, nothing is reported here, and what is proved about the constants
    of a Values operator is stated for rows that are no longer than the
    column list. *)
Definition FindInlinableConstants (input : RelExpr) : ColSet :=
  match input with
  | ProjectExpr _ projections _ =>
      fold_left (fun cols item =>
                   if IsConstValueOp (Element item) then Add cols (Col item) else cols)
                projections zero
  | ValuesExpr [tup] vcols =>
      fold_left (fun cols '(scalar, col) =>
                   if IsConstValueOp scalar then Add cols col else cols)
                (zip tup vcols) zero
  | _ => zero
  end.

(** The loop of [extractColumn] over the elements of the single row of a
    Values operator; [values.Cols[i]] is a run-time panic past the end of
    [Cols]. *)
Fixpoint extractFromRow (elems : list Expr) (vcols : list ColumnID) (col : ColumnID)
  : result Expr :=
  match elems with
  | [] => Panic "could not find column to extract"
  | scalar :: elems' =>
      match vcols with
      | [] => Panic "index out of range"
      | c :: vcols' =>
          if bool_decide (c = col) then Ok scalar
          else extractFromRow elems' vcols' col
      end
  end.

(** [func (c *CustomFuncs) extractColumn(input, col) opt.ScalarExpr] *)
Definition extractColumn (input : RelExpr) (col : ColumnID) : result Expr :=
  match input with
  | ProjectExpr _ projections _ =>
      match List.find (fun item => bool_decide (Col item = col)) projections with
      | Some item => Ok (Element item)
      | None => Panic "could not find column to extract"
      end
  | ValuesExpr [tup] vcols => extractFromRow tup vcols col
  | _ => Panic "could not find column to extract"
  end.

(** [func (c *CustomFuncs) inlineConstants(e, input, constCols) opt.Expr].
    The closure [replace] answers for a variable itself and hands every
    other expression to [c.f.Replace(e, replace)] (norm/factory.go, not
    among the sources), which calls [replace] on each child from left to
    right and rebuilds the node around the results. *)
Fixpoint inlineConstants (input : RelExpr) (constCols : ColSet) (e : Expr)
  : result Expr :=
  match e with
  | VariableExpr col =>
      if Contains constCols col then extractColumn input col else Ok e
  | OpExpr op children =>
      children' ←
        (fix replaceAll (l : list Expr) : result (list Expr) :=
           match l with
           | [] => Ok []
           | c :: l' =>
               c' ← inlineConstants input constCols c;
               l'' ← replaceAll l';
               Ok (c' :: l'')
           end) children;
      Ok (OpExpr op children')
  | _ => Ok e
  end.

(** The children loop of [Replace], by name. *)
Fixpoint replaceAll (input : RelExpr) (constCols : ColSet) (l : list Expr)
  : result (list Expr) :=
  match l with
  | [] => Ok []
  | c :: l' =>
      c' ← inlineConstants input constCols c;
      l'' ← replaceAll input constCols l';
      Ok (c' :: l'')
  end.

(** [func (c *CustomFuncs) InlineFilterConstants(filters, input, constCols)] *)
Fixpoint InlineFilterConstants (filters : list FiltersItem) (input : RelExpr)
    (constCols : ColSet) : result (list FiltersItem) :=
  match filters with
  | [] => Ok []
  | item :: rest =>
      cond ← inlineConstants input constCols (Condition item);
      rest' ← InlineFilterConstants rest input constCols;
      Ok ({| Condition := cond |} :: rest')
  end.

(** [func (c *CustomFuncs) InlineProjectionConstants(projections, input,
    constCols)] *)
Fixpoint InlineProjectionConstants (projections : list ProjectionsItem)
    (input : RelExpr) (constCols : ColSet) : result (list ProjectionsItem) :=
  match projections with
  | [] => Ok []
  | item :: rest =>
      el ← inlineConstants input constCols (Element item);
      rest' ← InlineProjectionConstants rest input constCols;
      Ok ({| Element := el; Col := Col item |} :: rest')
  end.

(** ** What the claims speak about *)

(** The columns an expression refers to, in the order [replace] meets them. *)
Fixpoint vars (e : Expr) : list ColumnID :=
  match e with
  | VariableExpr col => [col]
  | OpExpr _ children =>
      (fix varsAll (l : list Expr) : list ColumnID :=
         match l with
         | [] => []
         | c :: l' => vars c ++ varsAll l'
         end) children
  | _ => []
  end.

Fixpoint varsAll (l : list Expr) : list ColumnID :=
  match l with
  | [] => []
  | c :: l' => vars c ++ varsAll l'
  end.

(** The spec's words, "replacing every variable reference to a column in
    constCols with that column's defining constant expression", as a
    substitution: [defn col] is the defining expression of [col]. *)
Fixpoint replaceVars (constCols : ColSet) (defn : ColumnID -> Expr) (e : Expr) : Expr :=
  match e with
  | VariableExpr col => if Contains constCols col then defn col else e
  | OpExpr op children => OpExpr op (List.map (replaceVars constCols defn) children)
  | _ => e
  end.

(** Modelled from the spec: the values of scalar expressions on a row (the
    evaluator is not among the sources), enough to say that a filter lets
    the same rows pass: integers, booleans and NULL, with the comparison,
    arithmetic and boolean operators of [CanInline]; an operator applied to
    NULL or to values of the wrong kind yields NULL. *)
Inductive Datum : Type := DInt (z : Z) | DBool (b : bool) | DNull.

Definition evalOp (op : Operator) (args : list Datum) : Datum :=
  match op, args with
  | EqOp, [DInt a; DInt b] => DBool (a =? b)%Z
  | NeOp, [DInt a; DInt b] => DBool (negb (a =? b)%Z)
  | LtOp, [DInt a; DInt b] => DBool (a <? b)%Z
  | LeOp, [DInt a; DInt b] => DBool (a <=? b)%Z
  | GtOp, [DInt a; DInt b] => DBool (b <? a)%Z
  | GeOp, [DInt a; DInt b] => DBool (b <=? a)%Z
  | PlusOp, [DInt a; DInt b] => DInt (a + b)
  | MinusOp, [DInt a; DInt b] => DInt (a - b)
  | MultOp, [DInt a; DInt b] => DInt (a * b)
  | AndOp, [DBool a; DBool b] => DBool (a && b)
  | OrOp, [DBool a; DBool b] => DBool (a || b)
  | NotOp, [DBool a] => DBool (negb a)
  | _, _ => DNull
  end.

Fixpoint eval (row : ColumnID -> Datum) (e : Expr) : Datum :=
  match e with
  | VariableExpr col => row col
  | ConstExpr v => DInt v
  | TrueExpr => DBool true
  | FalseExpr => DBool false
  | NullExpr => DNull
  | OpExpr op children => evalOp op (List.map (eval row) children)
  end.

(** A row passes a filter when the filter evaluates to true on it. *)
Definition passes (row : ColumnID -> Datum) (filter : Expr) : bool :=
  match eval row filter with DBool true => true | _ => false end.

(** Project{a: 5, b: x+1} feeding Select{filter: a = 5}, with a, b and x the
    columns 1, 2 and 3. *)
Definition exampleProject : RelExpr :=
  ProjectExpr (OtherRelExpr 0)
    [ {| Element := ConstExpr 5; Col := 1 |};
      {| Element := OpExpr PlusOp [VariableExpr 3; ConstExpr 1]; Col := 2 |} ]
    zero.
Definition exampleFilter : Expr := OpExpr EqOp [VariableExpr 1; ConstExpr 5].

(** ** Properties of inlineConstants *)

Lemma inlineConstants_OpExpr input constCols op children :
  inlineConstants input constCols (OpExpr op children) =
  (children' ← replaceAll input constCols children; Ok (OpExpr op children')).
Proof.
  simpl. f_equal.
  induction children as [|c l IH]; simpl; [reflexivity|]. rewrite IH. reflexivity.
Qed.

Lemma inlineConstants_Variable input constCols col :
  Contains constCols col = true ->
  inlineConstants input constCols (VariableExpr col) = extractColumn input col.
Proof. intros Hc. simpl. rewrite Hc. reflexivity. Qed.

Lemma vars_OpExpr op children : vars (OpExpr op children) = varsAll children.
Proof.
  simpl. induction children as [|c l IH]; simpl; [reflexivity|].
  rewrite IH. reflexivity.
Qed.

Section Inline.
Variables (input : RelExpr) (constCols : ColSet).

(** The column is a claimed constant whose definition [extractColumn] finds. *)
Definition found (defn : ColumnID -> Expr) (col : ColumnID) : Prop :=
  Contains constCols col = true -> extractColumn input col = Ok (defn col).

(** The column is a claimed constant that [extractColumn] does not find. *)
Definition missing (col : ColumnID) : Prop :=
  Contains constCols col = true /\ is_Ok (extractColumn input col) = false.

Lemma inlineConstants_replaceVars defn e :
  Forall (found defn) (vars e) ->
  inlineConstants input constCols e = Ok (replaceVars constCols defn e).
Proof.
  induction e as [c|v| | | |op cs IH] using Expr_ind'; intros Hall;
    try reflexivity.
  - simpl in *. destruct (Contains constCols c) eqn:Hc; [|reflexivity].
    apply Forall_cons in Hall as [Hf _]. exact (Hf Hc).
  - rewrite inlineConstants_OpExpr. rewrite vars_OpExpr in Hall. simpl.
    enough (Hcs : replaceAll input constCols cs =
                  Ok (List.map (replaceVars constCols defn) cs))
      by (rewrite Hcs; reflexivity).
    induction IH as [|c l Hc _ IHl]; simpl in *; [reflexivity|].
    apply Forall_app in Hall as [H1 H2].
    rewrite (Hc H1). simpl. rewrite (IHl H2). reflexivity.
Qed.

Lemma inlineConstants_missing e :
  Exists missing (vars e) ->
  is_Ok (inlineConstants input constCols e) = false.
Proof.
  induction e as [c|v| | | |op cs IH] using Expr_ind'; intros Hex;
    try (simpl in Hex; apply Exists_nil in Hex; contradiction).
  - simpl in *. apply Exists_cons in Hex as [[Hc Hm]|Hex];
      [| apply Exists_nil in Hex; contradiction].
    rewrite Hc. exact Hm.
  - rewrite inlineConstants_OpExpr. rewrite vars_OpExpr in Hex.
    enough (Hcs : is_Ok (replaceAll input constCols cs) = false)
      by (destruct (replaceAll input constCols cs); [discriminate | reflexivity]).
    induction IH as [|c l Hc _ IHl]; simpl in *.
    + apply Exists_nil in Hex. contradiction.
    + apply Exists_app in Hex as [H1|H2].
      * specialize (Hc H1).
        destruct (inlineConstants input constCols c); [discriminate | reflexivity].
      * specialize (IHl H2).
        destruct (inlineConstants input constCols c); simpl; [|reflexivity].
        destruct (replaceAll input constCols l); [discriminate | reflexivity].
Qed.

Lemma replaceVars_unchanged defn e :
  Forall (fun col => Contains constCols col = false) (vars e) ->
  replaceVars constCols defn e = e.
Proof.
  induction e as [c|v| | | |op cs IH] using Expr_ind'; intros Hall;
    try reflexivity.
  - simpl in *. apply Forall_cons in Hall as [-> _]. reflexivity.
  - rewrite vars_OpExpr in Hall. simpl. f_equal.
    induction IH as [|c l Hc _ IHl]; simpl in *; [reflexivity|].
    apply Forall_app in Hall as [H1 H2]. rewrite (Hc H1), (IHl H2). reflexivity.
Qed.

Lemma eval_replaceVars row defn e :
  Forall (fun col => Contains constCols col = true ->
                     eval row (defn col) = row col) (vars e) ->
  eval row (replaceVars constCols defn e) = eval row e.
Proof.
  induction e as [c|v| | | |op cs IH] using Expr_ind'; intros Hall;
    try reflexivity.
  - simpl in *. apply Forall_cons in Hall as [Hc _].
    destruct (Contains constCols c); [apply Hc; reflexivity | reflexivity].
  - rewrite vars_OpExpr in Hall. simpl. f_equal. rewrite List.map_map.
    induction IH as [|c l Hc _ IHl]; simpl in *; [reflexivity|].
    apply Forall_app in Hall as [H1 H2]. rewrite (Hc H1), (IHl H2). reflexivity.
Qed.

End Inline.

Lemma extractColumn_Project inp projections passthrough col :
  extractColumn (ProjectExpr inp projections passthrough) col =
  match List.find (fun item => bool_decide (Col item = col)) projections with
  | Some item => Ok (Element item)
  | None => Panic "could not find column to extract"
  end.
Proof. reflexivity. Qed.

Lemma extractColumn_Project_missing inp projections passthrough col :
  col ∉ List.map Col projections ->
  extractColumn (ProjectExpr inp projections passthrough) col =
  Panic "could not find column to extract".
Proof.
  intros Hnot. rewrite extractColumn_Project.
  destruct (List.find _ projections) as [item|] eqn:Hf; [|reflexivity].
  exfalso. apply List.find_some in Hf as [Hin Heq].
  apply bool_decide_eq_true in Heq. apply Hnot. subst col.
  apply list_elem_of_In, List.in_map, Hin.
Qed.

(** ** The defining expression of a column *)

(** The spec's words, "that column's defining constant expression, looked
    up by scanning the input operator's projection/row": [d] is the element
    of the first projection of a Project that has the column, or the
    element of the single row of a Values operator at the first position of
    the column in the column list.  No other operator defines a column. *)
Definition defines (input : RelExpr) (col : ColumnID) (d : Expr) : Prop :=
  match input with
  | ProjectExpr _ projections _ =>
      exists i item,
        projections !! i = Some item /\ Col item = col /\ Element item = d /\
        forall j item', j < i -> projections !! j = Some item' -> Col item' <> col
  | ValuesExpr [tup] vcols =>
      exists i,
        vcols !! i = Some col /\ tup !! i = Some d /\
        forall j, j < i -> vcols !! j <> Some col
  | _ => False
  end.

(** What the search panics with when it finds nothing: the assertion of
    [extractColumn], unless the single row of a Values operator is longer
    than its column list, where [values.Cols[i]] runs out first. *)
Definition lookupFailure (input : RelExpr) : string :=
  match input with
  | ValuesExpr [tup] vcols =>
      if length vcols <? length tup then "index out of range"
      else "could not find column to extract"
  | _ => "could not find column to extract"
  end.

(** The column is a claimed constant that the input does not define. *)
Definition undefined (input : RelExpr) (constCols : ColSet) (col : ColumnID) : Prop :=
  Contains constCols col = true /\ forall d, ~ defines input col d.

Lemma find_first {A : Type} (P : A -> bool) (l : list A) (x : A) :
  List.find P l = Some x <->
  exists i, l !! i = Some x /\ P x = true /\
            forall j y, j < i -> l !! j = Some y -> P y = false.
Proof.
  induction l as [|a l IH]; simpl.
  - split; [discriminate|]. intros (i & Hi & _). destruct i; discriminate.
  - destruct (P a) eqn:Ha.
    + split.
      * intros [= <-]. exists 0. split; [reflexivity|]. split; [exact Ha|].
        intros j y Hj. lia.
      * intros (i & Hi & Hx & Hfirst). destruct i as [|i].
        -- simpl in Hi. congruence.
        -- specialize (Hfirst 0 a ltac:(lia) eq_refl). congruence.
    + rewrite IH. split.
      * intros (i & Hi & Hx & Hfirst). exists (S i). split; [exact Hi|].
        split; [exact Hx|]. intros [|j] y Hj Hy.
        -- simpl in Hy. congruence.
        -- apply (Hfirst j y); [lia | exact Hy].
      * intros (i & Hi & Hx & Hfirst). destruct i as [|i].
        -- simpl in Hi. congruence.
        -- exists i. split; [exact Hi|]. split; [exact Hx|].
           intros j y Hj Hy. apply (Hfirst (S j) y); [lia | exact Hy].
Qed.

Lemma extractFromRow_Ok tup : forall vcols col d,
  extractFromRow tup vcols col = Ok d <->
  exists i, vcols !! i = Some col /\ tup !! i = Some d /\
            forall j, j < i -> vcols !! j <> Some col.
Proof.
  induction tup as [|scalar tup IH]; intros vcols col d; simpl.
  - split; [discriminate|]. intros (i & _ & Hi & _). destruct i; discriminate.
  - destruct vcols as [|c vcols].
    + split; [discriminate|]. intros (i & Hi & _). destruct i; discriminate.
    + destruct (bool_decide (c = col)) eqn:Hc.
      * apply bool_decide_eq_true in Hc. subst c. split.
        -- intros [= <-]. exists 0. split; [reflexivity|]. split; [reflexivity|].
           intros j Hj. lia.
        -- intros (i & Hi & Hd & Hfirst). destruct i as [|i].
           ++ simpl in Hd. congruence.
           ++ exfalso. apply (Hfirst 0); [lia | reflexivity].
      * apply bool_decide_eq_false in Hc. rewrite IH. split.
        -- intros (i & Hi & Hd & Hfirst). exists (S i). split; [exact Hi|].
           split; [exact Hd|]. intros [|j] Hj; simpl.
           ++ congruence.
           ++ apply Hfirst. lia.
        -- intros (i & Hi & Hd & Hfirst). destruct i as [|i].
           ++ simpl in Hi. congruence.
           ++ exists i. split; [exact Hi|]. split; [exact Hd|].
              intros j Hj. apply (Hfirst (S j)). lia.
Qed.

Lemma extractFromRow_Panic tup : forall vcols col msg,
  extractFromRow tup vcols col = Panic msg ->
  msg = if length vcols <? length tup then "index out of range"
        else "could not find column to extract".
Proof.
  induction tup as [|scalar tup IH]; intros vcols col msg; simpl.
  - intros [= <-]. destruct vcols; reflexivity.
  - destruct vcols as [|c vcols]; [intros [= <-]; reflexivity|].
    destruct (bool_decide (c = col)); [discriminate|].
    intros H. apply IH in H. exact H.
Qed.

(** [extractColumn] returns the defining expression of the column, and
    nothing else. *)
Lemma extractColumn_defines input col d :
  extractColumn input col = Ok d <-> defines input col d.
Proof.
  destruct input as [inp projections pt|rows vcols| | | |]; simpl;
    try (split; [discriminate | contradiction]).
  - destruct (List.find _ projections) as [item|] eqn:Hf.
    + apply find_first in Hf as (i & Hi & Hc & Hfirst).
      apply bool_decide_eq_true in Hc. split.
      * intros [= <-]. exists i, item. repeat split; try assumption.
        intros j item' Hj Hitem'. specialize (Hfirst j item' Hj Hitem').
        apply bool_decide_eq_false in Hfirst. exact Hfirst.
      * intros (i' & item' & Hi' & Hc' & Hd & Hfirst'). f_equal.
        destruct (Nat.lt_trichotomy i i') as [Hlt|[->|Hgt]].
        -- exfalso. exact (Hfirst' i item Hlt Hi Hc).
        -- congruence.
        -- exfalso. specialize (Hfirst i' item' Hgt Hi').
           apply bool_decide_eq_false in Hfirst. contradiction.
    + split; [discriminate|].
      intros (i & item & Hi & Hc & _). exfalso.
      apply list_elem_of_lookup_2, list_elem_of_In in Hi.
      pose proof (List.find_none _ _ Hf item Hi) as Hn. simpl in Hn.
      apply bool_decide_eq_false in Hn. contradiction.
  - destruct rows as [|tup [|row2 rows]];
      try (split; [discriminate | contradiction]).
    apply extractFromRow_Ok.
Qed.

Lemma extractColumn_Panic input col msg :
  extractColumn input col = Panic msg -> msg = lookupFailure input.
Proof.
  destruct input as [inp projections pt|rows vcols| | | |]; simpl;
    try (intros [= <-]; reflexivity).
  - destruct (List.find _ projections); [discriminate | intros [= <-]; reflexivity].
  - destruct rows as [|tup [|row2 rows]]; try (intros [= <-]; reflexivity).
    apply extractFromRow_Panic.
Qed.

Lemma extractColumn_undefined input col :
  (forall d, ~ defines input col d) ->
  extractColumn input col = Panic (lookupFailure input).
Proof.
  intros Hnone. destruct (extractColumn input col) as [d|msg] eqn:Hrun.
  - exfalso. apply (Hnone d), extractColumn_defines, Hrun.
  - f_equal. eapply extractColumn_Panic, Hrun.
Qed.

(** Whatever [inlineConstants] panics with, it is the failure of a
    search. *)
Lemma inlineConstants_Panic input constCols e msg :
  inlineConstants input constCols e = Panic msg -> msg = lookupFailure input.
Proof.
  revert msg.
  induction e as [c|v| | | |op cs IH] using Expr_ind'; intros msg;
    try discriminate.
  - simpl. destruct (Contains constCols c); [apply extractColumn_Panic | discriminate].
  - rewrite inlineConstants_OpExpr.
    destruct (replaceAll input constCols cs) as [cs'|msg'] eqn:Hcs; simpl;
      [discriminate|].
    intros [= <-]. revert msg' Hcs.
    induction IH as [|c l Hc _ IHl]; intros msg' Hcs; simpl in Hcs; [discriminate|].
    destruct (inlineConstants input constCols c) as [c'|m] eqn:Hrun; simpl in Hcs.
    + destruct (replaceAll input constCols l) as [l'|m] eqn:Hl; simpl in Hcs;
        [discriminate|].
      injection Hcs as <-. apply (IHl m eq_refl).
    + injection Hcs as <-. apply (Hc m eq_refl).
Qed.

(** C4. [inlineConstants] replaces every variable that refers to a column
    of constCols by that column's defining expression, found by scanning
    the input: the element of the first projection of a Project that has
    the column, or the element of the single row of a Values operator at
    the first position of the column ([extractColumn] returns exactly
    this).  Everything else is left as it is: the result is the
    substitution of the defining expressions, an expression without such a
    variable is returned unchanged, and the value of the expression on a
    row that gives each inlined column the value of its defining expression
    is the same before and after.  When the input does not define a column
    of constCols that the expression refers to, it panics, with
    "could not find column to extract" (for a row of a Values operator
    that is longer than the column list the index into the list fails
    first).  For Project{a: 5, b: x+1} feeding Select{filter: a = 5} the
    inlinable constants are {a}, the filter becomes 5 = 5, and every row of
    the projection (a = 5) passes both; the same for Values (5, x) AS
    (a, b). *)
Theorem inlineConstants_spec (input : RelExpr) (constCols : ColSet) (e : Expr) :
  (forall col d, extractColumn input col = Ok d <-> defines input col d) /\
  (forall col, (forall d, ~ defines input col d) ->
     extractColumn input col = Panic (lookupFailure input)) /\
  (forall col, Contains constCols col = true ->
     inlineConstants input constCols (VariableExpr col) = extractColumn input col) /\
  (forall col d, Contains constCols col = true -> defines input col d ->
     inlineConstants input constCols (VariableExpr col) = Ok d) /\
  (forall defn,
     Forall (fun col => Contains constCols col = true -> defines input col (defn col))
            (vars e) ->
     inlineConstants input constCols e = Ok (replaceVars constCols defn e) /\
     forall row,
       Forall (fun col => Contains constCols col = true ->
                          eval row (defn col) = row col) (vars e) ->
       eval row (replaceVars constCols defn e) = eval row e /\
       passes row (replaceVars constCols defn e) = passes row e) /\
  (Forall (fun col => Contains constCols col = false) (vars e) ->
     inlineConstants input constCols e = Ok e) /\
  (Exists (undefined input constCols) (vars e) ->
     inlineConstants input constCols e = Panic (lookupFailure input)) /\
  (forall inp projections passthrough col,
     Contains constCols col = true ->
     col ∉ List.map Col projections ->
     inlineConstants (ProjectExpr inp projections passthrough) constCols
                     (VariableExpr col)
       = Panic "could not find column to extract") /\
  (FindInlinableConstants exampleProject = MakeColSet [1%Z] /\
   inlineConstants exampleProject (FindInlinableConstants exampleProject)
                   exampleFilter
     = Ok (OpExpr EqOp [ConstExpr 5; ConstExpr 5]) /\
   InlineFilterConstants [ {| Condition := exampleFilter |} ] exampleProject
                         (FindInlinableConstants exampleProject)
     = Ok [ {| Condition := OpExpr EqOp [ConstExpr 5; ConstExpr 5] |} ] /\
   inlineConstants (ValuesExpr [[ConstExpr 5; VariableExpr 3]] [1%Z; 2%Z])
                   (MakeColSet [1%Z]) exampleFilter
     = Ok (OpExpr EqOp [ConstExpr 5; ConstExpr 5]) /\
   forall row, row 1%Z = DInt 5 ->
     passes row exampleFilter = true /\
     passes row (OpExpr EqOp [ConstExpr 5; ConstExpr 5]) = true).
Proof.
  assert (Hfound : forall defn,
            Forall (fun col => Contains constCols col = true ->
                               defines input col (defn col)) (vars e) ->
            Forall (found input constCols defn) (vars e)).
  { intros defn Hall. eapply Forall_impl; [exact Hall|].
    intros col Hcol Hc. apply extractColumn_defines, Hcol, Hc. }
  split; [| split; [| split; [| split; [| split; [| split; [| split; [| split]]]]]]].
  - intros col d. apply extractColumn_defines.
  - intros col. apply extractColumn_undefined.
  - apply inlineConstants_Variable.
  - intros col d Hc Hd. rewrite (inlineConstants_Variable _ _ _ Hc).
    apply extractColumn_defines, Hd.
  - intros defn Hall. split; [apply inlineConstants_replaceVars, Hfound, Hall|].
    intros row Hrow. pose proof (eval_replaceVars constCols row defn e Hrow) as He.
    split; [exact He | unfold passes; rewrite He; reflexivity].
  - intros Hnone.
    rewrite (inlineConstants_replaceVars input constCols (fun c => VariableExpr c)).
    + f_equal. apply replaceVars_unchanged, Hnone.
    + eapply Forall_impl; [exact Hnone|]. intros c Hc Hc'. congruence.
  - intros Hex.
    assert (Hmiss : Exists (missing input constCols) (vars e)).
    { eapply Exists_impl; [exact Hex|]. intros col [Hc Hnone].
      split; [exact Hc|]. rewrite (extractColumn_undefined _ _ Hnone). reflexivity. }
    apply inlineConstants_missing in Hmiss.
    destruct (inlineConstants input constCols e) as [e'|msg] eqn:Hrun;
      [discriminate|].
    f_equal. eapply inlineConstants_Panic, Hrun.
  - intros inp projections passthrough col Hc Hnot.
    rewrite (inlineConstants_Variable _ _ _ Hc).
    apply extractColumn_Project_missing, Hnot.
  - assert (Hcols : FindInlinableConstants exampleProject = MakeColSet [1%Z]).
    { reflexivity. }
    split; [exact Hcols|]. rewrite Hcols.
    split; [reflexivity|]. split; [reflexivity|]. split; [reflexivity|].
    intros row Hrow. unfold passes, exampleFilter; simpl. rewrite Hrow.
    split; reflexivity.
Qed.

(* --------------------------------------------------------------------- *)
(** ** The constants FindInlinableConstants reports                        *)
(* --------------------------------------------------------------------- *)

(** No row of a Values operator is longer than its column list.  The memo
    builds both from the same select list; past the end of [Cols],
    [values.Cols[i]] is a run-time panic in [FindInlinableConstants] as in
    [extractColumn]. *)
Definition rowsFitCols (input : RelExpr) : Prop :=
  match input with
  | ValuesExpr rows vcols => Forall (fun row => length row <= length vcols) rows
  | _ => True
  end.

(** Every column the operator synthesizes has an id of its own (the
    metadata allocates one id per synthesized column). *)
Definition distinctCols (input : RelExpr) : Prop :=
  match input with
  | ProjectExpr _ projections _ => NoDup (List.map Col projections)
  | ValuesExpr _ vcols => NoDup vcols
  | _ => True
  end.

(** The two loops of [FindInlinableConstants]. *)
Definition constProjections (projections : list ProjectionsItem) (acc : ColSet) : ColSet :=
  fold_left (fun cols item =>
               if IsConstValueOp (Element item) then Add cols (Col item) else cols)
            projections acc.

Definition constElems (elems : list (Expr * ColumnID)) (acc : ColSet) : ColSet :=
  fold_left (fun cols '(scalar, col) =>
               if IsConstValueOp scalar then Add cols col else cols)
            elems acc.

Lemma Contains_Add_true (s : ColSet) (c x : ColumnID) :
  Contains (Add s c) x = true <-> x = c \/ Contains s x = true.
Proof.
  rewrite Contains_Add, orb_true_iff, bool_decide_eq_true. reflexivity.
Qed.

Lemma constProjections_Contains projections : forall acc col,
  Contains (constProjections projections acc) col = true <->
  Contains acc col = true \/
  Exists (fun item => IsConstValueOp (Element item) = true /\ Col item = col)
         projections.
Proof.
  induction projections as [|item rest IH]; intros acc col; simpl.
  - rewrite Exists_nil. tauto.
  - unfold constProjections in *. simpl. rewrite IH, Exists_cons.
    destruct (IsConstValueOp (Element item)) eqn:Hc.
    + rewrite Contains_Add_true. intuition congruence.
    + intuition congruence.
Qed.

Lemma constElems_Contains elems : forall acc col,
  Contains (constElems elems acc) col = true <->
  Contains acc col = true \/
  Exists (fun '(scalar, c) => IsConstValueOp scalar = true /\ c = col) elems.
Proof.
  induction elems as [|[scalar c] rest IH]; intros acc col; simpl.
  - rewrite Exists_nil. tauto.
  - unfold constElems in *. simpl. rewrite IH, Exists_cons.
    destruct (IsConstValueOp scalar) eqn:Hc.
    + rewrite Contains_Add_true. intuition congruence.
    + intuition congruence.
Qed.

Lemma find_Col_Exists projections col (P : ProjectionsItem -> Prop) :
  Exists (fun item => P item /\ Col item = col) projections ->
  exists item,
    List.find (fun item => bool_decide (Col item = col)) projections = Some item.
Proof.
  induction 1 as [item rest [_ Hc]|item rest _ [found IH]]; simpl.
  - rewrite bool_decide_eq_true_2 by exact Hc. eauto.
  - destruct (bool_decide (Col item = col)); eauto.
Qed.

Lemma find_Col_const projections col :
  NoDup (List.map Col projections) ->
  Exists (fun item => IsConstValueOp (Element item) = true /\ Col item = col)
         projections ->
  exists item,
    List.find (fun item => bool_decide (Col item = col)) projections = Some item /\
    IsConstValueOp (Element item) = true.
Proof.
  induction projections as [|item rest IH]; intros Hnd Hex.
  - apply Exists_nil in Hex. contradiction.
  - simpl in *. apply NoDup_cons in Hnd as [Hnot Hnd].
    destruct (bool_decide (Col item = col)) eqn:Hc.
    + apply bool_decide_eq_true in Hc.
      apply Exists_cons in Hex as [[Hconst _]|Hex]; [eauto|].
      exfalso. apply Hnot. apply Exists_exists in Hex as (it & Hin & _ & Heq).
      rewrite Hc, <- Heq. apply list_elem_of_In, List.in_map, list_elem_of_In, Hin.
    + apply bool_decide_eq_false in Hc.
      apply Exists_cons in Hex as [[_ Heq]|Hex]; [contradiction|].
      apply IH; assumption.
Qed.

Lemma extractFromRow_Exists tup : forall vcols col,
  Exists (fun '(scalar, c) => IsConstValueOp scalar = true /\ c = col)
         (zip tup vcols) ->
  exists e, extractFromRow tup vcols col = Ok e.
Proof.
  induction tup as [|scalar tup IH]; intros [|c vcols] col Hex; simpl in *;
    try (apply Exists_nil in Hex; contradiction).
  destruct (bool_decide (c = col)) eqn:Hc; [eauto|].
  apply bool_decide_eq_false in Hc.
  apply Exists_cons in Hex as [[_ Heq]|Hex]; [contradiction|].
  apply IH, Hex.
Qed.

Lemma extractFromRow_const tup : forall vcols col,
  NoDup vcols ->
  Exists (fun '(scalar, c) => IsConstValueOp scalar = true /\ c = col)
         (zip tup vcols) ->
  exists e, extractFromRow tup vcols col = Ok e /\ IsConstValueOp e = true.
Proof.
  induction tup as [|scalar tup IH]; intros [|c vcols] col Hnd Hex; simpl in *;
    try (apply Exists_nil in Hex; contradiction).
  apply NoDup_cons in Hnd as [Hnot Hnd].
  destruct (bool_decide (c = col)) eqn:Hc.
  - apply bool_decide_eq_true in Hc.
    apply Exists_cons in Hex as [[Hconst _]|Hex]; [eauto|].
    exfalso. apply Hnot. apply Exists_exists in Hex as ([s c'] & Hin & _ & Heq).
    subst. apply elem_of_zip_r in Hin. exact Hin.
  - apply bool_decide_eq_false in Hc.
    apply Exists_cons in Hex as [[_ Heq]|Hex]; [contradiction|].
    apply IH; assumption.
Qed.

(** [extractColumn] finds every column [FindInlinableConstants] reports. *)
Lemma extractColumn_constCols input col :
  Contains (FindInlinableConstants input) col = true ->
  exists e, extractColumn input col = Ok e.
Proof.
  destruct input as [inp projections pt|rows vcols| | | |]; simpl;
    try (rewrite Contains_zero; discriminate).
  - fold (constProjections projections zero).
    rewrite constProjections_Contains, Contains_zero.
    intros [Hz|Hex]; [discriminate|].
    destruct (find_Col_Exists _ _ _ Hex) as [item ->]. eauto.
  - destruct rows as [|tup [|row2 rows]];
      try (rewrite Contains_zero; discriminate).
    fold (constElems (zip tup vcols) zero).
    rewrite constElems_Contains, Contains_zero.
    intros [Hz|Hex]; [discriminate|].
    apply extractFromRow_Exists, Hex.
Qed.

(** When column ids are distinct, what it finds is a constant. *)
Lemma extractColumn_constCols_const input col :
  distinctCols input ->
  Contains (FindInlinableConstants input) col = true ->
  exists e, extractColumn input col = Ok e /\ IsConstValueOp e = true.
Proof.
  destruct input as [inp projections pt|rows vcols| | | |]; simpl;
    try (intros _; rewrite Contains_zero; discriminate).
  - intros Hnd. fold (constProjections projections zero).
    rewrite constProjections_Contains, Contains_zero.
    intros [Hz|Hex]; [discriminate|].
    destruct (find_Col_const _ _ Hnd Hex) as (item & -> & Hconst). eauto.
  - intros Hnd. destruct rows as [|tup [|row2 rows]];
      try (rewrite Contains_zero; discriminate).
    fold (constElems (zip tup vcols) zero).
    rewrite constElems_Contains, Contains_zero.
    intros [Hz|Hex]; [discriminate|].
    apply extractFromRow_const; assumption.
Qed.

(** The expression [extractColumn] finds for a column, the variable itself
    where it finds none. *)
Definition definition (input : RelExpr) (col : ColumnID) : Expr :=
  match extractColumn input col with
  | Ok e => e
  | Panic _ => VariableExpr col
  end.

Lemma found_definition input e :
  Forall (found input (FindInlinableConstants input) (definition input)) (vars e).
Proof.
  apply Forall_forall. intros col _ Hc. unfold definition.
  destruct (extractColumn_constCols input col Hc) as [d ->]. reflexivity.
Qed.

Lemma IsConstValueOp_vars e : IsConstValueOp e = true -> vars e = [].
Proof. destruct e; simpl; try discriminate; reflexivity. Qed.

Lemma vars_replaceVars constCols defn e :
  (forall col, Contains constCols col = true -> vars (defn col) = []) ->
  Forall (fun col => Contains constCols col = false)
         (vars (replaceVars constCols defn e)).
Proof.
  intros Hdef.
  induction e as [c|v| | | |op cs IH] using Expr_ind'; simpl; try constructor.
  - destruct (Contains constCols c) eqn:Hc.
    + rewrite (Hdef c Hc). constructor.
    + simpl. repeat constructor. exact Hc.
  - fold (replaceVars constCols defn).
    change (Forall (fun col => Contains constCols col = false)
              (vars (OpExpr op (List.map (replaceVars constCols defn) cs)))).
    rewrite vars_OpExpr.
    induction IH as [|c l Hc _ IHl]; simpl; [constructor|].
    apply Forall_app. split; assumption.
Qed.

Lemma inlineConstants_unchanged input constCols e :
  Forall (fun col => Contains constCols col = false) (vars e) ->
  inlineConstants input constCols e = Ok e.
Proof.
  intros Hnone.
  rewrite (inlineConstants_replaceVars input constCols (fun c => VariableExpr c)).
  - f_equal. apply replaceVars_unchanged, Hnone.
  - eapply Forall_impl; [exact Hnone|]. intros c Hc Hc'. congruence.
Qed.

Lemma InlineFilterConstants_Ok input constCols filters :
  (forall e, exists e', inlineConstants input constCols e = Ok e') ->
  exists fs, InlineFilterConstants filters input constCols = Ok fs /\
             length fs = length filters.
Proof.
  intros Hok. induction filters as [|item rest (fs & IH & Hlen)]; simpl; [eauto|].
  destruct (Hok (Condition item)) as [c ->]. simpl. rewrite IH. simpl.
  eexists. split; [reflexivity|]. simpl. rewrite Hlen. reflexivity.
Qed.

Lemma InlineProjectionConstants_Ok input constCols projections :
  (forall e, exists e', inlineConstants input constCols e = Ok e') ->
  exists ps, InlineProjectionConstants projections input constCols = Ok ps /\
             List.map Col ps = List.map Col projections.
Proof.
  intros Hok. induction projections as [|item rest (ps & IH & Hcols)]; simpl; [eauto|].
  destruct (Hok (Element item)) as [c ->]. simpl. rewrite IH. simpl.
  eexists. split; [reflexivity|]. simpl. rewrite Hcols. reflexivity.
Qed.

(** X8. For an input whose rows are no longer than its column list,
    inlining the constants that [FindInlinableConstants] reports for the
    input into expressions over that input never fails: [extractColumn]
    finds every reported column, so [inlineConstants],
    [InlineFilterConstants] and [InlineProjectionConstants] return, the
    filters keep their number and the projections their columns, in
    order. *)
Theorem FindInlinableConstants_inlines (input : RelExpr) :
  rowsFitCols input ->
  (forall col, Contains (FindInlinableConstants input) col = true ->
     exists d, extractColumn input col = Ok d) /\
  (forall e, exists e',
     inlineConstants input (FindInlinableConstants input) e = Ok e') /\
  (forall filters, exists fs,
     InlineFilterConstants filters input (FindInlinableConstants input) = Ok fs /\
     length fs = length filters) /\
  (forall projections, exists ps,
     InlineProjectionConstants projections input (FindInlinableConstants input)
       = Ok ps /\
     List.map Col ps = List.map Col projections).
Proof.
  intros _.
  assert (Hok : forall e, exists e',
            inlineConstants input (FindInlinableConstants input) e = Ok e').
  { intros e. eexists.
    apply (inlineConstants_replaceVars input _ (definition input)).
    apply found_definition. }
  split; [apply extractColumn_constCols|]. split; [exact Hok|]. split.
  - intros filters. apply InlineFilterConstants_Ok, Hok.
  - intros projections. apply InlineProjectionConstants_Ok, Hok.
Qed.

(** Values (1, x) AS (a, b): the constant column is a, and a + b becomes
    1 + b. *)
Definition exampleValues : RelExpr :=
  ValuesExpr [[ConstExpr 1; VariableExpr 7]] [1%Z; 2%Z].

Lemma FindInlinableConstants_inlines_witness :
  rowsFitCols exampleValues /\
  exists e', inlineConstants exampleValues (FindInlinableConstants exampleValues)
               (OpExpr PlusOp [VariableExpr 1; VariableExpr 2]) = Ok e'.
Proof.
  assert (Hfit : rowsFitCols exampleValues)
    by (repeat constructor).
  split; [exact Hfit|].
  destruct (FindInlinableConstants_inlines exampleValues Hfit) as (_ & H & _).
  apply H.
Defined.

(** X9. With distinct column ids in the input, inlining the constants that
    [FindInlinableConstants] reports leaves no reference to any of them, and
    inlining a second time changes nothing. *)
Theorem inlined_constants_gone (input : RelExpr) (e e' : Expr) :
  rowsFitCols input ->
  distinctCols input ->
  inlineConstants input (FindInlinableConstants input) e = Ok e' ->
  Forall (fun col => Contains (FindInlinableConstants input) col = false) (vars e') /\
  inlineConstants input (FindInlinableConstants input) e' = Ok e'.
Proof.
  intros _ Hnd Hrun.
  rewrite (inlineConstants_replaceVars input _ (definition input))
    in Hrun by apply found_definition.
  injection Hrun as <-.
  assert (Hgone : Forall (fun col => Contains (FindInlinableConstants input) col = false)
                    (vars (replaceVars (FindInlinableConstants input)
                                       (definition input) e))).
  { apply vars_replaceVars. intros col Hc. unfold definition.
    destruct (extractColumn_constCols_const input col Hnd Hc) as (d & -> & Hconst).
    apply IsConstValueOp_vars, Hconst. }
  split; [exact Hgone | apply inlineConstants_unchanged, Hgone].
Qed.

Lemma inlined_constants_gone_witness :
  rowsFitCols exampleProject /\ distinctCols exampleProject /\
  Forall (fun col => Contains (FindInlinableConstants exampleProject) col = false)
         (vars (OpExpr EqOp [ConstExpr 5; ConstExpr 5])).
Proof.
  assert (Hfit : rowsFitCols exampleProject) by exact I.
  assert (Hnd : distinctCols exampleProject).
  { simpl. apply NoDup_cons. split; [|apply NoDup_singleton].
    intros Hin. apply list_elem_of_singleton in Hin. discriminate. }
  split; [exact Hfit|]. split; [exact Hnd|].
  apply (inlined_constants_gone exampleProject exampleFilter _ Hfit Hnd).
  reflexivity.
Defined.

(* --------------------------------------------------------------------- *)
(** ** Inlining projections                                                *)
(* --------------------------------------------------------------------- *)
(** The operators of the case list of [CanInline] other than the leaves. *)
Definition simpleOp (op : Operator) : bool :=
  match op with
  | AndOp | OrOp | NotOp | EqOp | NeOp | LeOp | LtOp | GeOp | GtOp
  | IsOp | IsNotOp | InOp | NotInOp | PlusOp | MinusOp | MultOp => true
  | _ => false
  end.

(** [func (c *CustomFuncs) CanInline(scalar opt.ScalarExpr) bool]; the
    leaves Variable, Const, True, False and Null are in the case list and
    have no children. *)
Fixpoint CanInline (scalar : Expr) : bool :=
  match scalar with
  | OpExpr op children =>
      if simpleOp op then
        (fix all (l : list Expr) : bool :=
           match l with
           | [] => true
           | c :: l' => if negb (CanInline c) then false else all l'
           end) children
      else false
  | _ => true
  end.

(** [func (c *CustomFuncs) CanInlineProjections(projections) bool] *)
Fixpoint CanInlineProjections (projections : list ProjectionsItem) : bool :=
  match projections with
  | [] => true
  | item :: rest =>
      if negb (CanInline (Element item)) then false else CanInlineProjections rest
  end.

Lemma CanInline_OpExpr op children :
  CanInline (OpExpr op children) = simpleOp op && forallb CanInline children.
Proof.
  simpl. destruct (simpleOp op); [|reflexivity]. simpl.
  induction children as [|c l IH]; simpl; [reflexivity|].
  rewrite IH. destruct (CanInline c); reflexivity.
Qed.

Lemma CanInlineProjections_Forall projections :
  CanInlineProjections projections = true <->
  Forall (fun item => CanInline (Element item) = true) projections.
Proof.
  induction projections as [|item rest IH]; simpl.
  - split; [constructor | reflexivity].
  - rewrite Forall_cons, <- IH.
    destruct (CanInline (Element item)); simpl; intuition congruence.
Qed.

Lemma find_Col_None projections col :
  List.find (fun item => bool_decide (Col item = col)) projections = None ->
  col ∉ List.map Col projections.
Proof.
  intros Hf Hin. apply list_elem_of_In, List.in_map_iff in Hin as (item & Heq & Hin).
  pose proof (List.find_none _ _ Hf item Hin) as Hn. simpl in Hn.
  apply bool_decide_eq_false in Hn. contradiction.
Qed.

Lemma find_Col_notin projections col :
  col ∉ List.map Col projections ->
  List.find (fun item => bool_decide (Col item = col)) projections = None.
Proof.
  intros Hnot. destruct (List.find _ projections) as [item|] eqn:Hf; [|reflexivity].
  exfalso. apply List.find_some in Hf as [Hin Heq].
  apply bool_decide_eq_true in Heq. apply Hnot. subst col.
  apply list_elem_of_In, List.in_map, Hin.
Qed.

Lemma Contains_true (s : ColSet) (col : ColumnID) :
  Contains s col = true <-> col ∈ set s.
Proof. unfold Contains. apply bool_decide_eq_true. Qed.

Lemma Contains_false (s : ColSet) (col : ColumnID) :
  Contains s col = false <-> col ∉ set s.
Proof. unfold Contains. apply bool_decide_eq_false. Qed.

Section Projections.

(** Which of the operators outside the enumeration are relational: a node
    with such an operator is a [memo.RelExpr] (the input of a subquery,
    say).  The leaves and the operators of the enumeration are scalar. *)
Variable relational : nat -> bool.

Definition isRelExpr (e : Expr) : bool :=
  match e with
  | OpExpr (OtherOp n) _ => relational n
  | _ => false
  end.

Lemma simpleOp_not_relational op children :
  simpleOp op = true -> isRelExpr (OpExpr op children) = false.
Proof. destruct op; simpl; try discriminate; reflexivity. Qed.

(** *** What the properties speak about *)

(** The column references of an expression outside its relational
    subexpressions, from left to right. *)
Fixpoint scalarVars (e : Expr) : list ColumnID :=
  match e with
  | VariableExpr col => [col]
  | OpExpr op children =>
      if isRelExpr (OpExpr op children) then []
      else
        (fix all (l : list Expr) : list ColumnID :=
           match l with
           | [] => []
           | c :: l' => scalarVars c ++ all l'
           end) children
  | _ => []
  end.

Fixpoint scalarVarsAll (l : list Expr) : list ColumnID :=
  match l with
  | [] => []
  | c :: l' => scalarVars c ++ scalarVarsAll l'
  end.

Lemma scalarVars_OpExpr op children :
  scalarVars (OpExpr op children) =
  if isRelExpr (OpExpr op children) then [] else scalarVarsAll children.
Proof.
  cbn [scalarVars]. destruct (isRelExpr (OpExpr op children)); [reflexivity|].
  induction children as [|c l IH]; simpl; [reflexivity|]. rewrite IH. reflexivity.
Qed.

Section Inlining.

(** [c.OuterCols(e)]: a logical property the memo keeps (not among the
    sources). *)
Variable OuterCols : Expr -> ColSet.

(** [func (c *CustomFuncs) inlineProjections(e, projections) opt.Expr]: the
    closure [replace], with [c.f.Replace] as in [inlineConstants]. *)
Fixpoint inlineProjections (projections : list ProjectionsItem) (e : Expr)
  : result Expr :=
  match e with
  | VariableExpr col =>
      match List.find (fun item => bool_decide (Col item = col)) projections with
      | Some item => Ok (Element item)
      | None => Ok e
      end
  | OpExpr op children =>
      if isRelExpr (OpExpr op children) then
        if negb (Empty (OuterCols (OpExpr op children))) then
          Panic "cannot inline references within correlated subqueries"
        else Ok (OpExpr op children)
      else
        children' ←
          (fix replaceAll (l : list Expr) : result (list Expr) :=
             match l with
             | [] => Ok []
             | c :: l' =>
                 c' ← inlineProjections projections c;
                 l'' ← replaceAll l';
                 Ok (c' :: l'')
             end) children;
        Ok (OpExpr op children')
  | _ => Ok e
  end.

(** The children loop of [Replace], by name. *)
Fixpoint inlineProjectionsAll (projections : list ProjectionsItem) (l : list Expr)
  : result (list Expr) :=
  match l with
  | [] => Ok []
  | c :: l' =>
      c' ← inlineProjections projections c;
      l'' ← inlineProjectionsAll projections l';
      Ok (c' :: l'')
  end.

(** [func (c *CustomFuncs) InlineSelectProject(filters, projections)] *)
Fixpoint InlineSelectProject (filters : list FiltersItem)
    (projections : list ProjectionsItem) : result (list FiltersItem) :=
  match filters with
  | [] => Ok []
  | item :: rest =>
      cond ← inlineProjections projections (Condition item);
      rest' ← InlineSelectProject rest projections;
      Ok ({| Condition := cond |} :: rest')
  end.

(** The first loop of [InlineProjectProject]. *)
Fixpoint inlineProjectionItems (projections innerProjections : list ProjectionsItem)
  : result (list ProjectionsItem) :=
  match projections with
  | [] => Ok []
  | item :: rest =>
      el ← inlineProjections innerProjections (Element item);
      rest' ← inlineProjectionItems rest innerProjections;
      Ok ({| Element := el; Col := Col item |} :: rest')
  end.

(** Its second loop: an inner projection whose column the outer operator
    passes through becomes a projection of the result. *)
Definition addPassthrough (innerProjections : list ProjectionsItem)
    (newProjections : list ProjectionsItem) (newPassthrough : ColSet)
  : list ProjectionsItem * ColSet :=
  fold_left (fun '(newProjections, newPassthrough) item =>
               if Contains newPassthrough (Col item) then
                 (newProjections ++ [item], Remove newPassthrough (Col item))
               else (newProjections, newPassthrough))
            innerProjections (newProjections, newPassthrough).

(** [func (c *CustomFuncs) InlineProjectProject(input, projections,
    passthrough) memo.RelExpr]; the type assertion on [input] panics for
    another operator. *)
Definition InlineProjectProject (input : RelExpr)
    (projections : list ProjectionsItem) (passthrough : ColSet) : result RelExpr :=
  match input with
  | ProjectExpr innerInput innerProjections _ =>
      newProjections ← inlineProjectionItems projections innerProjections;
      let '(newProjections, newPassthrough) :=
        if negb (Empty passthrough) then
          addPassthrough innerProjections newProjections passthrough
        else (newProjections, passthrough) in
      Ok (ProjectExpr innerInput newProjections newPassthrough)
  | _ => Panic "interface conversion: memo.RelExpr is not *memo.ProjectExpr"
  end.

(** A relational subexpression with outer columns (a correlated subquery)
    is met on the way down. *)
Fixpoint correlated (e : Expr) : bool :=
  match e with
  | OpExpr op children =>
      if isRelExpr (OpExpr op children) then
        negb (Empty (OuterCols (OpExpr op children)))
      else
        (fix any (l : list Expr) : bool :=
           match l with
           | [] => false
           | c :: l' => correlated c || any l'
           end) children
  | _ => false
  end.

Fixpoint correlatedAny (l : list Expr) : bool :=
  match l with
  | [] => false
  | c :: l' => correlated c || correlatedAny l'
  end.

Lemma inlineProjections_OpExpr projections op children :
  inlineProjections projections (OpExpr op children) =
  if isRelExpr (OpExpr op children) then
    if negb (Empty (OuterCols (OpExpr op children))) then
      Panic "cannot inline references within correlated subqueries"
    else Ok (OpExpr op children)
  else
    (children' ← inlineProjectionsAll projections children;
     Ok (OpExpr op children')).
Proof.
  cbn [inlineProjections]. destruct (isRelExpr (OpExpr op children)); [reflexivity|].
  f_equal. induction children as [|c l IH]; simpl; [reflexivity|].
  rewrite IH. reflexivity.
Qed.

Lemma correlated_OpExpr op children :
  correlated (OpExpr op children) =
  if isRelExpr (OpExpr op children) then
    negb (Empty (OuterCols (OpExpr op children)))
  else correlatedAny children.
Proof.
  cbn [correlated]. destruct (isRelExpr (OpExpr op children)); [reflexivity|].
  induction children as [|c l IH]; simpl; [reflexivity|]. rewrite IH. reflexivity.
Qed.

Lemma CanInline_inlineProjections_Ok projections e :
  CanInlineProjections projections = true ->
  CanInline e = true ->
  exists e', inlineProjections projections e = Ok e' /\ CanInline e' = true.
Proof.
  intros Hp. apply CanInlineProjections_Forall in Hp.
  induction e as [c|v| | | |op cs IH] using Expr_ind'; intros He;
    try (eexists; split; reflexivity).
  - simpl. destruct (List.find _ projections) as [item|] eqn:Hf.
    + exists (Element item). split; [reflexivity|].
      apply List.find_some in Hf as [Hin _]. apply list_elem_of_In in Hin.
      exact (proj1 (Forall_forall _ _) Hp item Hin).
    + eexists; split; reflexivity.
  - rewrite CanInline_OpExpr in He. apply andb_true_iff in He as [Hop Hcs].
    rewrite inlineProjections_OpExpr, (simpleOp_not_relational _ _ Hop).
    enough (Hall : exists cs', inlineProjectionsAll projections cs = Ok cs' /\
                               forallb CanInline cs' = true).
    { destruct Hall as (cs' & -> & Hcs'). eexists. split; [reflexivity|].
      rewrite CanInline_OpExpr, Hop, Hcs'. reflexivity. }
    induction IH as [|c l Hc _ IHl]; simpl in *; [eauto|].
    apply andb_true_iff in Hcs as [H1 H2].
    destruct (Hc H1) as (c' & -> & Hc'). destruct (IHl H2) as (l' & -> & Hl').
    simpl. eexists. split; [reflexivity|]. simpl. rewrite Hc', Hl'. reflexivity.
Qed.

(** X10. Inlining inlinable projections into an inlinable expression
    succeeds and gives an inlinable expression again: [CanInline] admits no
    operator with a relational operand, so no correlated subquery is met,
    and every replacement is one of the projections' elements.  The same
    holds for the filters of [InlineSelectProject]. *)
Theorem CanInline_inlineProjections (projections : list ProjectionsItem) (e : Expr)
    (filters : list FiltersItem) :
  CanInlineProjections projections = true ->
  (CanInline e = true ->
   exists e', inlineProjections projections e = Ok e' /\ CanInline e' = true) /\
  (Forall (fun item => CanInline (Condition item) = true) filters ->
   exists fs, InlineSelectProject filters projections = Ok fs /\
              length fs = length filters /\
              Forall (fun item => CanInline (Condition item) = true) fs).
Proof.
  intros Hp. split; [apply CanInline_inlineProjections_Ok, Hp|].
  induction 1 as [|item rest Hitem _ (fs & IH & Hlen & Hall)]; simpl.
  - exists []. repeat split. constructor.
  - destruct (CanInline_inlineProjections_Ok projections _ Hp Hitem) as (c & -> & Hc).
    simpl. rewrite IH. simpl. eexists. split; [reflexivity|].
    split; [simpl; rewrite Hlen; reflexivity|]. constructor; assumption.
Qed.

(** A reference of the result is a reference of the expression to a column
    that is not projected, or a reference of a projection's element. *)
Definition keptOrInlined (projections : list ProjectionsItem) (e : Expr)
    (col : ColumnID) : Prop :=
  (col ∈ scalarVars e /\ col ∉ List.map Col projections) \/
  Exists (fun item => col ∈ scalarVars (Element item)) projections.

Lemma inlineProjections_behaviour projections e :
  (correlated e = true /\
   inlineProjections projections e
     = Panic "cannot inline references within correlated subqueries") \/
  (correlated e = false /\
   exists e',
     inlineProjections projections e = Ok e' /\
     Forall (keptOrInlined projections e) (scalarVars e') /\
     (Forall (fun col => col ∉ List.map Col projections) (scalarVars e) -> e' = e)).
Proof.
  induction e as [c|v| | | |op cs IH] using Expr_ind';
    try (right; split; [reflexivity|]; eexists; split; [reflexivity|];
         split; [constructor | reflexivity]).
  - right. split; [reflexivity|]. simpl.
    destruct (List.find _ projections) as [item|] eqn:Hf.
    + exists (Element item). split; [reflexivity|]. split.
      * apply Forall_forall. intros col Hcol. right.
        apply Exists_exists. exists item. split; [|exact Hcol].
        apply List.find_some in Hf as [Hin _]. apply list_elem_of_In, Hin.
      * intros Hnone. exfalso. apply Forall_cons in Hnone as [Hnot _].
        apply List.find_some in Hf as [Hin Heq].
        apply bool_decide_eq_true in Heq. apply Hnot. subst c.
        apply list_elem_of_In, List.in_map, Hin.
    + eexists. split; [reflexivity|]. split; [|reflexivity].
      simpl. apply Forall_cons. split; [|constructor].
      left. split; [apply list_elem_of_singleton; reflexivity|].
      apply find_Col_None, Hf.
  - rewrite correlated_OpExpr, inlineProjections_OpExpr.
    destruct (isRelExpr (OpExpr op cs)) eqn:Hrel.
    + destruct (negb (Empty (OuterCols (OpExpr op cs)))); [left; auto|].
      right. split; [reflexivity|]. eexists. split; [reflexivity|].
      rewrite scalarVars_OpExpr, Hrel. split; [constructor | reflexivity].
    + enough (Hall :
        (correlatedAny cs = true /\
         inlineProjectionsAll projections cs
           = Panic "cannot inline references within correlated subqueries") \/
        (correlatedAny cs = false /\
         exists cs',
           inlineProjectionsAll projections cs = Ok cs' /\
           Forall (fun col =>
                     (col ∈ scalarVarsAll cs /\ col ∉ List.map Col projections) \/
                     Exists (fun item => col ∈ scalarVars (Element item)) projections)
                  (scalarVarsAll cs') /\
           (Forall (fun col => col ∉ List.map Col projections) (scalarVarsAll cs) ->
            cs' = cs))).
      { destruct Hall as [[Hc ->]|(Hc & cs' & -> & Hrefs & Hid)]; [left; auto|].
        right. split; [exact Hc|]. eexists. split; [reflexivity|].
        assert (Hrel' : isRelExpr (OpExpr op cs') = false)
          by (destruct op; simpl in *; try reflexivity; exact Hrel).
        unfold keptOrInlined. rewrite !scalarVars_OpExpr, Hrel, Hrel'.
        split; [exact Hrefs|]. intros Hnone. rewrite (Hid Hnone). reflexivity. }
      clear Hrel. induction IH as [|c l Hc _ IHl]; simpl.
      * right. split; [reflexivity|]. exists []. repeat split. constructor.
      * destruct Hc as [[Hcor ->]|(Hcor & c' & -> & Hrefs & Hid)];
          [left; rewrite Hcor; auto|].
        rewrite Hcor. simpl.
        destruct IHl as [[Hcorl ->]|(Hcorl & l' & -> & Hrefsl & Hidl)];
          [left; auto|].
        right. split; [exact Hcorl|]. eexists. split; [reflexivity|]. simpl. split.
        -- apply Forall_app. split.
           ++ eapply Forall_impl; [exact Hrefs|]. intros col [[H1 H2]|H3]; [left|right; exact H3].
              split; [apply elem_of_app; left; exact H1 | exact H2].
           ++ eapply Forall_impl; [exact Hrefsl|]. intros col [[H1 H2]|H3]; [left|right; exact H3].
              split; [apply elem_of_app; right; exact H1 | exact H2].
        -- intros Hnone. apply Forall_app in Hnone as [H1 H2].
           rewrite (Hid H1), (Hidl H2). reflexivity.
Qed.

(** X11. [inlineProjections] fails exactly when it meets a correlated
    subquery, whatever the projections, and with the assertion "cannot
    inline references within correlated subqueries".  Otherwise every
    column the result refers to (outside its subqueries) is a column the
    expression referred to that no projection defines, or a column some
    projection's element refers to: when the elements do not refer to
    projected columns, neither does the result.  An expression that refers
    to no projected column is returned as it is. *)
Theorem inlineProjections_refs (projections : list ProjectionsItem) (e : Expr) :
  (correlated e = true /\
   inlineProjections projections e
     = Panic "cannot inline references within correlated subqueries") \/
  (correlated e = false /\
   exists e',
     inlineProjections projections e = Ok e' /\
     Forall (keptOrInlined projections e) (scalarVars e') /\
     (Forall (fun item => Forall (fun col => col ∉ List.map Col projections)
                                 (scalarVars (Element item))) projections ->
      Forall (fun col => col ∉ List.map Col projections) (scalarVars e')) /\
     (Forall (fun col => col ∉ List.map Col projections) (scalarVars e) -> e' = e)).
Proof.
  destruct (inlineProjections_behaviour projections e)
    as [Hpanic|(Hc & e' & Hrun & Hrefs & Hid)]; [left; exact Hpanic|].
  right. split; [exact Hc|]. exists e'. split; [exact Hrun|].
  split; [exact Hrefs|]. split; [|exact Hid].
  intros Helems. eapply Forall_impl; [exact Hrefs|].
  intros col [[_ Hnot]|Hex]; [exact Hnot|].
  apply Exists_exists in Hex as (item & Hin & Hcol).
  pose proof (proj1 (Forall_forall _ _) Helems item Hin) as Hitem.
  exact (proj1 (Forall_forall _ _) Hitem col Hcol).
Qed.

(** *** InlineProjectProject *)

Lemma inlineProjectionItems_Col projections inner : forall ps,
  inlineProjectionItems projections inner = Ok ps ->
  List.map Col ps = List.map Col projections.
Proof.
  induction projections as [|item rest IH]; intros ps H; simpl in H.
  - injection H as <-. reflexivity.
  - destruct (inlineProjections inner (Element item)); simpl in H; [|discriminate].
    destruct (inlineProjectionItems rest inner); simpl in H; [|discriminate].
    injection H as <-. simpl. rewrite (IH _ eq_refl). reflexivity.
Qed.

Lemma addPassthrough_spec inner : forall newProjections newPassthrough,
  exists moved,
    (addPassthrough inner newProjections newPassthrough).1 = newProjections ++ moved /\
    set (addPassthrough inner newProjections newPassthrough).2
      = set newPassthrough ∖ list_to_set (List.map Col inner) /\
    Forall (fun item => item ∈ inner /\ Contains newPassthrough (Col item) = true) moved /\
    (forall col, col ∈ List.map Col moved <->
                 col ∈ List.map Col inner /\ Contains newPassthrough col = true).
Proof.
  unfold addPassthrough.
  induction inner as [|item rest IH]; intros np pt; simpl.
  - exists []. rewrite app_nil_r. split; [reflexivity|]. split; [set_solver|].
    split; [constructor|]. intros col. split; [intros H; inversion H|].
    intros [H _]. inversion H.
  - destruct (Contains pt (Col item)) eqn:Hc.
    + destruct (IH (np ++ [item]) (Remove pt (Col item)))
        as (moved & Hnp & Hpt & Hall & Hcols).
      exists (item :: moved). rewrite Hnp, Hpt, <- app_assoc. simpl.
      split; [reflexivity|]. split; [set_solver|]. split.
      * constructor; [split; [apply list_elem_of_here | exact Hc]|].
        eapply Forall_impl; [exact Hall|]. intros it [Hin Hr].
        split; [apply list_elem_of_further, Hin|].
        apply Contains_true in Hr. apply Contains_true. simpl in Hr. set_solver.
      * intros col. rewrite !elem_of_cons, Hcols.
        rewrite !Contains_true. simpl.
        apply Contains_true in Hc. split.
        -- intros [->|[Hin Hr]]; [auto | split; [auto | set_solver]].
        -- intros [[->|Hin] Hr]; [auto|].
           destruct (decide (col = Col item)) as [->|Hne]; [auto|].
           right. split; [exact Hin | set_solver].
    + destruct (IH np pt) as (moved & Hnp & Hpt & Hall & Hcols).
      exists moved. rewrite Hnp, Hpt.
      apply Contains_false in Hc.
      split; [reflexivity|]. split; [set_solver|]. split.
      * eapply Forall_impl; [exact Hall|]. intros it [Hin Hr].
        split; [apply list_elem_of_further, Hin | exact Hr].
      * intros col. rewrite elem_of_cons, Hcols, !Contains_true. split.
        -- intros [Hin Hr]. auto.
        -- intros [[->|Hin] Hr]; [contradiction | auto].
Qed.

(** X12. [InlineProjectProject] panics on an input that is no Project.  On a
    Project it builds, when no correlated subquery is in the way, a Project
    over the inner input that offers the same columns as before: the outer
    projections come first, with their columns in order; after them come
    the inner projections whose columns the outer operator passed through;
    what is still passed through is no column of an inner projection. *)
Theorem InlineProjectProject_columns (input : RelExpr)
    (projections : list ProjectionsItem) (passthrough : ColSet) :
  match input with
  | ProjectExpr innerInput innerProjections _ =>
      forall e, InlineProjectProject input projections passthrough = Ok e ->
        exists inlined moved newPassthrough,
          e = ProjectExpr innerInput (inlined ++ moved) newPassthrough /\
          inlineProjectionItems projections innerProjections = Ok inlined /\
          List.map Col inlined = List.map Col projections /\
          Forall (fun item => item ∈ innerProjections /\
                              Contains passthrough (Col item) = true) moved /\
          (forall col, Contains newPassthrough col = true <->
                       Contains passthrough col = true /\
                       col ∉ List.map Col innerProjections) /\
          (forall col,
             col ∈ List.map Col (inlined ++ moved) \/ Contains newPassthrough col = true
             <-> col ∈ List.map Col projections \/ Contains passthrough col = true)
  | _ =>
      InlineProjectProject input projections passthrough
        = Panic "interface conversion: memo.RelExpr is not *memo.ProjectExpr"
  end.
Proof.
  destruct input as [innerInput inner innerPt| | | | |]; try reflexivity.
  intros e. unfold InlineProjectProject.
  destruct (inlineProjectionItems projections inner) as [inlined|msg] eqn:Hin;
    simpl; [|discriminate].
  pose proof (inlineProjectionItems_Col _ _ _ Hin) as Hcol.
  destruct (Empty passthrough) eqn:Hempty; simpl.
  - intros H. injection H as <-.
    apply bool_decide_eq_true in Hempty.
    exists inlined, [], passthrough. rewrite app_nil_r.
    split; [reflexivity|]. split; [reflexivity|]. split; [exact Hcol|].
    split; [constructor|]. split.
    + intros col. rewrite Contains_true, Hempty. set_solver.
    + intros col. rewrite Hcol. reflexivity.
  - destruct (addPassthrough_spec inner inlined passthrough)
      as (moved & Hnp & Hpt & Hall & Hcols).
    destruct (addPassthrough inner inlined passthrough) as [np pt].
    simpl in Hnp, Hpt. intros H. injection H as <-. subst np.
    exists inlined, moved, pt. split; [reflexivity|]. split; [reflexivity|].
    split; [exact Hcol|]. split; [exact Hall|].
    assert (Hpt' : forall col, Contains pt col = true <->
                     Contains passthrough col = true /\ col ∉ List.map Col inner).
    { intros col. rewrite !Contains_true, Hpt, elem_of_difference,
        elem_of_list_to_set. reflexivity. }
    split; [exact Hpt'|].
    intros col. rewrite List.map_app, elem_of_app, Hcol, Hcols, Hpt'.
    destruct (decide (col ∈ List.map Col inner)); tauto.
Qed.

(** *** The value of an inlined expression *)

(** The row a projection hands on: a projected column has the value of its
    element (of the first projection of the column) on the input row,
    every other column the value it has there. *)
Definition projectedRow (projections : list ProjectionsItem)
    (row : ColumnID -> Datum) : ColumnID -> Datum :=
  fun col =>
    match List.find (fun item => bool_decide (Col item = col)) projections with
    | Some item => eval row (Element item)
    | None => row col
    end.

Lemma eval_relational row row' e : isRelExpr e = true -> eval row e = eval row' e.
Proof.
  destruct e as [| | | | |op cs]; try discriminate.
  destruct op; try discriminate. reflexivity.
Qed.

(** X13. What [inlineProjections] returns has, on every row of the
    input of the projection, the value the expression has on the row the
    projection makes of it: a filter above the projection and the inlined
    filter below it let the same rows pass.  (The values are those of the
    evaluator above; a subquery without outer columns is left as it is.) *)
Theorem inlineProjections_value (projections : list ProjectionsItem) (e e' : Expr)
    (row : ColumnID -> Datum) :
  inlineProjections projections e = Ok e' ->
  eval row e' = eval (projectedRow projections row) e /\
  passes row e' = passes (projectedRow projections row) e.
Proof.
  intros Hrun.
  enough (Hval : eval row e' = eval (projectedRow projections row) e)
    by (split; [exact Hval | unfold passes; rewrite Hval; reflexivity]).
  revert e' Hrun.
  induction e as [c|v| | | |op cs IH] using Expr_ind'; intros e' Hrun;
    try (injection Hrun as <-; reflexivity).
  - simpl in Hrun. unfold projectedRow. simpl.
    destruct (List.find _ projections) as [item|];
      injection Hrun as <-; reflexivity.
  - rewrite inlineProjections_OpExpr in Hrun.
    destruct (isRelExpr (OpExpr op cs)) eqn:Hrel.
    + destruct (negb (Empty (OuterCols (OpExpr op cs)))); [discriminate|].
      injection Hrun as <-. apply eval_relational, Hrel.
    + destruct (inlineProjectionsAll projections cs) as [cs'|msg] eqn:Hall;
        simpl in Hrun; [|discriminate].
      injection Hrun as <-. simpl. f_equal.
      clear Hrel. revert cs' Hall.
      induction IH as [|c l Hc _ IHl]; intros cs' Hall; simpl in Hall.
      * injection Hall as <-. reflexivity.
      * destruct (inlineProjections projections c) as [c'|msg] eqn:Hc';
          simpl in Hall; [|discriminate].
        destruct (inlineProjectionsAll projections l) as [l'|msg] eqn:Hl';
          simpl in Hall; [|discriminate].
        injection Hall as <-. simpl. rewrite (Hc _ eq_refl), (IHl _ eq_refl).
        reflexivity.
Qed.

End Inlining.

Section DuplicateRefs.

(** [item.ScalarProps(c.mem).HasCorrelatedSubquery]: a logical property the
    memo keeps (not among the sources). *)
Variable HasCorrelatedSubquery : ProjectionsItem -> bool.

(** The closure [findDupRefs] of [HasDuplicateRefs]: whether a duplicate
    was found, and [refs] afterwards. *)
Fixpoint findDupRefs (targetCols : ColSet) (e : Expr) (refs : ColSet)
  : bool * ColSet :=
  match e with
  | VariableExpr col =>
      if negb (Contains targetCols col) then (false, refs)
      else if Contains refs col then (true, refs)
      else (false, Add refs col)
  | OpExpr op children =>
      if isRelExpr (OpExpr op children) then (false, refs)
      else
        (fix all (l : list Expr) (refs : ColSet) : bool * ColSet :=
           match l with
           | [] => (false, refs)
           | c :: l' =>
               let '(dup, refs') := findDupRefs targetCols c refs in
               if dup then (true, refs') else all l' refs'
           end) children refs
  | _ => (false, refs)
  end.

Fixpoint findDupRefsAll (targetCols : ColSet) (l : list Expr) (refs : ColSet)
  : bool * ColSet :=
  match l with
  | [] => (false, refs)
  | c :: l' =>
      let '(dup, refs') := findDupRefs targetCols c refs in
      if dup then (true, refs') else findDupRefsAll targetCols l' refs'
  end.

(** The loop of [HasDuplicateRefs] over the projections. *)
Fixpoint dupRefsLoop (targetCols : ColSet) (projections : list ProjectionsItem)
    (refs : ColSet) : bool :=
  match projections with
  | [] => false
  | item :: rest =>
      if HasCorrelatedSubquery item then true
      else
        let '(dup, refs') := findDupRefs targetCols (Element item) refs in
        if dup then true else dupRefsLoop targetCols rest refs'
  end.

(** [func (c *CustomFuncs) HasDuplicateRefs(projections, passthrough,
    targetCols) bool] *)
Definition HasDuplicateRefs (projections : list ProjectionsItem)
    (passthrough targetCols : ColSet) : bool :=
  dupRefsLoop targetCols projections (Intersection passthrough targetCols).

(** The references to target columns in the projections, from left to
    right. *)
Definition targetRefs (targetCols : ColSet) (e : Expr) : list ColumnID :=
  List.filter (Contains targetCols) (scalarVars e).

Fixpoint targetRefsAll (targetCols : ColSet) (l : list Expr) : list ColumnID :=
  match l with
  | [] => []
  | c :: l' => targetRefs targetCols c ++ targetRefsAll targetCols l'
  end.

Definition projectionRefs (targetCols : ColSet) (projections : list ProjectionsItem)
  : list ColumnID :=
  targetRefsAll targetCols (List.map Element projections).

Lemma findDupRefs_OpExpr targetCols op children refs :
  findDupRefs targetCols (OpExpr op children) refs =
  if isRelExpr (OpExpr op children) then (false, refs)
  else findDupRefsAll targetCols children refs.
Proof.
  cbn [findDupRefs]. destruct (isRelExpr (OpExpr op children)); [reflexivity|].
  revert refs. induction children as [|c l IH]; intros refs; simpl; [reflexivity|].
  destruct (findDupRefs targetCols c refs) as [[] refs']; [reflexivity | apply IH].
Qed.

Lemma targetRefs_OpExpr targetCols op children :
  targetRefs targetCols (OpExpr op children) =
  if isRelExpr (OpExpr op children) then [] else targetRefsAll targetCols children.
Proof.
  unfold targetRefs. rewrite scalarVars_OpExpr.
  destruct (isRelExpr (OpExpr op children)); [reflexivity|].
  induction children as [|c l IH]; simpl; [reflexivity|].
  rewrite List.filter_app, IH. reflexivity.
Qed.

(** *** HasDuplicateRefs *)

(** No column of the list is referred to twice, and none is in [refs]
    already. *)
Definition freshRefs (refs : ColSet) (l : list ColumnID) : Prop :=
  NoDup l /\ forall col, col ∈ l -> col ∉ set refs.

Lemma freshRefs_nil refs : freshRefs refs [].
Proof. split; [constructor | intros col Hin; inversion Hin]. Qed.

Lemma freshRefs_app refs l1 l2 :
  freshRefs refs (l1 ++ l2) <->
  freshRefs refs l1 /\
  forall refs', set refs' = set refs ∪ list_to_set l1 -> freshRefs refs' l2.
Proof.
  unfold freshRefs. rewrite NoDup_app. split.
  - intros ((Hn1 & Hdis & Hn2) & Hnot). split.
    + split; [exact Hn1|]. intros col Hin. apply Hnot, elem_of_app. auto.
    + intros refs' Hset. split; [exact Hn2|]. intros col Hin. rewrite Hset.
      intros [Hr|Hl]%elem_of_union.
      * apply (Hnot col); [apply elem_of_app; auto | exact Hr].
      * apply elem_of_list_to_set in Hl. apply (Hdis col Hl Hin).
  - intros ((Hn1 & Hnot1) & H2).
    destruct (H2 (MkColSet (set refs ∪ list_to_set l1)) eq_refl) as (Hn2 & Hnot2).
    simpl in Hnot2. split.
    + split; [exact Hn1|]. split; [|exact Hn2].
      intros col H1 Hin2. apply (Hnot2 col Hin2), elem_of_union. right.
      apply elem_of_list_to_set, H1.
    + intros col [H|H]%elem_of_app; [apply Hnot1, H|].
      intros Hr. apply (Hnot2 col H), elem_of_union. left. exact Hr.
Qed.

(** [findDupRefs] reports no duplicate exactly when the target references
    of the expression are fresh, and then it has added them to [refs]. *)
Lemma findDupRefs_spec targetCols e : forall refs,
  ((findDupRefs targetCols e refs).1 = false <->
   freshRefs refs (targetRefs targetCols e)) /\
  ((findDupRefs targetCols e refs).1 = false ->
   set (findDupRefs targetCols e refs).2
   = set refs ∪ list_to_set (targetRefs targetCols e)).
Proof.
  induction e as [c|v| | | |op cs IH] using Expr_ind'; intros refs;
    try (split; [split; [intros _; apply freshRefs_nil | reflexivity]
                | intros _; simpl; set_solver]).
  - unfold targetRefs. simpl.
    destruct (Contains targetCols c) eqn:Ht; simpl.
    + destruct (Contains refs c) eqn:Hr; simpl.
      * apply Contains_true in Hr. split; [|discriminate].
        split; [discriminate|]. intros [_ Hnot]. exfalso.
        apply (Hnot c); [apply list_elem_of_singleton; reflexivity | exact Hr].
      * apply Contains_false in Hr. split; [|intros _; set_solver].
        split; [|reflexivity]. intros _. split; [apply NoDup_singleton|].
        intros col Hin. apply list_elem_of_singleton in Hin. subst col. exact Hr.
    + split; [split; [intros _; apply freshRefs_nil | reflexivity]
             | intros _; set_solver].
  - rewrite findDupRefs_OpExpr, targetRefs_OpExpr.
    destruct (isRelExpr (OpExpr op cs));
      [split; [split; [intros _; apply freshRefs_nil | reflexivity]
              | intros _; simpl; set_solver]|].
    revert refs. induction IH as [|c l Hc _ IHl]; intros refs; simpl.
    + split; [split; [intros _; apply freshRefs_nil | reflexivity]
             | intros _; set_solver].
    + destruct (Hc refs) as (Hiff & Hset).
      destruct (findDupRefs targetCols c refs) as [dup refs'] eqn:Hrun.
      simpl in Hiff, Hset. rewrite freshRefs_app.
      destruct dup; simpl.
      * split; [|discriminate]. split; [discriminate|].
        intros [Hfresh _]. apply Hiff in Hfresh. discriminate.
      * specialize (Hset eq_refl). destruct (IHl refs') as (Hiffl & Hsetl).
        split.
        -- rewrite Hiffl. split.
           ++ intros Hf. split; [apply Hiff; reflexivity|].
              intros refs'' Hs. destruct Hf as [Hn Hnot]. split; [exact Hn|].
              intros col Hin. rewrite Hs, <- Hset. apply Hnot, Hin.
           ++ intros [_ Hf]. apply Hf, Hset.
        -- intros Hd. rewrite (Hsetl Hd), Hset.
           rewrite list_to_set_app_L. set_solver.
Qed.

Lemma dupRefsLoop_spec targetCols projections : forall refs,
  dupRefsLoop targetCols projections refs = false <->
  Forall (fun item => HasCorrelatedSubquery item = false) projections /\
  freshRefs refs (projectionRefs targetCols projections).
Proof.
  unfold projectionRefs.
  induction projections as [|item rest IH]; intros refs; simpl.
  - split; [intros _; split; [constructor | apply freshRefs_nil] | reflexivity].
  - rewrite Forall_cons, freshRefs_app.
    destruct (HasCorrelatedSubquery item); [intuition discriminate|].
    destruct (findDupRefs_spec targetCols (Element item) refs) as (Hiff & Hset).
    destruct (findDupRefs targetCols (Element item) refs) as [dup refs'].
    simpl in Hiff, Hset. destruct dup.
    + split; [discriminate|]. intros (_ & Hfresh & _).
      apply Hiff in Hfresh. discriminate.
    + specialize (Hset eq_refl). rewrite IH. split.
      * intros (Hall & Hn & Hnot). split; [split; [reflexivity | exact Hall]|].
        split; [apply Hiff; reflexivity|].
        intros refs'' Hs. split; [exact Hn|].
        intros col Hin. rewrite Hs, <- Hset. apply Hnot, Hin.
      * intros ((_ & Hall) & _ & Hf). split; [exact Hall | apply Hf, Hset].
Qed.

(** X14. [HasDuplicateRefs] answers false exactly when no projection has a
    correlated subquery and, among the references of the projections to
    target columns (outside their subqueries), no column occurs twice and
    none is passed through. *)
Theorem HasDuplicateRefs_spec (projections : list ProjectionsItem)
    (passthrough targetCols : ColSet) :
  HasDuplicateRefs projections passthrough targetCols = false <->
  Forall (fun item => HasCorrelatedSubquery item = false) projections /\
  NoDup (projectionRefs targetCols projections) /\
  Forall (fun col => Contains passthrough col = false)
         (projectionRefs targetCols projections).
Proof.
  unfold HasDuplicateRefs. rewrite dupRefsLoop_spec.
  assert (Htarget : Forall (fun col => Contains targetCols col = true)
                           (projectionRefs targetCols projections)).
  { unfold projectionRefs.
    induction (List.map Element projections) as [|e l IH]; simpl; [constructor|].
    apply Forall_app. split; [|exact IH].
    apply Forall_forall. intros col Hin.
    apply list_elem_of_In, List.filter_In in Hin as [_ Hin]. exact Hin. }
  unfold freshRefs, Intersection, IntersectionWith, Copy. simpl.
  split; intros (Hall & Hrest); (split; [exact Hall|]).
  - destruct Hrest as (Hn & Hnot). split; [exact Hn|].
    apply Forall_forall. intros col Hin. apply Contains_false. intros Hp.
    apply (Hnot col Hin), elem_of_intersection. split; [exact Hp|].
    apply Contains_true. exact (proj1 (Forall_forall _ _) Htarget col Hin).
  - destruct Hrest as (Hn & Hnot). split; [exact Hn|].
    intros col Hin [Hp _]%elem_of_intersection.
    pose proof (proj1 (Forall_forall _ _) Hnot col Hin) as Hf.
    apply Contains_false in Hf. contradiction.
Qed.

End DuplicateRefs.

End Projections.

(** *** Worked examples *)

(** Trees without subqueries: no operator is relational. *)
Definition noRelational : nat -> bool := fun _ => false.
Definition noOuterCols : Expr -> ColSet := fun _ => zero.
Definition noCorrelatedSubquery : ProjectionsItem -> bool := fun _ => false.

(** The projection b: x + 1 and the filter b > 1, with b and x the columns
    2 and 3: the filter becomes x + 1 > 1. *)
Lemma CanInline_inlineProjections_witness :
  CanInlineProjections
    [ {| Element := OpExpr PlusOp [VariableExpr 3; ConstExpr 1]; Col := 2 |} ] = true /\
  exists e',
    inlineProjections noRelational noOuterCols
      [ {| Element := OpExpr PlusOp [VariableExpr 3; ConstExpr 1]; Col := 2 |} ]
      (OpExpr GtOp [VariableExpr 2; ConstExpr 1]) = Ok e' /\
    CanInline e' = true.
Proof.
  split; [reflexivity|].
  apply (CanInline_inlineProjections noRelational noOuterCols
           [ {| Element := OpExpr PlusOp [VariableExpr 3; ConstExpr 1]; Col := 2 |} ]
           (OpExpr GtOp [VariableExpr 2; ConstExpr 1]) []);
    reflexivity.
Defined.

(** On a row with x = 3 the filter b > 1 above the projection b: x + 1 and
    the inlined filter x + 1 > 1 below it agree. *)
Lemma inlineProjections_value_witness :
  let projections :=
    [ {| Element := OpExpr PlusOp [VariableExpr 3; ConstExpr 1]; Col := 2 |} ] in
  let row := fun _ : ColumnID => DInt 3 in
  exists e',
    inlineProjections noRelational noOuterCols projections
      (OpExpr GtOp [VariableExpr 2; ConstExpr 1]) = Ok e' /\
    passes row e' = passes (projectedRow projections row)
                           (OpExpr GtOp [VariableExpr 2; ConstExpr 1]).
Proof.
  intros projections row. eexists. split; [reflexivity|].
  apply (inlineProjections_value noRelational noOuterCols projections
           (OpExpr GtOp [VariableExpr 2; ConstExpr 1]) _ row).
  reflexivity.
Defined.

(** The example of the comment of [HasDuplicateRefs]: in SELECT x+1, x+2, y
    FROM a the column x (1) is referred to twice; in SELECT x+1, y it is
    not, unless x is passed through as well. *)
Lemma HasDuplicateRefs_examples :
  let p1 := {| Element := OpExpr PlusOp [VariableExpr 1; ConstExpr 1]; Col := 11 |} in
  let p2 := {| Element := OpExpr PlusOp [VariableExpr 1; ConstExpr 2]; Col := 12 |} in
  let py := {| Element := VariableExpr 2; Col := 13 |} in
  let target := MakeColSet [1; 2]%Z in
  HasDuplicateRefs noRelational noCorrelatedSubquery [p1; p2; py] zero target = true /\
  HasDuplicateRefs noRelational noCorrelatedSubquery [p1; py] zero target = false /\
  HasDuplicateRefs noRelational noCorrelatedSubquery [p1; py] (MakeColSet [1%Z]) target
    = true.
Proof. repeat split; vm_compute; reflexivity. Qed.

(** Project{c: b + 1; pass a, b} over Project{a: 5, b: x + 1; pass x}
    becomes Project{c: (x + 1) + 1, a: 5, b: x + 1} over the inner input,
    passing nothing through. *)
Lemma InlineProjectProject_example :
  InlineProjectProject noRelational noOuterCols exampleProject
    [ {| Element := OpExpr PlusOp [VariableExpr 2; ConstExpr 1]; Col := 4 |} ]
    (MakeColSet [1; 2]%Z)
  = Ok (ProjectExpr (OtherRelExpr 0)
          [ {| Element := OpExpr PlusOp
                            [OpExpr PlusOp [VariableExpr 3; ConstExpr 1]; ConstExpr 1];
               Col := 4 |};
            {| Element := ConstExpr 5; Col := 1 |};
            {| Element := OpExpr PlusOp [VariableExpr 3; ConstExpr 1]; Col := 2 |} ]
          zero).
Proof. vm_compute. reflexivity. Qed.

End norm.

(* ===================================================================== *)
(** * pkg/sql/opt/xform/coster.go                                         *)
(* ===================================================================== *)
Module xform.
Import opt.

(** ** The arithmetic of costs

    [memo.Cost] is a [float64].  The formulas of the coster are written
    once, over the operations they use, and read at two instances: IEEE
    binary64 ([float64], what the program computes) and the real numbers
    ([exact], the formulas without rounding). *)
Class Arith (F : Type) := {
  fadd : F -> F -> F;
  fsub : F -> F -> F;
  fmul : F -> F -> F;
  fdiv : F -> F -> F;
  (** [x < y] *)
  flt : F -> F -> bool;
  (** [x == y] *)
  feq : F -> F -> bool;
  (** [float64(n)] and [memo.Cost(n)] of an int *)
  ofInt : Z -> F;
  (** the constant [m * 10^e] *)
  dec : Z -> Z -> F;
  (** [math.Log2] *)
  flog2 : F -> F;
  (** [cost.Less(memo.MaxCost)] *)
  belowMax : F -> bool
}.

Declare Scope cost_scope.
Delimit Scope cost_scope with C.
Infix "+" := fadd : cost_scope.
Infix "-" := fsub : cost_scope.
Infix "*" := fmul : cost_scope.
Infix "/" := fdiv : cost_scope.

(** Modelled from the spec: [memo.MaxCost] (memo/cost.go, not among the
    sources), the "maximum sentinel" of a CostValue with "no upper numeric
    limit besides the sentinel": the float +Inf. *)
Definition MaxCost : float := infinity.

(** Modelled from the spec: [memo.Cost.Less] (memo/cost.go, not among the
    sources), the "ordering" of costs: the order of the floats. *)
Definition Less (c other : float) : bool := PrimFloat.ltb c other.

(** IEEE binary64.  An int converts to the nearest float (ties to even), a
    decimal constant is the float nearest to it (for the constants of this
    file: an integer, or a quotient of two integers below 2^53, whose
    division rounds once).  [math.Log2] is a parameter. *)
Definition float64_ofInt (n : Z) : float :=
  SF2Prim (binary_normalize prec emax n 0 false).

Definition float64 (log2 : float -> float) : Arith float := {|
  fadd := PrimFloat.add;
  fsub := PrimFloat.sub;
  fmul := PrimFloat.mul;
  fdiv := PrimFloat.div;
  flt := PrimFloat.ltb;
  feq := PrimFloat.eqb;
  ofInt := float64_ofInt;
  dec := fun m e =>
    if (0 <=? e)%Z then float64_ofInt (m * 10 ^ e)
    else PrimFloat.div (float64_ofInt m) (float64_ofInt (10 ^ (- e)));
  flog2 := log2;
  belowMax := fun c => Less c MaxCost
|}.

(** The real numbers: no rounding, no overflow (every cost is below
    [MaxCost]). *)
Definition Rltb (x y : R) : bool := if Rlt_dec x y then true else false.
Definition Reqb (x y : R) : bool := if Req_dec_T x y then true else false.

Definition exact : Arith R := {|
  fadd := Rplus;
  fsub := Rminus;
  fmul := Rmult;
  fdiv := Rdiv;
  flt := Rltb;
  feq := Reqb;
  ofInt := IZR;
  dec := fun m e =>
    if (0 <=? e)%Z then IZR (m * 10 ^ e)
    else Rdiv (IZR m) (IZR (10 ^ (- e)));
  flog2 := fun x => Rdiv (ln x) (ln 2);
  belowMax := fun _ => true
|}.

(** ** Catalog and memo, as the coster reads them (cat, memo, roachpb and
    props/physical are not among the sources) *)

(** [roachpb.Tier], [roachpb.Locality] *)
Record Tier := { TierKey : string; TierValue : string }.
Record Locality := { Tiers : list Tier }.

(** [cat.Constraint], [cat.ConstraintSet], [cat.Zone] *)
Record Constraint := { IsRequired : bool; GetKey : string; GetValue : string }.
Abbreviation ConstraintSet := (list Constraint) (only parsing).
Record Zone := {
  ReplicaConstraints : list ConstraintSet;
  LeasePreferences : list ConstraintSet
}.
Definition ReplicaConstraintsCount (z : Zone) : nat := length (ReplicaConstraints z).
Definition LeasePreferenceCount (z : Zone) : nat := length (LeasePreferences z).

(** [cat.Index]: column count and zone; [md.TableMeta(t).IndexColumns(i)]. *)
Record Index := { ColumnCount : nat; IndexZone : Zone; IndexColumns : ColSet }.

(** [opt.Metadata]: the index of a table by ordinal. *)
Abbreviation TableID := nat (only parsing).
Record Metadata := { TableIndex : TableID -> nat -> Index }.

(** [cat.PrimaryIndex] *)
Definition PrimaryIndex : nat := 0.

(** [physical.Required]: the columns of the required ordering. *)
Record Required := { OrderingColumns : list Z }.

Section Coster.
Context {F : Type} {A : Arith F}.
Local Open Scope cost_scope.

(** [props.Relational]: [Stats.RowCount] and [OutputCols]. *)
Record Relational := { RowCount : F; OutputCols : ColSet }.

(** [memo.ScanFlags], [memo.ScanPrivate]; [Constraint] is [None] for a nil
    constraint and otherwise holds [IsUnconstrained()]. *)
Record ScanFlags := { ForceIndex : bool; FlagsIndex : nat }.
Record ScanPrivate := {
  ScanTable : TableID;
  ScanIndex : nat;
  ScanCols : ColSet;
  ScanConstraint : option bool;
  Flags : ScanFlags
}.

(** [memo.JoinFlags] *)
Record JoinFlags := { DisallowHashJoin : bool }.

(** [memo.GroupingPrivate] *)
Record GroupingPrivate := { GroupingCols : ColSet; GroupingOrdering : list Z }.

Inductive JoinOp :=
| InnerJoinOp | LeftJoinOp | RightJoinOp | FullJoinOp | SemiJoinOp | AntiJoinOp
| InnerJoinApplyOp | LeftJoinApplyOp | RightJoinApplyOp | FullJoinApplyOp
| SemiJoinApplyOp | AntiJoinApplyOp.
Inductive SetOp :=
| UnionOp | IntersectOp | ExceptOp | UnionAllOp | IntersectAllOp | ExceptAllOp.
Inductive GroupingOp := GroupByOp | ScalarGroupByOp | DistinctOnOp.

(** [memo.RelExpr]: the candidates, each with what the coster reads of it.
    Lists of scalar children are kept by their length. *)
Inductive RelExpr : Type :=
| SortExpr (Input : RelExpr) (rel : Relational)
| ScanExpr (scan : ScanPrivate) (rel : Relational)
| VirtualScanExpr (rel : Relational)
| SelectExpr (Input : RelExpr) (rel : Relational)
| ProjectExpr (Input : RelExpr) (ProjectionsLen : nat) (rel : Relational)
| ValuesExpr (rel : Relational)
| JoinExpr (op : JoinOp) (Left Right : RelExpr) (flags : JoinFlags) (rel : Relational)
| MergeJoinExpr (Left Right : RelExpr) (rel : Relational)
| IndexJoinExpr (Input : RelExpr) (Table : TableID) (Cols : ColSet) (rel : Relational)
| LookupJoinExpr (Input : RelExpr) (Table : TableID) (Index : nat) (Cols : ColSet)
                 (OnLen : nat) (rel : Relational)
| ZigzagJoinExpr (LeftTable : TableID) (LeftIndex : nat)
                 (RightTable : TableID) (RightIndex : nat)
                 (Cols : ColSet) (rel : Relational)
| SetExpr (op : SetOp) (Left Right : RelExpr) (rel : Relational)
| GroupingExpr (op : GroupingOp) (Input : RelExpr) (AggsLen : nat)
               (private : GroupingPrivate) (rel : Relational)
| LimitExpr (Input : RelExpr) (rel : Relational)
| OffsetExpr (Input : RelExpr) (rel : Relational)
| OrdinalityExpr (Input : RelExpr) (rel : Relational)
| ProjectSetExpr (Input : RelExpr) (rel : Relational)
| ExplainExpr (Input : RelExpr) (rel : Relational)
| OtherExpr (rel : Relational).

(** [e.Relational()] *)
Definition Rel (e : RelExpr) : Relational :=
  match e with
  | SortExpr _ rel | ScanExpr _ rel | VirtualScanExpr rel | SelectExpr _ rel
  | ProjectExpr _ _ rel | ValuesExpr rel | JoinExpr _ _ _ _ rel
  | MergeJoinExpr _ _ rel | IndexJoinExpr _ _ _ rel
  | LookupJoinExpr _ _ _ _ _ rel | ZigzagJoinExpr _ _ _ _ _ rel
  | SetExpr _ _ _ rel | GroupingExpr _ _ _ _ rel | LimitExpr _ rel
  | OffsetExpr _ rel | OrdinalityExpr _ rel | ProjectSetExpr _ rel
  | ExplainExpr _ rel | OtherExpr rel => rel
  end.

Definition rowCount (e : RelExpr) : F := RowCount (Rel e).

(** [type coster struct] *)
Record coster := { mem : Metadata; locality : Locality; perturbation : F }.

(** The functions of package ordering the coster calls (not among the
    sources). *)
(** [ordering.ScanIsReverse(scan, &required.Ordering)] *)
Variable ScanIsReverse : ScanPrivate -> Required -> bool.
(** [len(ordering.StreamingGroupingColOrdering(private, &required.Ordering))] *)
Variable StreamingGroupingColOrderingLen : GroupingPrivate -> Required -> nat.

Definition ofNat (n : nat) : F := ofInt (Z.of_nat n).

(** The constants.  An expression of untyped constants is one constant:
    [2 * seqIOCostFactor] is 2, [cpuCostFactor + randIOCostFactor] is 4.01
    and [2*(cpuCostFactor+seqIOCostFactor)] is 2.02. *)
Definition zeroCost : F := dec 0 0.
Definition one : F := dec 1 0.
Definition cpuCostFactor : F := dec 1 (-2).
Definition seqIOCostFactor : F := dec 1 0.
Definition randIOCostFactor : F := dec 4 0.
Definition lookupJoinRetrieveRowCost : F := dec 2 0.
Definition latencyCostFactor : F := cpuCostFactor.
Definition hugeCost : F := dec 1 100.

(** *** localityMatchScore *)

(** The closure [matchTier]: 0, +1 or -1. *)
Fixpoint matchTierLoop (tier : Tier) (set : ConstraintSet) (foundNoMatch : bool) : Z :=
  match set with
  | [] => if foundNoMatch then (-1)%Z else 0%Z
  | con :: rest =>
      if negb (String.eqb (GetKey con) (TierKey tier)) then
        matchTierLoop tier rest foundNoMatch
      else if String.eqb (GetValue con) (TierValue tier) then
        (if negb (IsRequired con) then (-1)%Z else 1%Z)
      else
        matchTierLoop tier rest (if IsRequired con then true else foundNoMatch)
  end.

Definition matchTier (tier : Tier) (set : ConstraintSet) : Z :=
  matchTierLoop tier set false.

(** The closure [matchConstraints]: [i] is the index of the first of
    [tiers] in [locality.Tiers]. *)
Fixpoint matchConstraintsLoop (tiers : list Tier) (set : ConstraintSet)
    (i : Z) (matchCount : Z) : Z :=
  match tiers with
  | [] => matchCount
  | tier :: rest =>
      let m := matchTier tier set in
      if (m =? 1)%Z then matchConstraintsLoop rest set (i + 1) (i + 1)
      else if (m =? -1)%Z then matchCount
      else matchConstraintsLoop rest set (i + 1) matchCount
  end.

Definition matchConstraints (l : Locality) (set : ConstraintSet) : Z :=
  matchConstraintsLoop (Tiers l) set 0 0.

(** [intsets.MaxInt] on a 64-bit platform. *)
Definition MaxInt : Z := (2 ^ 63 - 1)%Z.

(** The loop over the replica constraints: the minimum match count. *)
Definition minMatchCount (l : Locality) (sets : list ConstraintSet) : Z :=
  fold_left (fun minCount set =>
               let matchCount := matchConstraints l set in
               if (matchCount <? minCount)%Z then matchCount else minCount)
            sets MaxInt.

(** [func localityMatchScore(zone cat.Zone, locality roachpb.Locality)
    float64] *)
Definition localityMatchScore (zone : Zone) (l : Locality) : F :=
  if (ReplicaConstraintsCount zone =? 0)%nat && (LeasePreferenceCount zone =? 0)%nat
  then dec 0 0
  else
    let constraintScore :=
      if negb (ReplicaConstraintsCount zone =? 0)%nat then
        ofInt (minMatchCount l (ReplicaConstraints zone)) / ofNat (length (Tiers l))
      else dec 0 0 in
    match LeasePreferences zone with
    | [] => constraintScore
    | pref0 :: _ =>
        let matchCount := matchConstraints l pref0 in
        let leaseScore := ofInt matchCount / ofNat (length (Tiers l)) in
        (constraintScore * dec 2 0 + leaseScore) / dec 3 0
    end.

(** *** Per-row costs *)

(** The loop of [rowSortCost]: [c] is [cpuCostFactor * eqProb^i]. *)
Fixpoint rowSortCostLoop (n : nat) (c cost : F) : F :=
  match n with
  | O => cost
  | S n' => rowSortCostLoop n' (c * dec 1 (-1)) (cost + c)
  end.

(** [func (c *coster) rowSortCost(numKeyCols int) memo.Cost] *)
Definition rowSortCost (numKeyCols : nat) : F :=
  rowSortCostLoop numKeyCols cpuCostFactor cpuCostFactor.

(** [func (c *coster) rowScanCost(tabID, idxOrd, numScannedCols) memo.Cost] *)
Definition rowScanCost (c : coster) (tabID : TableID) (idxOrd : nat)
    (numScannedCols : nat) : F :=
  let idx := TableIndex (mem c) tabID idxOrd in
  let numCols := ColumnCount idx in
  let costFactor :=
    if negb (length (Tiers (locality c)) =? 0)%nat then
      let adjustment := one - localityMatchScore (IndexZone idx) (locality c) in
      cpuCostFactor + latencyCostFactor * adjustment
    else cpuCostFactor in
  ofNat (numCols + numScannedCols) * costFactor.

(** *** Per-operator costs *)

Definition computeSortCost (sort : RelExpr) (required : Required) : F :=
  let rowCount := rowCount sort in
  let perRowCost := rowSortCost (length (OrderingColumns required)) in
  let cost := rowCount * perRowCost in
  if flt one rowCount then cost * (one + flog2 rowCount) else cost.

Definition computeScanCost (c : coster) (scan : ScanPrivate) (rel : Relational)
    (required : Required) : F :=
  if ForceIndex (Flags scan) && negb (FlagsIndex (Flags scan) =? ScanIndex scan)%nat
  then hugeCost
  else
    let rowCount := RowCount rel in
    let perRowCost := rowScanCost c (ScanTable scan) (ScanIndex scan) (Len (ScanCols scan)) in
    let perRowCost :=
      if ScanIsReverse scan required then
        if flt one rowCount then perRowCost + flog2 rowCount * cpuCostFactor
        else perRowCost
      else perRowCost in
    let preferConstrainedScanCost :=
      match ScanConstraint scan with
      | None | Some true => cpuCostFactor
      | Some false => zeroCost
      end in
    rowCount * (seqIOCostFactor + perRowCost) + preferConstrainedScanCost.

Definition computeVirtualScanCost (scan : RelExpr) : F :=
  rowCount scan * cpuCostFactor.

Definition computeSelectCost (Input : RelExpr) : F :=
  rowCount Input * cpuCostFactor.

Definition computeProjectCost (prj : RelExpr) (ProjectionsLen : nat) : F :=
  let rowCount := rowCount prj in
  let cost := rowCount * ofNat ProjectionsLen * cpuCostFactor in
  cost + rowCount * cpuCostFactor.

Definition computeValuesCost (values : RelExpr) : F :=
  rowCount values * cpuCostFactor.

Definition computeHashJoinCost (join Left Right : RelExpr) (flags : JoinFlags) : F :=
  if DisallowHashJoin flags then hugeCost
  else
    let leftRowCount := rowCount Left in
    let rightRowCount := rowCount Right in
    let cost := (dec 125 (-2) * leftRowCount + dec 175 (-2) * rightRowCount)
                * cpuCostFactor in
    cost + rowCount join * cpuCostFactor.

Definition computeMergeJoinCost (join Left Right : RelExpr) : F :=
  let cost := (rowCount Left + rowCount Right) * cpuCostFactor in
  cost + rowCount join * cpuCostFactor.

Definition computeIndexJoinCost (c : coster) (Input : RelExpr) (Table : TableID)
    (Cols : ColSet) : F :=
  let leftRowCount := rowCount Input in
  let perRowCost := dec 401 (-2) + rowScanCost c Table PrimaryIndex (Len Cols) in
  leftRowCount * perRowCost.

Definition computeLookupJoinCost (c : coster) (join Input : RelExpr)
    (Table : TableID) (Index : nat) (Cols : ColSet) (OnLen : nat) : F :=
  let leftRowCount := rowCount Input in
  let perLookupCost := randIOCostFactor in
  let cost := leftRowCount * perLookupCost in
  let numLookupCols := Len (Difference Cols (OutputCols (Rel Input))) in
  let perRowCost := lookupJoinRetrieveRowCost + rowScanCost c Table Index numLookupCols in
  let perRowCost := perRowCost + cpuCostFactor * ofNat OnLen in
  cost + rowCount join * perRowCost.

Definition computeZigzagJoinCost (c : coster) (join : RelExpr)
    (LeftTable : TableID) (LeftIndex : nat) (RightTable : TableID)
    (RightIndex : nat) (Cols : ColSet) : F :=
  let rowCount := rowCount join in
  let leftCols :=
    IntersectionWith (IndexColumns (TableIndex (mem c) LeftTable LeftIndex)) Cols in
  let rightCols :=
    IntersectionWith (IndexColumns (TableIndex (mem c) RightTable RightIndex)) Cols in
  let rightCols := DifferenceWith rightCols leftCols in
  let scanCost := rowScanCost c LeftTable LeftIndex (Len leftCols) in
  let scanCost := scanCost + rowScanCost c RightTable RightIndex (Len rightCols) in
  rowCount * (dec 202 (-2) + scanCost).

Definition computeSetCost (set : RelExpr) (op : SetOp) (Left Right : RelExpr) : F :=
  let cost := rowCount set * cpuCostFactor in
  match op with
  | UnionAllOp => cost
  | _ => cost + (rowCount Left + rowCount Right) * cpuCostFactor
  end.

Definition computeGroupingCost (grouping Input : RelExpr) (AggsLen : nat)
    (private : GroupingPrivate) (required : Required) : F :=
  let cost := rowCount grouping * cpuCostFactor in
  let inputRowCount := rowCount Input in
  let aggsCount := AggsLen in
  let groupingColCount := Len (GroupingCols private) in
  let cost := cost + inputRowCount * ofNat (aggsCount + groupingColCount) * cpuCostFactor in
  if (0 <? groupingColCount)%nat then
    let hashCost := inputRowCount * cpuCostFactor in
    let n := StreamingGroupingColOrderingLen private required in
    let hashCost := hashCost * (one - ofNat n / ofNat groupingColCount) in
    cost + hashCost
  else cost.

Definition computeLimitCost (limit : RelExpr) : F := rowCount limit * cpuCostFactor.
Definition computeOffsetCost (offset : RelExpr) : F := rowCount offset * cpuCostFactor.
Definition computeOrdinalityCost (ord : RelExpr) : F := rowCount ord * cpuCostFactor.
Definition computeProjectSetCost (projectSet : RelExpr) : F :=
  rowCount projectSet * cpuCostFactor.

(** The switch of [ComputeCost] on [candidate.Op()]. *)
Definition operatorCost (c : coster) (candidate : RelExpr) (required : Required) : F :=
  match candidate with
  | SortExpr _ _ => computeSortCost candidate required
  | ScanExpr scan rel => computeScanCost c scan rel required
  | VirtualScanExpr _ => computeVirtualScanCost candidate
  | SelectExpr Input _ => computeSelectCost Input
  | ProjectExpr _ n _ => computeProjectCost candidate n
  | ValuesExpr _ => computeValuesCost candidate
  | JoinExpr _ Left Right flags _ => computeHashJoinCost candidate Left Right flags
  | MergeJoinExpr Left Right _ => computeMergeJoinCost candidate Left Right
  | IndexJoinExpr Input Table Cols _ => computeIndexJoinCost c Input Table Cols
  | LookupJoinExpr Input Table Index Cols OnLen _ =>
      computeLookupJoinCost c candidate Input Table Index Cols OnLen
  | ZigzagJoinExpr lt li rt ri Cols _ => computeZigzagJoinCost c candidate lt li rt ri Cols
  | SetExpr op Left Right _ => computeSetCost candidate op Left Right
  | GroupingExpr _ Input AggsLen private _ =>
      computeGroupingCost candidate Input AggsLen private required
  | LimitExpr _ _ => computeLimitCost candidate
  | OffsetExpr _ _ => computeOffsetCost candidate
  | OrdinalityExpr _ _ => computeOrdinalityCost candidate
  | ProjectSetExpr _ _ => computeProjectSetCost candidate
  | ExplainExpr _ _ => zeroCost
  | OtherExpr _ => zeroCost
  end.

(** The perturbation step; [u] is the value [rand.Float64()] returns, a
    float in [0, 1). *)
Definition perturb (c : coster) (cost : F) (u : F) : F :=
  if negb (feq (perturbation c) zeroCost) then
    if flt cost hugeCost then
      let multiplier := dec 2 0 * u - one in
      let cost := cost + cost * (perturbation c * multiplier) in
      if flt cost zeroCost then zeroCost else cost
    else cost
  else cost.

(** [func (c *coster) ComputeCost(candidate, required) memo.Cost] *)
Definition ComputeCost (c : coster) (candidate : RelExpr) (required : Required)
    (u : F) : result F :=
  let cost := operatorCost c candidate required in
  let cost := cost + cpuCostFactor in
  if negb (belowMax cost) then Panic "node with MaxCost added to the memo"
  else Ok (perturb c cost u).

Local Close Scope cost_scope.

(** ** Properties of localityMatchScore *)

(** The values of the tiers of a locality against a constraint set. *)
Definition tierValues (l : Locality) (set : ConstraintSet) : list Z :=
  List.map (fun tier => matchTier tier set) (Tiers l).

(** The spec's "longest tier prefix that matches a required constraint
    without hitting a prohibited one", in the words of the algorithm's
    description: a prefix of length [k] of the tier values that contains no
    -1 and, unless empty, ends in a +1. *)
Definition matchPrefix (vs : list Z) (k : nat) : Prop :=
  k <= length vs /\
  (forall j v, j < k -> vs !! j = Some v -> v <> (-1)%Z) /\
  (k = 0 \/ vs !! (k - 1) = Some 1%Z).

Definition longestMatchPrefix (vs : list Z) (m : nat) : Prop :=
  matchPrefix vs m /\ forall k, matchPrefix vs k -> k <= m.

(** The length of the longest match prefix, from the front. *)
Fixpoint longest (vs : list Z) : nat :=
  match vs with
  | [] => 0
  | v :: rest =>
      if (v =? 1)%Z then S (longest rest)
      else if (v =? -1)%Z then 0
      else match longest rest with 0 => 0 | S n => S (S n) end
  end.

Lemma longest_matchPrefix vs : matchPrefix vs (longest vs).
Proof.
  induction vs as [|v rest (Hlen & Hno & Hend)]; simpl.
  - split; [lia|]. split; [intros; lia | left; reflexivity].
  - destruct (v =? 1)%Z eqn:H1.
    + apply Z.eqb_eq in H1. subst v. split; [simpl; lia|]. split.
      * intros [|j] w Hj Hw; simpl in Hw.
        -- injection Hw as <-. lia.
        -- apply (Hno j w); [lia | exact Hw].
      * right. simpl. rewrite Nat.sub_0_r.
        destruct (longest rest) as [|n] eqn:Hn; [reflexivity|].
        destruct Hend as [Hz|He]; [discriminate|].
        simpl in He. rewrite Nat.sub_0_r in He. exact He.
    + destruct (v =? -1)%Z eqn:Hm.
      * split; [simpl; lia|]. split; [intros; lia | left; reflexivity].
      * destruct (longest rest) as [|n] eqn:Hn.
        -- split; [simpl; lia|]. split; [intros; lia | left; reflexivity].
        -- split; [simpl in *; lia|]. split.
           ++ intros [|j] w Hj Hw; simpl in Hw.
              ** injection Hw as <-. apply Z.eqb_neq in Hm. exact Hm.
              ** apply (Hno j w); [lia | exact Hw].
           ++ right. destruct Hend as [Hz|He]; [discriminate|].
              simpl in *. rewrite Nat.sub_0_r in *. exact He.
Qed.

Lemma matchPrefix_cons v rest k :
  matchPrefix (v :: rest) (S k) ->
  v <> (-1)%Z /\ matchPrefix rest k /\ (k = 0 -> v = 1%Z).
Proof.
  intros (Hlen & Hno & Hend). split; [|split].
  - apply (Hno 0 v); [lia | reflexivity].
  - split; [simpl in Hlen; lia|]. split.
    + intros j w Hj Hw. apply (Hno (S j) w); [lia | exact Hw].
    + destruct k as [|k]; [left; reflexivity | right].
      destruct Hend as [Hz|He]; [discriminate|].
      simpl in *. rewrite Nat.sub_0_r in *. exact He.
  - intros ->. destruct Hend as [Hz|He]; [discriminate|].
    simpl in He. congruence.
Qed.

Lemma longest_maximal vs : forall k, matchPrefix vs k -> k <= longest vs.
Proof.
  induction vs as [|v rest IH]; intros k Hk.
  - destruct Hk as (Hlen & _). simpl in *. lia.
  - destruct k as [|k]; [lia|].
    apply matchPrefix_cons in Hk as (Hv & Hrest & Hone).
    specialize (IH k Hrest). simpl.
    destruct (v =? 1)%Z eqn:H1; [lia|].
    apply Z.eqb_neq in H1.
    destruct (v =? -1)%Z eqn:Hm; [apply Z.eqb_eq in Hm; contradiction|].
    destruct k as [|k]; [exfalso; apply H1, Hone; reflexivity|].
    destruct (longest rest); lia.
Qed.

Lemma matchConstraintsLoop_longest set tiers :
  forall i matchCount,
    matchConstraintsLoop tiers set i matchCount =
    match longest (List.map (fun tier => matchTier tier set) tiers) with
    | 0 => matchCount
    | S n => (i + Z.of_nat (S n))%Z
    end.
Proof.
  induction tiers as [|tier rest IH]; intros i mc; simpl; [reflexivity|].
  destruct (matchTier tier set =? 1)%Z.
  - rewrite IH. destruct (longest _); lia.
  - destruct (matchTier tier set =? -1)%Z; [reflexivity|].
    rewrite IH. destruct (longest _); lia.
Qed.

(** [matchConstraints] is the length of the longest match prefix. *)
Lemma matchConstraints_longest l set :
  matchConstraints l set = Z.of_nat (longest (tierValues l set)) /\
  longestMatchPrefix (tierValues l set) (longest (tierValues l set)).
Proof.
  split.
  - unfold matchConstraints, tierValues. rewrite matchConstraintsLoop_longest.
    destruct (longest _); lia.
  - split; [apply longest_matchPrefix | apply longest_maximal].
Qed.

Lemma matchConstraints_bounds l set :
  (0 <= matchConstraints l set <= Z.of_nat (length (Tiers l)))%Z.
Proof.
  destruct (matchConstraints_longest l set) as (-> & (Hlen & _) & _).
  unfold tierValues in *. rewrite length_map in Hlen. lia.
Qed.

(** The minimum over the replica constraint groups. *)
Definition minStep (l : Locality) (minCount : Z) (set : ConstraintSet) : Z :=
  let matchCount := matchConstraints l set in
  if (matchCount <? minCount)%Z then matchCount else minCount.

Lemma minMatchCount_fold l sets : forall acc,
  (fold_left (minStep l) sets acc <= acc)%Z /\
  Forall (fun set => (fold_left (minStep l) sets acc <= matchConstraints l set)%Z) sets /\
  (fold_left (minStep l) sets acc = acc \/
   Exists (fun set => fold_left (minStep l) sets acc = matchConstraints l set) sets).
Proof.
  induction sets as [|set rest IH]; intros acc; simpl.
  - split; [lia|]. split; [constructor | left; reflexivity].
  - destruct (IH (minStep l acc set)) as (Hle & Hall & Hex).
    assert (Hacc' : (minStep l acc set <= acc /\
                     minStep l acc set <= matchConstraints l set)%Z /\
                    (minStep l acc set = acc \/
                     minStep l acc set = matchConstraints l set)).
    { unfold minStep. destruct (Z.ltb_spec (matchConstraints l set) acc); lia. }
    destruct Hacc' as ((Ha1 & Ha2) & Ha3).
    split; [lia|]. split.
    + constructor; [lia | exact Hall].
    + destruct Hex as [Heq|Hex].
      * destruct Ha3 as [H1|H2]; [left; lia|].
        right. apply Exists_cons_hd. lia.
      * right. apply Exists_cons_tl, Hex.
Qed.

Lemma minMatchCount_spec l sets :
  sets <> [] ->
  (Z.of_nat (length (Tiers l)) <= MaxInt)%Z ->
  Forall (fun set => (minMatchCount l sets <= matchConstraints l set)%Z) sets /\
  Exists (fun set => minMatchCount l sets = matchConstraints l set) sets /\
  (0 <= minMatchCount l sets <= Z.of_nat (length (Tiers l)))%Z.
Proof.
  intros Hne Hint.
  change (minMatchCount l sets) with (fold_left (minStep l) sets MaxInt).
  destruct (minMatchCount_fold l sets MaxInt) as (Hle & Hall & Hex).
  assert (HE : Exists (fun set => fold_left (minStep l) sets MaxInt
                                  = matchConstraints l set) sets).
  { destruct Hex as [Heq|Hex]; [|exact Hex].
    destruct sets as [|set rest]; [contradiction|].
    apply Exists_cons_hd.
    apply Forall_cons in Hall as [H1 _].
    (* the minimum is still MaxInt: the first group has that many matches *)
    simpl in Heq, H1 |- *.
    destruct (minMatchCount_fold l rest (minStep l MaxInt set)) as (Hle' & _).
    pose proof (matchConstraints_bounds l set) as Hb.
    assert (Hstep : minStep l MaxInt set = matchConstraints l set \/
                    (minStep l MaxInt set = MaxInt /\
                     MaxInt <= matchConstraints l set)%Z).
    { unfold minStep.
      destruct (Z.ltb_spec (matchConstraints l set) MaxInt); [left | right]; lia. }
    destruct Hstep as [Hs|[Hs Hge]]; rewrite Hs in *; lia. }
  split; [exact Hall|]. split; [exact HE|].
  apply Exists_exists in HE as (set & _ & ->). apply matchConstraints_bounds.
Qed.

(** The value of a tier in the words of the algorithm's description: +1
    when the first constraint with the tier's key and value is a required
    one, -1 when it is a prohibited one, or when there is none but some
    required constraint has the tier's key; 0 otherwise. *)
Definition sameKey (tier : Tier) (con : Constraint) : bool :=
  String.eqb (GetKey con) (TierKey tier).
Definition sameKeyValue (tier : Tier) (con : Constraint) : bool :=
  sameKey tier con && String.eqb (GetValue con) (TierValue tier).

Definition tierValue (tier : Tier) (set : list Constraint) : Z :=
  match List.find (sameKeyValue tier) set with
  | Some con => if IsRequired con then 1%Z else (-1)%Z
  | None =>
      if existsb (fun con => sameKey tier con && IsRequired con) set
      then (-1)%Z else 0%Z
  end.

Lemma matchTierLoop_tierValue tier set : forall foundNoMatch,
  matchTierLoop tier set foundNoMatch =
  match List.find (sameKeyValue tier) set with
  | Some con => if IsRequired con then 1%Z else (-1)%Z
  | None =>
      if foundNoMatch || existsb (fun con => sameKey tier con && IsRequired con) set
      then (-1)%Z else 0%Z
  end.
Proof.
  induction set as [|con rest IH]; intros f; simpl.
  - rewrite orb_false_r. reflexivity.
  - unfold sameKeyValue, sameKey.
    destruct (String.eqb (GetKey con) (TierKey tier)); simpl.
    + destruct (String.eqb (GetValue con) (TierValue tier)); simpl.
      * destruct (IsRequired con); reflexivity.
      * rewrite IH. destruct (List.find _ rest); [reflexivity|].
        destruct (IsRequired con), f; simpl; reflexivity.
    + apply IH.
Qed.

Lemma matchTier_tierValue tier set : matchTier tier set = tierValue tier set.
Proof. unfold matchTier, tierValue. rewrite matchTierLoop_tierValue. reflexivity. Qed.

(** The two match fractions of a zone: the replica-constraint fraction
    (the least match count over the replica constraint groups, 0 without
    replica constraints) and the lease-preference fraction (of the first
    lease preference, 0 without one), each divided by the number of tiers. *)
Definition constraintFraction (zone : Zone) (l : Locality) : F :=
  match ReplicaConstraints zone with
  | [] => dec 0 0
  | _ => (ofInt (minMatchCount l (ReplicaConstraints zone))
          / ofNat (length (Tiers l)))%C
  end.

Definition leaseFraction (zone : Zone) (l : Locality) : F :=
  match LeasePreferences zone with
  | [] => dec 0 0
  | pref0 :: _ => (ofInt (matchConstraints l pref0) / ofNat (length (Tiers l)))%C
  end.

(** The score as the claim states it, for every zone and locality. *)
Definition claimedScore (zone : Zone) (l : Locality) : F :=
  ((dec 2 0 * constraintFraction zone l + leaseFraction zone l) / dec 3 0)%C.

(** C7, amended.  With neither replica constraints nor lease preferences
    the score is 0; with replica constraints and no lease preference it is
    the replica-constraint match fraction itself; with a lease preference it
    is (replica-constraint fraction * 2 + lease-preference fraction) / 3.
    A match fraction is a match count over the number of tiers; the match
    count of a constraint set is the length of the longest prefix of the
    locality's tiers that ends in a tier matching a required constraint and
    contains no tier of value -1, and the replica-constraint count is the
    least count over the replica constraint groups. *)
Theorem localityMatchScore_cases (zone : Zone) (l : Locality) :
  (Z.of_nat (length (Tiers l)) <= MaxInt)%Z ->
  (ReplicaConstraints zone = [] -> LeasePreferences zone = [] ->
     localityMatchScore zone l = dec 0 0) /\
  (ReplicaConstraints zone <> [] -> LeasePreferences zone = [] ->
     localityMatchScore zone l = constraintFraction zone l) /\
  (LeasePreferences zone <> [] ->
     localityMatchScore zone l =
     ((constraintFraction zone l * dec 2 0 + leaseFraction zone l) / dec 3 0)%C) /\
  (ReplicaConstraints zone <> [] ->
     exists m : nat,
       constraintFraction zone l = (ofNat m / ofNat (length (Tiers l)))%C /\
       m <= length (Tiers l) /\
       Exists (fun set => longestMatchPrefix (tierValues l set) m)
              (ReplicaConstraints zone) /\
       Forall (fun set => forall k, longestMatchPrefix (tierValues l set) k -> m <= k)
              (ReplicaConstraints zone)) /\
  (forall pref0 rest, LeasePreferences zone = pref0 :: rest ->
     exists m : nat,
       leaseFraction zone l = (ofNat m / ofNat (length (Tiers l)))%C /\
       m <= length (Tiers l) /\
       longestMatchPrefix (tierValues l pref0) m) /\
  (forall set, tierValues l set = List.map (fun tier => tierValue tier set) (Tiers l)).
Proof.
  intros Hint.
  unfold localityMatchScore, constraintFraction, leaseFraction,
    ReplicaConstraintsCount, LeasePreferenceCount.
  split; [|split; [|split; [|split; [|split]]]].
  - intros -> ->. reflexivity.
  - intros Hr ->. destruct (ReplicaConstraints zone); [contradiction|]. reflexivity.
  - intros Hl. destruct (LeasePreferences zone) as [|p rest]; [contradiction|].
    destruct (ReplicaConstraints zone); simpl; rewrite ?andb_false_r; reflexivity.
  - intros Hr.
    destruct (minMatchCount_spec l (ReplicaConstraints zone) Hr Hint)
      as (Hall & Hex & Hb).
    exists (Z.to_nat (minMatchCount l (ReplicaConstraints zone))).
    unfold ofNat. rewrite Z2Nat.id by lia.
    split; [destruct (ReplicaConstraints zone); [contradiction | reflexivity]|].
    split; [lia|]. split.
    + eapply Exists_impl; [exact Hex|]. intros set Hm. simpl in Hm. rewrite Hm.
      destruct (matchConstraints_longest l set) as (-> & Hlong).
      rewrite Nat2Z.id. exact Hlong.
    + eapply Forall_impl; [exact Hall|]. intros set Hm k (_ & Hkmax). simpl in Hm.
      destruct (matchConstraints_longest l set) as (Heq & Hvalid & _).
      specialize (Hkmax _ Hvalid). lia.
  - intros pref0 rest ->.
    destruct (matchConstraints_longest l pref0) as (Heq & Hlong).
    exists (longest (tierValues l pref0)). unfold ofNat. rewrite <- Heq.
    split; [reflexivity|]. split; [|exact Hlong].
    pose proof (matchConstraints_bounds l pref0). lia.
  - intros set. unfold tierValues. apply List.map_ext.
    intros tier. apply matchTier_tierValue.
Qed.

End Coster.

(* --------------------------------------------------------------------- *)
(** ** The coster over IEEE binary64                                       *)
(* --------------------------------------------------------------------- *)
Section Float64.

(** [math.Log2], [ordering.ScanIsReverse] and
    [ordering.StreamingGroupingColOrdering] are arbitrary. *)
Variable log2 : float -> float.
Variable ScanIsReverse : ScanPrivate -> Required -> bool.
Variable StreamingGroupingColOrderingLen : GroupingPrivate -> Required -> nat.

Local Abbreviation A64 := (float64 log2).
Local Abbreviation ComputeCost64 :=
  (@ComputeCost float A64 ScanIsReverse StreamingGroupingColOrderingLen).
Local Abbreviation operatorCost64 :=
  (@operatorCost float A64 ScanIsReverse StreamingGroupingColOrderingLen).
Local Abbreviation hugeCost64 := (@hugeCost float A64).
Local Abbreviation cpuCostFactor64 := (@cpuCostFactor float A64).

(** The constants are the floats Go gives them. *)
Lemma float64_constants :
  @cpuCostFactor float A64 = 0.01%float /\
  @seqIOCostFactor float A64 = 1%float /\
  @randIOCostFactor float A64 = 4%float /\
  @lookupJoinRetrieveRowCost float A64 = 2%float /\
  @hugeCost float A64 = 1e100%float /\
  @zeroCost float A64 = 0%float /\
  @dec float A64 401 (-2) = 4.01%float /\
  @dec float A64 202 (-2) = 2.02%float /\
  @dec float A64 125 (-2) = 1.25%float /\
  @dec float A64 175 (-2) = 1.75%float /\
  @dec float A64 1 (-1) = 0.1%float /\
  @dec float A64 3 0 = 3%float.
Proof. repeat split; vm_compute; reflexivity. Qed.

(** [x <= y] excludes [y < x]. *)
Lemma SFleb_not_SFltb a b : SFleb a b = true -> SFltb b a = false.
Proof.
  unfold SFleb, SFltb.
  destruct a as [sa|sa| |sa ma ea], b as [sb|sb| |sb mb eb]; simpl;
    try destruct sa; try destruct sb; simpl; try discriminate; try reflexivity.
  all: rewrite (Z.compare_antisym ea eb); destruct (ea ?= eb)%Z; simpl;
    try discriminate; try reflexivity.
  all: change (Pos.compare_cont Eq mb ma) with (Pos.compare mb ma);
    change (Pos.compare_cont Eq ma mb) with (Pos.compare ma mb);
    rewrite (Pos.compare_antisym ma mb); destruct (ma ?= mb)%positive; simpl;
    try discriminate; try reflexivity.
Qed.

Lemma leb_not_ltb (x y : float) :
  PrimFloat.leb x y = true -> PrimFloat.ltb y x = false.
Proof. rewrite leb_spec, ltb_spec. apply SFleb_not_SFltb. Qed.

(** A cost the perturbation step leaves alone. *)
Lemma perturb_sentinel (c : @coster float) (cost u : float) :
  PrimFloat.ltb cost hugeCost64 = false -> @perturb float A64 c cost u = cost.
Proof.
  intros Hlt. unfold perturb.
  destruct (negb (feq (perturbation c) zeroCost)); [|reflexivity].
  change (flt cost hugeCost) with (PrimFloat.ltb cost hugeCost64).
  rewrite Hlt. reflexivity.
Qed.

Lemma hugeCost_setup :
  @fadd float A64 hugeCost64 cpuCostFactor64 = 1e100%float.
Proof. vm_compute. reflexivity. Qed.

(** C5. A scan whose flags force an index other than the one it scans costs
    at least [hugeCost], for every locality and metadata, every
    perturbation fraction, every random draw and every row count: the call
    returns (no assertion fails) and its result is [hugeCost] itself. *)
Theorem forced_index_scan_hugeCost (c : @coster float) (scan : ScanPrivate)
    (rel : @Relational float) (required : Required) (u : float) :
  ForceIndex (Flags scan) = true ->
  FlagsIndex (Flags scan) <> ScanIndex scan ->
  exists cost,
    ComputeCost64 c (ScanExpr scan rel) required u = Ok cost /\
    PrimFloat.leb hugeCost64 cost = true /\
    cost = 1e100%float.
Proof.
  intros Hforce Hidx.
  exists 1e100%float.
  unfold ComputeCost, operatorCost, computeScanCost.
  rewrite Hforce. apply Nat.eqb_neq in Hidx. rewrite Hidx. simpl andb. cbv iota.
  rewrite hugeCost_setup.
  split; [|split; [vm_compute; reflexivity | reflexivity]].
  change (belowMax 1e100%float) with (Less 1e100 MaxCost).
  replace (Less 1e100 MaxCost) with true by (vm_compute; reflexivity).
  simpl negb. cbv iota. f_equal.
  apply perturb_sentinel. vm_compute. reflexivity.
Qed.

(** C10. When the cost of the operator plus the setup cost is at or above
    [hugeCost], the perturbation is skipped: whatever the perturbation
    fractions and the random draws of two runs, they end alike, with that
    cost unchanged (or with the MaxCost assertion, when the cost is not
    below MaxCost). *)
Theorem sentinel_cost_not_perturbed (m : Metadata) (l : Locality)
    (p1 p2 u1 u2 : float) (candidate : @RelExpr float) (required : Required) :
  let c1 := {| mem := m; locality := l; perturbation := p1 |} in
  let c2 := {| mem := m; locality := l; perturbation := p2 |} in
  let cost := @fadd float A64 (operatorCost64 c1 candidate required)
                              cpuCostFactor64 in
  PrimFloat.leb hugeCost64 cost = true ->
  ComputeCost64 c1 candidate required u1 = ComputeCost64 c2 candidate required u2
  /\
  ComputeCost64 c1 candidate required u1
  = if Less cost MaxCost then Ok cost
    else Panic "node with MaxCost added to the memo".
Proof.
  intros c1 c2 cost Hhuge.
  assert (Hsame : operatorCost64 c2 candidate required
                  = operatorCost64 c1 candidate required).
  { destruct candidate; reflexivity. }
  apply leb_not_ltb in Hhuge.
  unfold ComputeCost. rewrite Hsame. fold cost.
  change (belowMax cost) with (Less cost MaxCost).
  destruct (Less cost MaxCost); simpl; [|split; reflexivity].
  rewrite !perturb_sentinel by exact Hhuge. split; reflexivity.
Qed.

Lemma zeroCost_float64 : @zeroCost float A64 = 0%float.
Proof. vm_compute. reflexivity. Qed.

(** X15. A join whose flags disallow hash joins costs [hugeCost] over
    binary64, for every join operator, whatever its inputs and row counts,
    the perturbation and the random draw: the call returns and its result
    is [hugeCost] itself, which the perturbation leaves alone. *)
Theorem disallowed_hash_join_hugeCost (c : @coster float) (op : JoinOp)
    (left right : @RelExpr float) (flags : JoinFlags) (rel : @Relational float)
    (required : Required) (u : float) :
  DisallowHashJoin flags = true ->
  operatorCost64 c (JoinExpr op left right flags rel) required = hugeCost64 /\
  ComputeCost64 c (JoinExpr op left right flags rel) required u = Ok 1e100%float.
Proof.
  intros Hflag.
  assert (Hop : operatorCost64 c (JoinExpr op left right flags rel) required
                = hugeCost64).
  { cbn [operatorCost]. unfold computeHashJoinCost. rewrite Hflag. reflexivity. }
  split; [exact Hop|].
  unfold ComputeCost. rewrite Hop, hugeCost_setup.
  change (belowMax 1e100%float) with (Less 1e100 MaxCost).
  replace (Less 1e100 MaxCost) with true by (vm_compute; reflexivity).
  simpl negb. cbv iota. f_equal.
  apply perturb_sentinel. vm_compute. reflexivity.
Qed.

(** X16. Over binary64 the perturbation never takes a cost below
    zero: when the cost of the operator and its setup is not below zero,
    neither is the cost [ComputeCost] returns, whatever the perturbation
    and the random draw; and a cost that is perturbed comes out not below
    zero in any case. *)
Theorem perturbed_cost_not_negative (c : @coster float) (candidate : @RelExpr float)
    (required : Required) (u cost : float) :
  ComputeCost64 c candidate required u = Ok cost ->
  let base := @fadd float A64 (operatorCost64 c candidate required)
                              cpuCostFactor64 in
  (PrimFloat.ltb base 0 = false -> PrimFloat.ltb cost 0 = false) /\
  (PrimFloat.eqb (perturbation c) 0 = false ->
   PrimFloat.ltb base hugeCost64 = true ->
   PrimFloat.ltb cost 0 = false) /\
  (PrimFloat.ltb cost 0 = true -> cost = base).
Proof.
  intros Hrun base. unfold ComputeCost in Hrun. fold base in Hrun.
  destruct (negb (belowMax base)); [discriminate|].
  injection Hrun as <-. unfold perturb.
  change (feq (perturbation c) zeroCost)
    with (PrimFloat.eqb (perturbation c) (@zeroCost float A64)).
  change (flt base hugeCost) with (PrimFloat.ltb base hugeCost64).
  rewrite zeroCost_float64.
  destruct (PrimFloat.eqb (perturbation c) 0) eqn:Hp; simpl negb; cbv iota.
  - split; [auto|]. split; [discriminate | reflexivity].
  - destruct (PrimFloat.ltb base hugeCost64) eqn:Hh.
    + cbv zeta.
      match goal with
      | |- context [if flt ?x ?z then _ else _] =>
          change (flt x z) with (PrimFloat.ltb x z);
          destruct (PrimFloat.ltb x z) eqn:Hneg
      end.
      * assert (H0 : PrimFloat.ltb 0 0 = false) by (vm_compute; reflexivity).
        split; [auto|]. split; [auto|]. intros H. congruence.
      * split; [auto|]. split; [auto|]. intros H. congruence.
    + split; [auto|]. split; [discriminate | reflexivity].
Qed.

End Float64.

(* --------------------------------------------------------------------- *)
(** ** Worked examples over binary64                                       *)
(* --------------------------------------------------------------------- *)

(** Stand-ins for [math.Log2] and package ordering in examples whose path
    never calls them. *)
Definition anyLog2 : float -> float := fun x => x.
Definition neverReverse : ScanPrivate -> Required -> bool := fun _ _ => false.
Definition noStreaming : GroupingPrivate -> Required -> nat := fun _ _ => 0.

(** The locality [region=us,dc=east] of the examples in the comment of
    [localityMatchScore], and zones with the constraints listed there. *)
Definition required_ (k v : string) : Constraint :=
  {| IsRequired := true; GetKey := k; GetValue := v |}.
Definition prohibited_ (k v : string) : Constraint :=
  {| IsRequired := false; GetKey := k; GetValue := v |}.
Definition usEast : Locality :=
  {| Tiers := [ {| TierKey := "region"; TierValue := "us" |};
               {| TierKey := "dc"; TierValue := "east" |} ] |}.
Definition replicas (set : list Constraint) : Zone :=
  {| ReplicaConstraints := [set]; LeasePreferences := [] |}.

Definition score64 (zone : Zone) (l : Locality) : float :=
  @localityMatchScore float (float64 anyLog2) zone l.

(** The scoring examples of the source comment. *)
Lemma localityMatchScore_examples :
  score64 {| ReplicaConstraints := []; LeasePreferences := [] |} usEast = 0%float /\
  score64 (replicas [required_ "region" "eu"; required_ "dc" "uk"]) usEast = 0%float /\
  score64 (replicas [required_ "region" "eu"; required_ "dc" "east"]) usEast = 0%float /\
  score64 (replicas [prohibited_ "region" "us"; required_ "dc" "east"]) usEast = 0%float /\
  score64 (replicas [prohibited_ "region" "eu"]) usEast = 0%float /\
  score64 (replicas [required_ "region" "us"]) usEast = 0.5%float /\
  score64 (replicas [required_ "region" "us"; prohibited_ "dc" "east"]) usEast = 0.5%float /\
  score64 (replicas [required_ "region" "us"; required_ "dc" "west"]) usEast = 0.5%float /\
  score64 (replicas [required_ "region" "us"; required_ "dc" "east"]) usEast = 1%float /\
  score64 (replicas [required_ "dc" "east"]) usEast = 1%float /\
  score64 (replicas [required_ "region" "us"; required_ "dc" "east";
                     required_ "rack" "1"; prohibited_ "ssd" ""]) usEast = 1%float.
Proof. repeat split; vm_compute; reflexivity. Qed.

(** C7 as stated fails: for the zone [+region=us] without lease preferences
    and the locality region=us,dc=east the score is the replica-constraint
    fraction 0.5, not (2 * 0.5 + 0) / 3. *)
Lemma localityMatchScore_counterexample :
  score64 (replicas [required_ "region" "us"]) usEast = 0.5%float /\
  @claimedScore float (float64 anyLog2) (replicas [required_ "region" "us"]) usEast
    = PrimFloat.div 1 3 /\
  score64 (replicas [required_ "region" "us"]) usEast
    <> @claimedScore float (float64 anyLog2) (replicas [required_ "region" "us"]) usEast.
Proof.
  split; [vm_compute; reflexivity|]. split; [vm_compute; reflexivity|].
  intros Heq.
  apply (f_equal (fun x => PrimFloat.eqb x 0.5)) in Heq.
  vm_compute in Heq. discriminate.
Qed.

Lemma localityMatchScore_cases_witness :
  (Z.of_nat (length (Tiers usEast)) <= MaxInt)%Z /\
  score64 (replicas [required_ "region" "us"]) usEast
  = @constraintFraction float (float64 anyLog2) (replicas [required_ "region" "us"]) usEast.
Proof.
  assert (Hint : (Z.of_nat (length (Tiers usEast)) <= MaxInt)%Z)
    by (vm_compute; discriminate).
  split; [exact Hint|].
  destruct (@localityMatchScore_cases float (float64 anyLog2)
              (replicas [required_ "region" "us"]) usEast Hint) as (_ & H & _).
  apply H; [discriminate | reflexivity].
Defined.

(** A catalog in which every index has two columns and no zone
    configuration, and a node without locality. *)
Definition plainIndex : Index :=
  {| ColumnCount := 2;
     IndexZone := {| ReplicaConstraints := []; LeasePreferences := [] |};
     IndexColumns := zero |}.
Definition plainCoster (p : float) : @coster float :=
  {| mem := {| TableIndex := fun _ _ => plainIndex |};
     locality := {| Tiers := [] |};
     perturbation := p |}.
Definition rows (n : float) : @Relational float :=
  {| RowCount := n; OutputCols := zero |}.

(** A scan of index 0 under a hint that forces index 1. *)
Definition forcedScan : ScanPrivate :=
  {| ScanTable := 1; ScanIndex := 0; ScanCols := MakeColSet [1%Z; 2%Z];
     ScanConstraint := None;
     Flags := {| ForceIndex := true; FlagsIndex := 1 |} |}.

Lemma forced_index_scan_hugeCost_witness :
  exists cost,
    @ComputeCost float (float64 anyLog2) neverReverse noStreaming
      (plainCoster 0.5) (ScanExpr forcedScan (rows 1000)) {| OrderingColumns := [] |}
      0.25%float = Ok cost /\
    PrimFloat.leb (@hugeCost float (float64 anyLog2)) cost = true /\
    cost = 1e100%float.
Proof.
  apply (forced_index_scan_hugeCost anyLog2 neverReverse noStreaming);
    [reflexivity | discriminate].
Defined.

Lemma sentinel_cost_not_perturbed_witness :
  @ComputeCost float (float64 anyLog2) neverReverse noStreaming
    (plainCoster 0.5) (ScanExpr forcedScan (rows 1000)) {| OrderingColumns := [] |}
    0.25%float
  = @ComputeCost float (float64 anyLog2) neverReverse noStreaming
    (plainCoster 1.5) (ScanExpr forcedScan (rows 1000)) {| OrderingColumns := [] |}
    0.75%float.
Proof.
  apply (sentinel_cost_not_perturbed anyLog2 neverReverse noStreaming
           {| TableIndex := fun _ _ => plainIndex |} {| Tiers := [] |}
           0.5%float 1.5%float 0.25%float 0.75%float
           (ScanExpr forcedScan (rows 1000)) {| OrderingColumns := [] |}).
  vm_compute. reflexivity.
Defined.

(** A hash join of two inputs of the given row counts, producing [out]
    rows. *)
Definition hashJoin (left right out : float) : @RelExpr float :=
  JoinExpr InnerJoinOp (ValuesExpr (rows left)) (ValuesExpr (rows right))
           {| DisallowHashJoin := false |} (rows out).

Definition hashJoinCost64 (left right out : float) : float :=
  @operatorCost float (float64 anyLog2) neverReverse noStreaming
    (plainCoster 0) (hashJoin left right out) {| OrderingColumns := [] |}.

(** C8 as stated fails: the right input's rows weigh more, not less.  A
    hundred rows on the right and none on the left cost 1.75, a hundred
    rows on the left and none on the right cost 1.25. *)
Lemma hashJoin_weights_counterexample :
  hashJoinCost64 0 100 0 = 1.75%float /\
  hashJoinCost64 100 0 0 = 1.25%float /\
  PrimFloat.ltb (hashJoinCost64 0 100 0) (hashJoinCost64 100 0 0) = false /\
  PrimFloat.ltb (hashJoinCost64 100 0 0) (hashJoinCost64 0 100 0) = true.
Proof. repeat split; vm_compute; reflexivity. Qed.

(** Over binary64 the preference for the smaller right input holds up to
    rounding only: for two inputs whose row counts differ in the last
    place, the ordering with the smaller right input comes out one unit in
    the last place dearer. *)
Lemma hashJoin_rounding_example :
  PrimFloat.ltb 431656.1154942277 431656.11549422774 = true /\
  PrimFloat.ltb
    (hashJoinCost64 431656.1154942277 431656.11549422774 225374.01331860208)
    (hashJoinCost64 431656.11549422774 431656.1154942277 225374.01331860208)
  = true.
Proof. split; vm_compute; reflexivity. Qed.

(** Over integral row counts of ordinary size it holds as in exact
    arithmetic. *)
Lemma hashJoin_integral_example :
  PrimFloat.ltb (hashJoinCost64 1000 10 500) (hashJoinCost64 10 1000 500) = true /\
  hashJoinCost64 1000 10 500 = 17.675%float /\
  hashJoinCost64 10 1000 500 = 22.625%float.
Proof. repeat split; vm_compute; reflexivity. Qed.



(* --------------------------------------------------------------------- *)
(** ** The cost formulas in exact arithmetic                               *)
(* --------------------------------------------------------------------- *)
Section Exact.

Variable ScanIsReverse : ScanPrivate -> Required -> bool.
Variable StreamingGroupingColOrderingLen : GroupingPrivate -> Required -> nat.

Local Abbreviation operatorCostR :=
  (@operatorCost R exact ScanIsReverse StreamingGroupingColOrderingLen).
Local Abbreviation ComputeCostR :=
  (@ComputeCost R exact ScanIsReverse StreamingGroupingColOrderingLen).

Local Open Scope R_scope.

(** The decimal constants as real numbers. *)
Lemma dec_0 m : @dec R exact m 0 = IZR m.
Proof.
  cbv [dec exact]. change (0 <=? 0)%Z with true. cbv iota.
  rewrite Z.pow_0_r, Z.mul_1_r. reflexivity.
Qed.

Lemma dec_m1 m : @dec R exact m (-1) = IZR m / 10.
Proof. cbv [dec exact]. change (0 <=? -1)%Z with false. cbv iota. reflexivity. Qed.

Lemma dec_m2 m : @dec R exact m (-2) = IZR m / 100.
Proof.
  cbv [dec exact]. change (0 <=? -2)%Z with false. cbv iota.
  change (10 ^ (- -2))%Z with 100%Z. reflexivity.
Qed.

(** [math.Log2] over the reals. *)
Definition log2R (x : R) : R := ln x / ln 2.

(** Reads a formula at the real numbers. *)
Ltac exact_arith :=
  cbv beta delta [cpuCostFactor seqIOCostFactor randIOCostFactor
                  lookupJoinRetrieveRowCost latencyCostFactor zeroCost one ofNat];
  rewrite ?dec_0, ?dec_m1, ?dec_m2;
  change (@fadd R exact) with Rplus;
  change (@fsub R exact) with Rminus;
  change (@fmul R exact) with Rmult;
  change (@fdiv R exact) with Rdiv;
  change (@flt R exact) with Rltb;
  change (@feq R exact) with Reqb;
  change (@ofInt R exact) with IZR;
  change (@flog2 R exact) with log2R;
  change (@belowMax R exact) with (fun _ : R => true);
  cbv beta.

Ltac exact_arith_in H :=
  cbv beta delta [cpuCostFactor seqIOCostFactor randIOCostFactor
                  lookupJoinRetrieveRowCost latencyCostFactor zeroCost one ofNat] in H;
  rewrite ?dec_0, ?dec_m1, ?dec_m2 in H;
  change (@fadd R exact) with Rplus in H;
  change (@fsub R exact) with Rminus in H;
  change (@fmul R exact) with Rmult in H;
  change (@fdiv R exact) with Rdiv in H;
  change (@flt R exact) with Rltb in H;
  change (@feq R exact) with Reqb in H;
  change (@ofInt R exact) with IZR in H;
  change (@flog2 R exact) with log2R in H;
  change (@belowMax R exact) with (fun _ : R => true) in H;
  cbv beta in H.

Lemma exact_constants :
  @cpuCostFactor R exact = 1 / 100 /\
  @seqIOCostFactor R exact = 1 /\
  @randIOCostFactor R exact = 4 /\
  @lookupJoinRetrieveRowCost R exact = 2 /\
  @latencyCostFactor R exact = 1 / 100 /\
  @dec R exact 401 (-2) = 401 / 100 /\
  @dec R exact 202 (-2) = 202 / 100 /\
  @dec R exact 125 (-2) = 125 / 100 /\
  @dec R exact 175 (-2) = 175 / 100.
Proof. repeat split; exact_arith; reflexivity. Qed.

Lemma Rltb_true x y : Rltb x y = true <-> x < y.
Proof. unfold Rltb. destruct (Rlt_dec x y); split; auto; discriminate. Qed.

Lemma Rltb_false x y : Rltb x y = false <-> y <= x.
Proof. unfold Rltb. destruct (Rlt_dec x y); split; auto; try discriminate; lra. Qed.

Lemma ofNat_nonneg n : 0 <= @ofNat R exact n.
Proof. exact_arith. apply IZR_le. lia. Qed.



Lemma ln2_pos : 0 < ln 2.
Proof. rewrite <- ln_1. apply ln_increasing; lra. Qed.

Lemma log2R_nonneg x : 1 < x -> 0 <= log2R x.
Proof.
  intros Hx. unfold log2R. apply Rlt_le, Rdiv_lt_0_compat; [|apply ln2_pos].
  rewrite <- ln_1. apply ln_increasing; lra.
Qed.


(** The per-row sort cost is not negative. *)
Lemma rowSortCostLoop_nonneg n : forall c cost,
  0 <= c -> 0 <= cost -> 0 <= @rowSortCostLoop R exact n c cost.
Proof.
  induction n as [|n IH]; intros c cost Hc Hcost; cbn [rowSortCostLoop];
    [exact Hcost|].
  apply IH; exact_arith; [apply Rmult_le_pos; lra | lra].
Qed.

Lemma rowSortCost_nonneg n : 0 <= @rowSortCost R exact n.
Proof.
  unfold rowSortCost. apply rowSortCostLoop_nonneg; exact_arith; lra.
Qed.

(** The match score lies between 0 and 1 when the node has a locality. *)
Lemma minMatchCount_bounds l sets :
  sets <> [] ->
  (0 <= minMatchCount l sets <= Z.of_nat (length (Tiers l)))%Z.
Proof.
  intros Hne.
  change (minMatchCount l sets) with (fold_left (minStep l) sets MaxInt).
  destruct (minMatchCount_fold l sets MaxInt) as (_ & Hall & Hex).
  split.
  - destruct Hex as [->|Hex]; [unfold MaxInt; lia|].
    apply Exists_exists in Hex as (set & _ & ->). apply matchConstraints_bounds.
  - destruct sets as [|set rest]; [contradiction|].
    apply Forall_cons in Hall as [H1 _].
    pose proof (matchConstraints_bounds l set). lia.
Qed.

Lemma fraction_bounds (m : Z) (n : nat) :
  (0 <= m <= Z.of_nat n)%Z -> n <> O ->
  0 <= IZR m / IZR (Z.of_nat n) <= 1.
Proof.
  intros [H0 Hm] Hn.
  assert (Hpos : 0 < IZR (Z.of_nat n)) by (apply IZR_lt; lia).
  split.
  - apply Rmult_le_pos; [apply IZR_le; lia | apply Rlt_le, Rinv_0_lt_compat, Hpos].
  - apply Rmult_le_reg_r with (IZR (Z.of_nat n)); [exact Hpos|].
    unfold Rdiv. rewrite Rmult_assoc, Rinv_l by lra.
    rewrite Rmult_1_r, Rmult_1_l. apply IZR_le. exact Hm.
Qed.

Lemma localityMatchScore_bounds zone l :
  Tiers l <> [] ->
  0 <= @localityMatchScore R exact zone l <= 1.
Proof.
  intros Htiers.
  assert (Hn : length (Tiers l) <> O) by (destruct (Tiers l); [contradiction | discriminate]).
  unfold localityMatchScore, ReplicaConstraintsCount, LeasePreferenceCount.
  destruct (ReplicaConstraints zone) as [|set sets] eqn:Hr;
    destruct (LeasePreferences zone) as [|pref prefs] eqn:Hl;
    cbn [length Nat.eqb andb negb]; exact_arith.
  - lra.
  - pose proof (fraction_bounds _ _ (matchConstraints_bounds l pref) Hn) as Hb.
    lra.
  - apply fraction_bounds; [|exact Hn].
    apply minMatchCount_bounds. discriminate.
  - pose proof (fraction_bounds _ _ (matchConstraints_bounds l pref) Hn) as Hb.
    assert (Hm : (0 <= minMatchCount l (set :: sets) <= Z.of_nat (length (Tiers l)))%Z)
      by (apply minMatchCount_bounds; discriminate).
    pose proof (fraction_bounds _ _ Hm Hn) as Hc.
    lra.
Qed.

Lemma rowScanCost_nonneg (c : @coster R) tabID idxOrd numScannedCols :
  0 <= @rowScanCost R exact c tabID idxOrd numScannedCols.
Proof.
  unfold rowScanCost. cbv zeta.
  pose proof (localityMatchScore_bounds
                (IndexZone (TableIndex (mem c) tabID idxOrd)) (locality c)) as Hb.
  pose proof (ofNat_nonneg (ColumnCount (TableIndex (mem c) tabID idxOrd)
                            + numScannedCols)) as Hn.
  destruct (Tiers (locality c)) as [|t ts] eqn:Ht; cbn [length Nat.eqb negb].
  - exact_arith_in Hn. exact_arith. apply Rmult_le_pos; [exact Hn | lra].
  - specialize (Hb ltac:(discriminate)). exact_arith_in Hn.
    exact_arith. apply Rmult_le_pos; [exact Hn | lra].
Qed.

(** *** Monotonicity in the row counts *)






Hypothesis streaming_le : forall p r,
  (StreamingGroupingColOrderingLen p r <= Len (GroupingCols p))%nat.



(** C8, amended.  [computeHashJoinCost] weighs the right input's row count
    with the larger factor, 1.75 against 1.25 for the left input.  Hence,
    when hash joins are not disallowed and the formula is read in exact
    arithmetic, of two join orderings with the inputs swapped and the same
    output row count the one whose right (hash table) input is the smaller
    relation gets the strictly lower cost, from the operator's formula and
    from [ComputeCost] without perturbation. *)
Theorem hashJoin_prefers_smaller_right (c : @coster R) (op : JoinOp)
    (small large : @RelExpr R) (flags : JoinFlags) (rel : @Relational R)
    (required : Required) (u1 u2 : R) :
  DisallowHashJoin flags = false ->
  rowCount small < rowCount large ->
  perturbation c = 0 ->
  (forall left right,
     operatorCostR c (JoinExpr op left right flags rel) required
     = (125 / 100 * rowCount left + 175 / 100 * rowCount right) * (1 / 100)
       + RowCount rel * (1 / 100)) /\
  125 / 100 < 175 / 100 /\
  operatorCostR c (JoinExpr op large small flags rel) required
  < operatorCostR c (JoinExpr op small large flags rel) required /\
  exists cost1 cost2,
    ComputeCostR c (JoinExpr op large small flags rel) required u1 = Ok cost1 /\
    ComputeCostR c (JoinExpr op small large flags rel) required u2 = Ok cost2 /\
    cost1 < cost2.
Proof.
  intros Hflag Hlt Hp.
  assert (Hform : forall left right,
     operatorCostR c (JoinExpr op left right flags rel) required
     = (125 / 100 * rowCount left + 175 / 100 * rowCount right) * (1 / 100)
       + RowCount rel * (1 / 100)).
  { intros left right. cbn [operatorCost]. unfold computeHashJoinCost.
    rewrite Hflag. cbv zeta. unfold rowCount at 3. cbn [Rel]. exact_arith.
    reflexivity. }
  split; [exact Hform|]. split; [lra|].
  assert (Hcmp : operatorCostR c (JoinExpr op large small flags rel) required
                 < operatorCostR c (JoinExpr op small large flags rel) required)
    by (rewrite !Hform; lra).
  split; [exact Hcmp|].
  unfold ComputeCost, perturb. rewrite Hp.
  exact_arith. unfold Reqb. destruct (Req_dec_T 0 0) as [_|Hne]; [|contradiction].
  cbn [negb]. eexists _, _. split; [reflexivity|]. split; [reflexivity|]. lra.
Qed.

(** *** The range of the perturbed cost *)

Lemma hugeCost_pos : 0 < @hugeCost R exact.
Proof.
  cbv [hugeCost dec exact]. change (0 <=? 100)%Z with true. cbv iota.
  apply IZR_lt. reflexivity.
Qed.

Lemma Reqb_true x y : Reqb x y = true <-> x = y.
Proof. unfold Reqb. destruct (Req_dec_T x y); split; auto; discriminate. Qed.

Lemma Reqb_false x y : Reqb x y = false <-> x <> y.
Proof. unfold Reqb. destruct (Req_dec_T x y); split; auto; try discriminate; tauto. Qed.

(** The perturbation step over the reals. *)
Lemma perturb_exact (c : @coster R) (cost u : R) :
  @perturb R exact c cost u =
  if Reqb (perturbation c) 0 then cost
  else if Rltb cost (@hugeCost R exact) then
         if Rltb (cost + cost * (perturbation c * (2 * u - 1))) 0 then 0
         else cost + cost * (perturbation c * (2 * u - 1))
       else cost.
Proof.
  unfold perturb. exact_arith.
  destruct (Reqb (perturbation c) 0); reflexivity.
Qed.

Lemma ComputeCost_exact (c : @coster R) (e : @RelExpr R) (required : Required) (u : R) :
  ComputeCostR c e required u
  = Ok (@perturb R exact c (operatorCostR c e required + 1 / 100) u).
Proof. unfold ComputeCost. exact_arith. reflexivity. Qed.

(** X17. In exact arithmetic, with a perturbation p >= 0, a random
    draw in [0, 1) and an estimated cost c >= 0 of the operator and its
    setup, the cost [ComputeCost] returns lies in [max(0, c - p*c),
    c + p*c], below c + p*c when p and c are positive; it is c itself when
    p is 0 or c is not below [hugeCost]. *)
Theorem perturbed_cost_range (c : @coster R) (e : @RelExpr R) (required : Required)
    (u : R) :
  0 <= u < 1 ->
  0 <= perturbation c ->
  0 <= operatorCostR c e required + 1 / 100 ->
  exists cost,
    ComputeCostR c e required u = Ok cost /\
    Rmax 0 (operatorCostR c e required + 1 / 100
            - perturbation c * (operatorCostR c e required + 1 / 100))
      <= cost
      <= operatorCostR c e required + 1 / 100
         + perturbation c * (operatorCostR c e required + 1 / 100) /\
    (0 < perturbation c ->
     0 < operatorCostR c e required + 1 / 100 < @hugeCost R exact ->
     cost < operatorCostR c e required + 1 / 100
            + perturbation c * (operatorCostR c e required + 1 / 100)) /\
    (perturbation c = 0 -> cost = operatorCostR c e required + 1 / 100) /\
    (@hugeCost R exact <= operatorCostR c e required + 1 / 100 ->
     cost = operatorCostR c e required + 1 / 100).
Proof.
  intros Hu Hp Hbase.
  rewrite ComputeCost_exact, perturb_exact.
  set (base := operatorCostR c e required + 1 / 100) in *. clearbody base.
  set (p := perturbation c) in *. clearbody p.
  set (huge := @hugeCost R exact). clearbody huge.
  assert (Hq : 0 <= p * base) by (apply Rmult_le_pos; assumption).
  assert (Hm : base * (p * (2 * u - 1)) = p * base * (2 * u - 1)) by ring.
  assert (Hlow : 0 <= p * base * (2 * u)) by (apply Rmult_le_pos; lra).
  assert (Hhigh : 0 <= p * base * (2 - 2 * u)) by (apply Rmult_le_pos; lra).
  eexists. split; [reflexivity|].
  destruct (Reqb p 0) eqn:Hp0.
  - apply Reqb_true in Hp0. subst p. unfold Rmax.
    destruct (Rle_dec 0 (base - 0 * base)); repeat split; intros; lra.
  - apply Reqb_false in Hp0.
    destruct (Rltb base huge) eqn:Hh.
    + apply Rltb_true in Hh. rewrite Hm.
      destruct (Rltb (base + p * base * (2 * u - 1)) 0) eqn:Hneg.
      * apply Rltb_true in Hneg. unfold Rmax.
        destruct (Rle_dec 0 (base - p * base)); repeat split; intros;
          try lra; try contradiction.
      * apply Rltb_false in Hneg. unfold Rmax.
        destruct (Rle_dec 0 (base - p * base)); repeat split; intros;
          try lra; try contradiction.
        all: assert (0 < p * base * (2 - 2 * u))
          by (apply Rmult_lt_0_compat; [apply Rmult_lt_0_compat|]; lra); lra.
    + apply Rltb_false in Hh. unfold Rmax.
      destruct (Rle_dec 0 (base - p * base)); repeat split; intros;
        try lra; try contradiction.
Qed.

(** *** No operator costs less than its setup *)

(** The row-count estimates the formula of the operator reads (its own and
    those of its inputs) are not negative. *)
Definition nonnegRows (e : @RelExpr R) : Prop :=
  0 <= rowCount e /\
  match e with
  | SortExpr i _ | SelectExpr i _ | ProjectExpr i _ _ | IndexJoinExpr i _ _ _
  | LookupJoinExpr i _ _ _ _ _ | GroupingExpr _ i _ _ _ | LimitExpr i _
  | OffsetExpr i _ | OrdinalityExpr i _ | ProjectSetExpr i _ | ExplainExpr i _ =>
      0 <= rowCount i
  | JoinExpr _ l r _ _ | MergeJoinExpr l r _ | SetExpr _ l r _ =>
      0 <= rowCount l /\ 0 <= rowCount r
  | _ => True
  end.

Lemma operatorCost_nonneg (c : @coster R) (required : Required) (e : @RelExpr R) :
  nonnegRows e -> 0 <= operatorCostR c e required.
Proof.
  pose proof hugeCost_pos as Hhuge.
  destruct e; unfold nonnegRows, rowCount; cbn [Rel]; intros H;
    decompose record H; clear H;
    cbn [operatorCost];
    unfold computeSortCost, computeScanCost, computeVirtualScanCost,
      computeSelectCost, computeProjectCost, computeValuesCost,
      computeHashJoinCost, computeMergeJoinCost, computeIndexJoinCost,
      computeLookupJoinCost, computeZigzagJoinCost, computeSetCost,
      computeGroupingCost, computeLimitCost, computeOffsetCost,
      computeOrdinalityCost, computeProjectSetCost, rowCount;
    cbn [Rel]; cbv zeta; exact_arith.
  all: try lra.
  - (* Sort *)
    pose proof (rowSortCost_nonneg (length (OrderingColumns required))) as Hs.
    destruct (Rltb 1 (RowCount rel)) eqn:Hone.
    + apply Rltb_true in Hone. pose proof (log2R_nonneg _ Hone).
      apply Rmult_le_pos; [apply Rmult_le_pos; assumption | lra].
    + apply Rmult_le_pos; assumption.
  - (* Scan *)
    destruct (ForceIndex (Flags scan) && _); [lra|].
    pose proof (rowScanCost_nonneg c (ScanTable scan) (ScanIndex scan)
                  (Len (ScanCols scan))) as Hq.
    assert (Hprefer : 0 <= match ScanConstraint scan with
                           | Some true => 1 / 100
                           | Some false => 0
                           | None => 1 / 100
                           end)
      by (destruct (ScanConstraint scan) as [[]|]; lra).
    apply Rplus_le_le_0_compat; [|exact Hprefer].
    apply Rmult_le_pos; [assumption|].
    destruct (ScanIsReverse scan required); [|lra].
    destruct (Rltb 1 (RowCount rel)) eqn:Hone; [|lra].
    apply Rltb_true in Hone. pose proof (log2R_nonneg _ Hone). lra.
  - (* Project *)
    pose proof (ofNat_nonneg ProjectionsLen) as Hn. exact_arith_in Hn.
    set (k := IZR (Z.of_nat ProjectionsLen)) in *. clearbody k. nra.
  - (* hash join *)
    destruct (DisallowHashJoin flags); lra.
  - (* index join *)
    pose proof (rowScanCost_nonneg c Table PrimaryIndex (Len Cols)).
    apply Rmult_le_pos; lra.
  - (* lookup join *)
    pose proof (rowScanCost_nonneg c Table Index0
                  (Len (Difference Cols (OutputCols (Rel e))))) as Hq.
    pose proof (ofNat_nonneg OnLen) as Hn. exact_arith_in Hn.
    set (q := @rowScanCost R exact _ _ _ _) in *. clearbody q.
    set (k := IZR (Z.of_nat OnLen)) in *. clearbody k. nra.
  - (* zigzag join *)
    match goal with
    | |- _ <= _ * (_ + (?x + ?y)) =>
        assert (0 <= x) by apply rowScanCost_nonneg;
        assert (0 <= y) by apply rowScanCost_nonneg
    end.
    apply Rmult_le_pos; lra.
  - (* set operations *)
    destruct op; lra.
  - (* grouping *)
    pose proof (ofNat_nonneg (AggsLen + Len (GroupingCols private))) as Hk.
    exact_arith_in Hk.
    set (k := IZR (Z.of_nat (AggsLen + Len (GroupingCols private)))) in *.
    clearbody k.
    destruct (Nat.ltb_spec 0 (Len (GroupingCols private))) as [Hg|Hg].
    + pose proof (streaming_le private required) as Hs.
      assert (Hf : 0 <= IZR (Z.of_nat (StreamingGroupingColOrderingLen private required))
                        / IZR (Z.of_nat (Len (GroupingCols private))) <= 1)
        by (apply fraction_bounds; lia).
      set (f := _ / _) in *. clearbody f. nra.
    + nra.
Qed.

(** X18. In exact arithmetic, for an operator whose row-count
    estimates are not negative, [ComputeCost] returns a cost that is not
    negative, whatever the perturbation and the random draw; without
    perturbation the cost is the cost of the operator, itself not negative,
    plus the setup cost [cpuCostFactor], so no operator costs less than
    0.01. *)
Theorem ComputeCost_at_least_setup (c : @coster R) (required : Required)
    (e : @RelExpr R) (u : R) :
  nonnegRows e ->
  0 <= operatorCostR c e required /\
  exists cost,
    ComputeCostR c e required u = Ok cost /\
    0 <= cost /\
    (perturbation c = 0 ->
     cost = operatorCostR c e required + @cpuCostFactor R exact /\
     1 / 100 <= cost).
Proof.
  intros Hrows. pose proof (operatorCost_nonneg c required e Hrows) as Hop.
  split; [exact Hop|].
  rewrite ComputeCost_exact, perturb_exact.
  assert (Hcpu : @cpuCostFactor R exact = 1 / 100) by (exact_arith; reflexivity).
  rewrite Hcpu.
  set (base := operatorCostR c e required + 1 / 100) in *.
  assert (Hbase : 1 / 100 <= base) by (unfold base; lra).
  clearbody base.
  eexists. split; [reflexivity|].
  destruct (Reqb (perturbation c) 0) eqn:Hp0.
  - split; [lra|]. intros _. split; [reflexivity | lra].
  - apply Reqb_false in Hp0.
    destruct (Rltb base (@hugeCost R exact)).
    + destruct (Rltb _ 0) eqn:Hneg.
      * split; [lra|]. intros Hp. contradiction.
      * apply Rltb_false in Hneg. split; [lra|]. intros Hp. contradiction.
    + split; [lra|]. intros Hp. contradiction.
Qed.

(** *** The cost of scanning a row and the locality *)

Lemma rowScanCost_noLocality (c : @coster R) tabID idxOrd numScannedCols :
  Tiers (locality c) = [] ->
  @rowScanCost R exact c tabID idxOrd numScannedCols
  = IZR (Z.of_nat (ColumnCount (TableIndex (mem c) tabID idxOrd) + numScannedCols))
    * (1 / 100).
Proof.
  intros Ht. unfold rowScanCost. cbv zeta. rewrite Ht.
  cbn [length Nat.eqb negb]. exact_arith. reflexivity.
Qed.

Lemma rowScanCost_withLocality (c : @coster R) tabID idxOrd numScannedCols :
  Tiers (locality c) <> [] ->
  @rowScanCost R exact c tabID idxOrd numScannedCols
  = IZR (Z.of_nat (ColumnCount (TableIndex (mem c) tabID idxOrd) + numScannedCols))
    * (1 / 100 + 1 / 100 *
         (1 - @localityMatchScore R exact
                (IndexZone (TableIndex (mem c) tabID idxOrd)) (locality c))).
Proof.
  intros Ht. unfold rowScanCost. cbv zeta.
  destruct (Tiers (locality c)) as [|t ts] eqn:Htiers; [contradiction|].
  cbn [length Nat.eqb negb]. exact_arith. reflexivity.
Qed.

(** X19. In exact arithmetic the locality match score of a zone lies
    between 0 and 1 for a node with a locality, and scanning a row of an
    index costs [cpuCostFactor] per column (of the index and scanned) when
    the node has no locality, and otherwise that much plus
    [latencyCostFactor] times (1 - score) per column: between one and two
    times [cpuCostFactor] per column, and no more for an index of as many
    columns whose zone matches the locality at least as well. *)
Theorem rowScanCost_locality (c : @coster R) (tabID : TableID)
    (idxOrd numScannedCols : nat) :
  let idx := TableIndex (mem c) tabID idxOrd in
  let columns := IZR (Z.of_nat (ColumnCount idx + numScannedCols)) in
  let score := @localityMatchScore R exact (IndexZone idx) (locality c) in
  (Tiers (locality c) = [] ->
   @rowScanCost R exact c tabID idxOrd numScannedCols = columns * (1 / 100)) /\
  (Tiers (locality c) <> [] ->
   0 <= score <= 1 /\
   @rowScanCost R exact c tabID idxOrd numScannedCols
     = columns * (1 / 100 + 1 / 100 * (1 - score)) /\
   columns * (1 / 100)
     <= @rowScanCost R exact c tabID idxOrd numScannedCols
     <= columns * (2 / 100) /\
   forall tabID' idxOrd',
     ColumnCount (TableIndex (mem c) tabID' idxOrd') = ColumnCount idx ->
     score <= @localityMatchScore R exact
                (IndexZone (TableIndex (mem c) tabID' idxOrd')) (locality c) ->
     @rowScanCost R exact c tabID' idxOrd' numScannedCols
       <= @rowScanCost R exact c tabID idxOrd numScannedCols).
Proof.
  intros idx columns score.
  split; [apply rowScanCost_noLocality|].
  intros Ht.
  pose proof (localityMatchScore_bounds (IndexZone idx) (locality c) Ht) as Hs.
  fold score in Hs.
  assert (Hk : 0 <= columns) by (apply IZR_le; lia).
  rewrite (rowScanCost_withLocality c tabID idxOrd numScannedCols Ht).
  fold idx columns score.
  split; [exact Hs|]. split; [reflexivity|].
  split; [split; apply Rmult_le_compat_l; lra|].
  intros tabID' idxOrd' Hcols Hscore.
  rewrite (rowScanCost_withLocality c tabID' idxOrd' numScannedCols Ht), Hcols.
  fold idx columns. apply Rmult_le_compat_l; lra.
Qed.

(** *** The cost of sorting a row *)

(** [Sum eqProb^(i-1) with i=1 to n], for eqProb = 0.1. *)
Fixpoint eqProbSum (n : nat) : R :=
  match n with
  | O => 0
  | S n' => eqProbSum n' + (1 / 10) ^ n'
  end.

Lemma eqProbSum_closed n : eqProbSum n = 10 / 9 * (1 - (1 / 10) ^ n).
Proof.
  induction n as [|n IH]; simpl; [lra|]. rewrite IH. lra.
Qed.

Lemma rowSortCostLoop_sum n : forall c cost,
  @rowSortCostLoop R exact n c cost = cost + c * eqProbSum n.
Proof.
  induction n as [|n IH]; intros c cost; cbn [rowSortCostLoop].
  - simpl. lra.
  - rewrite IH. exact_arith. rewrite !eqProbSum_closed. simpl. lra.
Qed.

Lemma pow_tenth_bounds n : 0 < (1 / 10) ^ n <= 1.
Proof.
  induction n as [|n [IH1 IH2]]; simpl; lra.
Qed.

Lemma pow_tenth_antitone n m : (n <= m)%nat -> (1 / 10) ^ m <= (1 / 10) ^ n.
Proof.
  induction 1 as [|m _ IH]; [lra|]. simpl.
  pose proof (pow_tenth_bounds m). lra.
Qed.

(** X20. In exact arithmetic [rowSortCost] is the formula of its
    comment, cpuCostFactor * [1 + Sum eqProb^(i-1) with i=1 to
    numKeyCols] with eqProb = 0.1, that is 0.01 * (1 + (1 - 0.1^n) / 0.9);
    it grows with the number of key columns, from [cpuCostFactor] for none,
    and stays below 19/9 times [cpuCostFactor]. *)
Theorem rowSortCost_formula (numKeyCols : nat) :
  @rowSortCost R exact numKeyCols = 1 / 100 * (1 + eqProbSum numKeyCols) /\
  eqProbSum numKeyCols = (1 - (1 / 10) ^ numKeyCols) / (9 / 10) /\
  @rowSortCost R exact 0 = @cpuCostFactor R exact /\
  1 / 100 <= @rowSortCost R exact numKeyCols < 1 / 100 * (19 / 9) /\
  (forall more, (numKeyCols <= more)%nat ->
     @rowSortCost R exact numKeyCols <= @rowSortCost R exact more).
Proof.
  assert (Hform : forall n, @rowSortCost R exact n = 1 / 100 * (1 + eqProbSum n)).
  { intros n. unfold rowSortCost. rewrite rowSortCostLoop_sum. exact_arith. lra. }
  split; [apply Hform|]. split; [rewrite eqProbSum_closed; lra|].
  split; [rewrite Hform; exact_arith; simpl; lra|].
  split.
  - rewrite Hform, eqProbSum_closed.
    pose proof (pow_tenth_bounds numKeyCols). lra.
  - intros more Hle. rewrite !Hform, !eqProbSum_closed.
    pose proof (pow_tenth_antitone _ _ Hle). lra.
Qed.

(** *** Scans and groupings the cost model prefers *)

Lemma computeScanCost_exact (c : @coster R) (scan : ScanPrivate)
    (rel : @Relational R) (required : Required) :
  (ForceIndex (Flags scan) && negb (FlagsIndex (Flags scan) =? ScanIndex scan)%nat)
    = false ->
  @computeScanCost R exact ScanIsReverse c scan rel required
  = RowCount rel *
      (1 + (@rowScanCost R exact c (ScanTable scan) (ScanIndex scan)
              (Len (ScanCols scan))
            + if ScanIsReverse scan required && Rltb 1 (RowCount rel)
              then log2R (RowCount rel) * (1 / 100) else 0))
    + match ScanConstraint scan with
      | Some false => 0
      | _ => 1 / 100
      end.
Proof.
  intros Hforce. unfold computeScanCost. rewrite Hforce. cbv zeta. exact_arith.
  destruct (ScanIsReverse scan required), (Rltb 1 (RowCount rel)),
    (ScanConstraint scan) as [[]|]; simpl; lra.
Qed.

(** The scan with another constraint. *)
Definition withConstraint (scan : ScanPrivate) (con : option bool) : ScanPrivate :=
  {| ScanTable := ScanTable scan; ScanIndex := ScanIndex scan;
     ScanCols := ScanCols scan; ScanConstraint := con; Flags := Flags scan |}.

(** X21. In exact arithmetic, of two scans of the same index that
    differ in their constraint only and are scanned in the same direction,
    the one without a constraint (or with an unconstrained one) costs
    exactly [cpuCostFactor] more than the constrained one, so the
    constrained scan is preferred at equal row counts; and a scan costs no
    less in reverse than forward. *)
Theorem constrained_scan_preferred (c : @coster R) (scan : ScanPrivate)
    (rel : @Relational R) (required : Required) :
  (ForceIndex (Flags scan) && negb (FlagsIndex (Flags scan) =? ScanIndex scan)%nat)
    = false ->
  0 <= RowCount rel ->
  (forall con,
     ScanIsReverse (withConstraint scan con) required
     = ScanIsReverse (withConstraint scan (Some false)) required ->
     con <> Some false ->
     @computeScanCost R exact ScanIsReverse c (withConstraint scan con) rel required
     = @computeScanCost R exact ScanIsReverse c (withConstraint scan (Some false))
         rel required
       + @cpuCostFactor R exact) /\
  (forall forward reverse,
     ScanIsReverse scan forward = false ->
     ScanIsReverse scan reverse = true ->
     @computeScanCost R exact ScanIsReverse c scan rel forward
     <= @computeScanCost R exact ScanIsReverse c scan rel reverse).
Proof.
  intros Hforce Hrows. split.
  - intros con Hdir Hcon.
    rewrite !computeScanCost_exact by exact Hforce.
    rewrite Hdir. exact_arith. cbn [withConstraint ScanTable ScanIndex ScanCols ScanConstraint].
    destruct con as [[]|]; [lra | contradiction | lra].
  - intros forward reverse Hf Hr.
    rewrite !computeScanCost_exact by exact Hforce. rewrite Hf, Hr. simpl andb.
    apply Rplus_le_compat_r, Rmult_le_compat_l; [exact Hrows|].
    destruct (Rltb 1 (RowCount rel)) eqn:Hone; [|lra].
    apply Rltb_true in Hone. pose proof (log2R_nonneg _ Hone). lra.
Qed.

(** X22. In exact arithmetic a grouping without grouping columns has
    no hashing cost; with grouping columns the hashing cost is the input
    row count times [cpuCostFactor] times the share of the grouping columns
    that the required ordering does not cover: it vanishes when the
    ordering covers all of them (a streaming aggregation), and a required
    ordering that covers more of them never makes the grouping dearer. *)
Theorem streaming_grouping_preferred (grouping Input : @RelExpr R) (AggsLen : nat)
    (private : GroupingPrivate) (required : Required) :
  0 <= rowCount Input ->
  let base := rowCount grouping * (1 / 100)
              + rowCount Input
                * IZR (Z.of_nat (AggsLen + Len (GroupingCols private))) * (1 / 100) in
  let cost := fun r =>
    @computeGroupingCost R exact StreamingGroupingColOrderingLen
      grouping Input AggsLen private r in
  (Len (GroupingCols private) = 0%nat -> cost required = base) /\
  ((0 < Len (GroupingCols private))%nat ->
   cost required
   = base + rowCount Input * (1 / 100)
            * (1 - IZR (Z.of_nat (StreamingGroupingColOrderingLen private required))
                   / IZR (Z.of_nat (Len (GroupingCols private)))) /\
   base <= cost required /\
   (StreamingGroupingColOrderingLen private required = Len (GroupingCols private) ->
    cost required = base) /\
   (forall required',
      (StreamingGroupingColOrderingLen private required
       <= StreamingGroupingColOrderingLen private required')%nat ->
      cost required' <= cost required)).
Proof.
  intros Hrows base cost.
  assert (Hcost : forall r,
    cost r = if (0 <? Len (GroupingCols private))%nat
             then base + rowCount Input * (1 / 100)
                         * (1 - IZR (Z.of_nat (StreamingGroupingColOrderingLen private r))
                                / IZR (Z.of_nat (Len (GroupingCols private))))
             else base).
  { intros r. unfold cost, computeGroupingCost. cbv zeta. exact_arith.
    destruct (0 <? Len (GroupingCols private))%nat; reflexivity. }
  split.
  - intros Hz. rewrite Hcost, Hz. reflexivity.
  - intros Hg. rewrite !Hcost.
    assert (Hlt : (0 <? Len (GroupingCols private))%nat = true)
      by (apply Nat.ltb_lt; exact Hg).
    rewrite Hlt.
    set (g := IZR (Z.of_nat (Len (GroupingCols private)))).
    assert (Hgpos : 0 < g) by (apply IZR_lt; lia).
    assert (Hfrac : forall r,
      0 <= IZR (Z.of_nat (StreamingGroupingColOrderingLen private r)) / g <= 1)
      by (intros r; apply fraction_bounds; [pose proof (streaming_le private r)|]; lia).
    split; [reflexivity|]. split; [|split].
    + pose proof (Hfrac required).
      assert (0 <= rowCount Input * (1 / 100)
                   * (1 - IZR (Z.of_nat (StreamingGroupingColOrderingLen private required)) / g))
        by (apply Rmult_le_pos; [apply Rmult_le_pos|]; lra).
      lra.
    + intros Hall. rewrite Hall. fold g.
      replace (g / g) with 1 by (field; lra). lra.
    + intros required' Hmore. rewrite Hcost, Hlt. fold g.
      assert (Hle : IZR (Z.of_nat (StreamingGroupingColOrderingLen private required)) / g
                    <= IZR (Z.of_nat (StreamingGroupingColOrderingLen private required')) / g).
      { apply Rmult_le_compat_r; [apply Rlt_le, Rinv_0_lt_compat, Hgpos|].
        apply IZR_le. lia. }
      apply Rplus_le_compat_l, Rmult_le_compat_l; [|lra].
      apply Rmult_le_pos; lra.
Qed.

Lemma rowSortCost_at_least_cpu n : 1 / 100 <= @rowSortCost R exact n.
Proof.
  unfold rowSortCost. rewrite rowSortCostLoop_sum, eqProbSum_closed. exact_arith.
  pose proof (pow_tenth_bounds n). lra.
Qed.

(** X23. In exact arithmetic the hashing cost of a grouping (what
    its cost exceeds the cost of emitting its rows and of processing the
    input rows by) is never more than the cost of sorting its input,
    whatever orderings are required of the grouping and of the sort. *)
Theorem hashing_cost_below_sort (grouping Input : @RelExpr R) (AggsLen : nat)
    (private : GroupingPrivate) (required sortRequired : Required)
    (sortInput : @RelExpr R) (rel : @Relational R) :
  0 <= rowCount Input ->
  RowCount rel = rowCount Input ->
  @computeGroupingCost R exact StreamingGroupingColOrderingLen
    grouping Input AggsLen private required
  - (rowCount grouping * (1 / 100)
     + rowCount Input
       * IZR (Z.of_nat (AggsLen + Len (GroupingCols private))) * (1 / 100))
  <= @computeSortCost R exact (SortExpr sortInput rel) sortRequired.
Proof.
  intros Hrows Hrel.
  pose proof (rowSortCost_at_least_cpu (length (OrderingColumns sortRequired))) as Hsort.
  unfold computeGroupingCost, computeSortCost. cbv zeta.
  change (rowCount (SortExpr sortInput rel)) with (RowCount rel).
  rewrite Hrel. exact_arith.
  set (n := rowCount Input) in *. clearbody n.
  set (s := @rowSortCost R exact _) in *. clearbody s.
  assert (Hns : n * (1 / 100) <= n * s) by (apply Rmult_le_compat_l; lra).
  assert (Hsorted : n * s <= if Rltb 1 n then n * s * (1 + log2R n) else n * s).
  { destruct (Rltb 1 n) eqn:Hone; [|lra].
    apply Rltb_true in Hone. pose proof (log2R_nonneg _ Hone).
    rewrite <- (Rmult_1_r (n * s)) at 1.
    apply Rmult_le_compat_l; [apply Rmult_le_pos; lra | lra]. }
  destruct (Nat.ltb_spec 0 (Len (GroupingCols private))) as [Hg|Hg].
  - assert (Hf : 0 <= IZR (Z.of_nat (StreamingGroupingColOrderingLen private required))
                      / IZR (Z.of_nat (Len (GroupingCols private))) <= 1)
      by (apply fraction_bounds; [pose proof (streaming_le private required)|]; lia).
    set (f := IZR (Z.of_nat (StreamingGroupingColOrderingLen private required))
              / IZR (Z.of_nat (Len (GroupingCols private)))) in *.
    clearbody f.
    assert (n * (1 / 100) * (1 - f) <= n * (1 / 100)).
    { rewrite <- (Rmult_1_r (n * (1 / 100))) at 2.
      apply Rmult_le_compat_l; [apply Rmult_le_pos; lra | lra]. }
    lra.
  - assert (0 <= n * s) by (apply Rmult_le_pos; lra). lra.
Qed.

End Exact.

(** *** Worked examples in exact arithmetic *)

Definition rowsR (n : R) : @Relational R := {| RowCount := n; OutputCols := zero |}.
Definition plainCosterR : @coster R :=
  {| mem := {| TableIndex := fun _ _ => plainIndex |};
     locality := {| Tiers := [] |};
     perturbation := 0%R |}.

(** A GROUP BY on one column with one aggregate over 10 and over 20 input
    rows. *)
Definition groupByOver (n : R) : @RelExpr R :=
  GroupingExpr GroupByOp (ValuesExpr (rowsR n)) 1
    {| GroupingCols := MakeColSet [1%Z]; GroupingOrdering := [] |} (rowsR 5).


Lemma hashJoin_prefers_smaller_right_witness :
  let join := fun left right : R =>
    JoinExpr InnerJoinOp (ValuesExpr (rowsR left)) (ValuesExpr (rowsR right))
             {| DisallowHashJoin := false |} (rowsR 50) in
  (@operatorCost R exact neverReverse noStreaming plainCosterR
     (join 100 10) {| OrderingColumns := [] |}
   < @operatorCost R exact neverReverse noStreaming plainCosterR
     (join 10 100) {| OrderingColumns := [] |})%R.
Proof.
  intros join.
  destruct (hashJoin_prefers_smaller_right neverReverse noStreaming
              plainCosterR InnerJoinOp (ValuesExpr (rowsR 10))
              (ValuesExpr (rowsR 100)) {| DisallowHashJoin := false |}
              (rowsR 50) {| OrderingColumns := [] |} 0%R 0%R)
    as (_ & _ & H & _).
  - reflexivity.
  - unfold rowCount, rowsR; simpl. lra.
  - reflexivity.
  - exact H.
Defined.

(* --------------------------------------------------------------------- *)
(** ** The order of the constraints of a set                               *)
(* --------------------------------------------------------------------- *)

(** No key and value is both required and prohibited in the set. *)
Definition consistent (set : list Constraint) : Prop :=
  forall c1 c2, c1 ∈ set -> c2 ∈ set ->
    GetKey c1 = GetKey c2 -> GetValue c1 = GetValue c2 ->
    IsRequired c1 = IsRequired c2.

Lemma existsb_Permutation {T : Type} (f : T -> bool) (l l' : list T) :
  l ≡ₚ l' -> existsb f l = existsb f l'.
Proof.
  intros Hp. apply Bool.eq_iff_eq_true. rewrite !existsb_exists.
  split; intros (x & Hin & Hx); exists x; (split; [|exact Hx]);
    apply list_elem_of_In; apply list_elem_of_In in Hin;
    [rewrite <- Hp | rewrite Hp]; exact Hin.
Qed.

Lemma sameKeyValue_eq tier con :
  sameKeyValue tier con = true ->
  GetKey con = TierKey tier /\ GetValue con = TierValue tier.
Proof.
  unfold sameKeyValue, sameKey. rewrite andb_true_iff, !String.eqb_eq. tauto.
Qed.

Lemma tierValue_Permutation tier set set' :
  consistent set -> set ≡ₚ set' -> tierValue tier set = tierValue tier set'.
Proof.
  intros Hcons Hp. unfold tierValue.
  rewrite (existsb_Permutation _ _ _ Hp).
  destruct (List.find (sameKeyValue tier) set) as [con|] eqn:Hf;
    destruct (List.find (sameKeyValue tier) set') as [con'|] eqn:Hf'.
  - apply List.find_some in Hf as [Hin Hm]. apply List.find_some in Hf' as [Hin' Hm'].
    apply list_elem_of_In in Hin, Hin'. rewrite <- Hp in Hin'.
    apply sameKeyValue_eq in Hm as [Hk Hv]. apply sameKeyValue_eq in Hm' as [Hk' Hv'].
    rewrite (Hcons con con' Hin Hin') by congruence. reflexivity.
  - exfalso. apply List.find_some in Hf as [Hin Hm].
    apply list_elem_of_In in Hin. rewrite Hp in Hin. apply list_elem_of_In in Hin.
    rewrite (List.find_none _ _ Hf' con Hin) in Hm. discriminate.
  - exfalso. apply List.find_some in Hf' as [Hin Hm].
    apply list_elem_of_In in Hin. rewrite <- Hp in Hin. apply list_elem_of_In in Hin.
    rewrite (List.find_none _ _ Hf con' Hin) in Hm. discriminate.
  - reflexivity.
Qed.

Lemma matchConstraints_Permutation l set set' :
  consistent set -> set ≡ₚ set' ->
  matchConstraints l set = matchConstraints l set'.
Proof.
  intros Hcons Hp.
  destruct (matchConstraints_longest l set) as [-> _].
  destruct (matchConstraints_longest l set') as [-> _].
  f_equal. f_equal. unfold tierValues. apply List.map_ext. intros tier.
  rewrite !matchTier_tierValue. apply tierValue_Permutation; assumption.
Qed.

Lemma minMatchCount_Permutation l sets sets' :
  Forall consistent sets -> Forall2 (≡ₚ) sets sets' ->
  minMatchCount l sets = minMatchCount l sets'.
Proof.
  unfold minMatchCount. generalize MaxInt.
  intros acc Hcons Hp. revert acc Hcons.
  induction Hp as [|set set' sets sets' Hset _ IH]; intros acc Hcons; simpl;
    [reflexivity|].
  apply Forall_cons in Hcons as [Hc Hcons].
  rewrite (matchConstraints_Permutation l set set' Hc Hset). apply IH, Hcons.
Qed.

(** X24. The constraints of a set need not be given in any particular
    order: for a set in which no key and value is both required and
    prohibited, the value of a tier, the match count and the locality match
    score are the same for every order of the constraints within the
    replica constraint sets and lease preferences of the zone. *)
Theorem constraint_order_irrelevant {F : Type} {A : Arith F} (zone zone' : Zone)
    (l : Locality) :
  Forall consistent (ReplicaConstraints zone) ->
  Forall consistent (LeasePreferences zone) ->
  Forall2 (≡ₚ) (ReplicaConstraints zone) (ReplicaConstraints zone') ->
  Forall2 (≡ₚ) (LeasePreferences zone) (LeasePreferences zone') ->
  Forall2 (fun set set' =>
             (forall tier, matchTier tier set = matchTier tier set') /\
             matchConstraints l set = matchConstraints l set')
          (ReplicaConstraints zone ++ LeasePreferences zone)
          (ReplicaConstraints zone' ++ LeasePreferences zone') /\
  localityMatchScore zone l = localityMatchScore zone' l.
Proof.
  intros Hrc Hlc Hr Hl. split.
  - apply Forall2_app.
    + clear Hl Hlc. induction Hr as [|set set' sets sets' Hset _ IH]; [constructor|].
      apply Forall_cons in Hrc as [Hc Hrc]. constructor; [|apply IH, Hrc].
      split; [|apply matchConstraints_Permutation; assumption].
      intros tier. rewrite !matchTier_tierValue.
      apply tierValue_Permutation; assumption.
    + clear Hr Hrc. induction Hl as [|set set' sets sets' Hset _ IH]; [constructor|].
      apply Forall_cons in Hlc as [Hc Hlc]. constructor; [|apply IH, Hlc].
      split; [|apply matchConstraints_Permutation; assumption].
      intros tier. rewrite !matchTier_tierValue.
      apply tierValue_Permutation; assumption.
  - unfold localityMatchScore, ReplicaConstraintsCount, LeasePreferenceCount.
    rewrite <- (Forall2_length _ _ _ Hr), <- (Forall2_length _ _ _ Hl).
    rewrite <- (minMatchCount_Permutation l _ _ Hrc Hr).
    destruct Hl as [|pref pref' prefs prefs' Hpref _]; [reflexivity|].
    apply Forall_cons in Hlc as [Hc _].
    rewrite <- (matchConstraints_Permutation l pref pref' Hc Hpref). reflexivity.
Qed.

(** For the locality region=us,dc=east the zones [+region=us,+dc=east] and
    [+dc=east,+region=us] score alike. *)
Lemma constraint_order_irrelevant_witness :
  score64 (replicas [required_ "region" "us"; required_ "dc" "east"]) usEast
  = score64 (replicas [required_ "dc" "east"; required_ "region" "us"]) usEast.
Proof.
  apply (@constraint_order_irrelevant float (float64 anyLog2)
           (replicas [required_ "region" "us"; required_ "dc" "east"])
           (replicas [required_ "dc" "east"; required_ "region" "us"]) usEast).
  - repeat constructor. intros c1 c2 H1 H2 Hk Hv.
    apply elem_of_cons in H1 as [->|H1]; [|apply list_elem_of_singleton in H1; subst c1];
      (apply elem_of_cons in H2 as [->|H2];
         [|apply list_elem_of_singleton in H2; subst c2]);
      reflexivity.
  - constructor.
  - repeat constructor.
  - constructor.
Defined.

(** A set that requires and prohibits the same key and value is read in the
    order it is given: the first of the two constraints decides. *)
Lemma matchTier_order_example :
  let tier := {| TierKey := "region"; TierValue := "us" |} in
  matchTier tier [required_ "region" "us"; prohibited_ "region" "us"] = 1%Z /\
  matchTier tier [prohibited_ "region" "us"; required_ "region" "us"] = (-1)%Z.
Proof. split; reflexivity. Qed.

(* --------------------------------------------------------------------- *)
(** ** Further worked examples                                             *)
(* --------------------------------------------------------------------- *)

(** A hash join under a hint that disallows hash joins. *)
Lemma disallowed_hash_join_hugeCost_witness :
  @ComputeCost float (float64 anyLog2) neverReverse noStreaming
    (plainCoster 0.5)
    (JoinExpr InnerJoinOp (ValuesExpr (rows 10)) (ValuesExpr (rows 1000))
              {| DisallowHashJoin := true |} (rows 500))
    {| OrderingColumns := [] |} 0.25%float
  = Ok 1e100%float.
Proof.
  apply (disallowed_hash_join_hugeCost anyLog2 neverReverse noStreaming
           (plainCoster 0.5) InnerJoinOp (ValuesExpr (rows 10))
           (ValuesExpr (rows 1000)) {| DisallowHashJoin := true |} (rows 500)
           {| OrderingColumns := [] |} 0.25%float).
  reflexivity.
Defined.

(** The hash join of 1000 and 10 rows, perturbed by 1.5 with the draw 0:
    the cost 17.685 would become 17.685 - 1.5 * 17.685 and is returned as
    0. *)
Lemma perturbed_cost_not_negative_witness :
  exists cost,
    @ComputeCost float (float64 anyLog2) neverReverse noStreaming
      (plainCoster 1.5) (hashJoin 1000 10 500) {| OrderingColumns := [] |} 0%float
    = Ok cost /\
    PrimFloat.ltb cost 0 = false.
Proof.
  pose proof (perturbed_cost_not_negative anyLog2 neverReverse noStreaming
                (plainCoster 1.5) (hashJoin 1000 10 500) {| OrderingColumns := [] |}
                0%float 0%float) as H.
  cbv zeta in H. destruct H as (_ & H & _).
  - vm_compute. reflexivity.
  - exists 0%float. split; [vm_compute; reflexivity|].
    apply H; vm_compute; reflexivity.
Defined.

(** A coster that perturbs by one half. *)
Definition perturbingCosterR : @coster R :=
  {| mem := {| TableIndex := fun _ _ => plainIndex |};
     locality := {| Tiers := [] |};
     perturbation := (1 / 2)%R |}.

Lemma noStreaming_le (p : GroupingPrivate) (r : Required) :
  noStreaming p r <= Len (GroupingCols p).
Proof. unfold noStreaming. lia. Qed.

Lemma perturbed_cost_range_witness :
  exists cost,
    @ComputeCost R exact neverReverse noStreaming perturbingCosterR
      (groupByOver 10) {| OrderingColumns := [] |} (1 / 4)%R = Ok cost /\
    (cost <= @operatorCost R exact neverReverse noStreaming perturbingCosterR
               (groupByOver 10) {| OrderingColumns := [] |} + 1 / 100
             + 1 / 2 * (@operatorCost R exact neverReverse noStreaming
                          perturbingCosterR (groupByOver 10)
                          {| OrderingColumns := [] |} + 1 / 100))%R.
Proof.
  destruct (perturbed_cost_range neverReverse noStreaming perturbingCosterR
              (groupByOver 10) {| OrderingColumns := [] |} (1 / 4)%R)
    as (cost & Hrun & [_ Hhigh] & _).
  - lra.
  - simpl. lra.
  - pose proof (operatorCost_nonneg neverReverse noStreaming noStreaming_le
                  perturbingCosterR {| OrderingColumns := [] |} (groupByOver 10)) as H.
    assert (Hrows : nonnegRows (groupByOver 10))
      by (unfold nonnegRows, groupByOver, rowCount, rowsR; simpl; lra).
    specialize (H Hrows). lra.
  - exists cost. split; [exact Hrun | exact Hhigh].
Defined.

Lemma ComputeCost_at_least_setup_witness :
  exists cost,
    @ComputeCost R exact neverReverse noStreaming plainCosterR
      (groupByOver 10) {| OrderingColumns := [] |} 0%R = Ok cost /\
    (1 / 100 <= cost)%R.
Proof.
  destruct (ComputeCost_at_least_setup neverReverse noStreaming noStreaming_le
              plainCosterR {| OrderingColumns := [] |} (groupByOver 10) 0%R)
    as (_ & cost & Hrun & _ & Hsetup).
  - unfold nonnegRows, groupByOver, rowCount, rowsR; simpl; lra.
  - exists cost. split; [exact Hrun|]. apply Hsetup. reflexivity.
Defined.

(** A scan of a hundred rows of the primary index, without a hint. *)
Definition plainScan : ScanPrivate :=
  {| ScanTable := 1; ScanIndex := 0; ScanCols := MakeColSet [1%Z; 2%Z];
     ScanConstraint := None;
     Flags := {| ForceIndex := false; FlagsIndex := 0 |} |}.

Lemma constrained_scan_preferred_witness :
  @computeScanCost R exact neverReverse plainCosterR
    (withConstraint plainScan None) (rowsR 100) {| OrderingColumns := [] |}
  = (@computeScanCost R exact neverReverse plainCosterR
       (withConstraint plainScan (Some false)) (rowsR 100) {| OrderingColumns := [] |}
     + @cpuCostFactor R exact)%R.
Proof.
  destruct (constrained_scan_preferred neverReverse plainCosterR plainScan
              (rowsR 100) {| OrderingColumns := [] |}) as [H _].
  - reflexivity.
  - simpl. lra.
  - apply H; [reflexivity | discriminate].
Defined.

Lemma streaming_grouping_preferred_witness :
  (RowCount (rowsR 5) * (1 / 100)
   + RowCount (rowsR 10) * IZR (Z.of_nat (1 + Len (MakeColSet [1%Z]))) * (1 / 100)
   <= @computeGroupingCost R exact noStreaming
        (groupByOver 10) (ValuesExpr (rowsR 10)) 1
        {| GroupingCols := MakeColSet [1%Z]; GroupingOrdering := [] |}
        {| OrderingColumns := [] |})%R.
Proof.
  destruct (streaming_grouping_preferred noStreaming noStreaming_le
              (groupByOver 10) (ValuesExpr (rowsR 10)) 1
              {| GroupingCols := MakeColSet [1%Z]; GroupingOrdering := [] |}
              {| OrderingColumns := [] |}) as [_ H].
  - unfold rowCount, rowsR; simpl. lra.
  - destruct H as (_ & Hbase & _).
    + vm_compute. lia.
    + exact Hbase.
Defined.

Lemma hashing_cost_below_sort_witness :
  (@computeGroupingCost R exact noStreaming
     (groupByOver 10) (ValuesExpr (rowsR 10)) 1
     {| GroupingCols := MakeColSet [1%Z]; GroupingOrdering := [] |}
     {| OrderingColumns := [] |}
   - (RowCount (rowsR 5) * (1 / 100)
      + RowCount (rowsR 10) * IZR (Z.of_nat (1 + Len (MakeColSet [1%Z]))) * (1 / 100))
   <= @computeSortCost R exact (SortExpr (ValuesExpr (rowsR 10)) (rowsR 10))
        {| OrderingColumns := [1%Z] |})%R.
Proof.
  apply (hashing_cost_below_sort noStreaming noStreaming_le
           (groupByOver 10) (ValuesExpr (rowsR 10)) 1
           {| GroupingCols := MakeColSet [1%Z]; GroupingOrdering := [] |}
           {| OrderingColumns := [] |} {| OrderingColumns := [1%Z] |}
           (ValuesExpr (rowsR 10)) (rowsR 10)).
  - unfold rowCount, rowsR; simpl. lra.
  - reflexivity.
Defined.

End xform.
